(** * Auto-ping server: data model, reaper, session store, target list,
      prober, sweep and timer loop of [src/index.ts], with the properties
      of its specification.

    Conventions of the embedding.
    - Instants are [Z] milliseconds since the epoch, the time value of a
      JavaScript [Date]; [Date.now()] is an explicit argument or a
      component of the state.
    - The two module-level variables [users] and [sessions] are the two
      fields of the record [Server]; every function of the source that
      reads or assigns them takes a [Server] and returns the next one.
    - [console.log], [fs.writeFileSync] and [fetch] are recorded as
      [Event]s, in program order. *)

From Stdlib Require Import Ascii.
From stdpp Require Import gmap strings list fin_maps pretty.

Open Scope Z_scope.

(** ** Data model (interfaces [PingTarget], [User], [Session]) *)

(** A JavaScript [Date]: a time value in milliseconds, or the invalid date
    that [new Date(s)] yields on an unparsable [s] (time value NaN). *)
Inductive Date :=
| TimeValue (ms : Z)
| InvalidDate.

#[global] Instance Date_eq_dec : EqDecision Date.
Proof. solve_decision. Defined.

(** [a > b] on dates: both operands are converted to their time value and
    any comparison with NaN is false. *)
Definition date_gt (a b : Date) : bool :=
  match a, b with
  | TimeValue x, TimeValue y => bool_decide (y < x)
  | _, _ => false
  end.

Record PingTarget := mkPingTarget {
  url : string;
  lastPing : option Z;
  status : option string
}.

Record User := mkUser {
  id : string;
  username : string;
  password : string;
  pingTargets : list PingTarget;
  (** [None]: the field is missing (or falsy) in [users.json];
      [Some d]: [d] is what [new Date(user.lastLogin)] evaluates to. *)
  lastLogin : option Date
}.

Record Session := mkSession {
  userId : string;
  expires : Z
}.

#[global] Instance PingTarget_eq_dec : EqDecision PingTarget.
Proof. solve_decision. Defined.
#[global] Instance User_eq_dec : EqDecision User.
Proof. solve_decision. Defined.
#[global] Instance Session_eq_dec : EqDecision Session.
Proof. solve_decision. Defined.

(** [let users: User[]] and [let sessions: { [sessionId: string]: Session }]. *)
Record Server := mkServer {
  users : list User;
  sessions : gmap string Session
}.

(** ** Observable effects *)

Inductive LogLine :=
| LogDeleted (at_ : Z) (deletedCount : nat)
| LogStartCycle (at_ : Z)
| LogPinged (target_url user_name target_status : string).

Inductive Event :=
| ConsoleLog (line : LogLine)
  (** [saveUsers()]: the whole list is serialised and written. *)
| SaveUsers (snapshot : list User)
  (** [fetch(url, {method: 'GET', timeout: 10000})] is issued. *)
| Fetch (target_url : string).

#[global] Instance LogLine_eq_dec : EqDecision LogLine.
Proof. solve_decision. Defined.
#[global] Instance Event_eq_dec : EqDecision Event.
Proof. solve_decision. Defined.

Definition is_save (e : Event) : bool :=
  match e with SaveUsers _ => true | _ => false end.

(** [users.find(u => u.id === uid)] *)
Definition findUserById (us : list User) (uid : string) : option User :=
  List.find (λ u, bool_decide (id u = uid)) us.

(** Every session of the store resolves to an account of the store. *)
Definition sessions_resolve (s : Server) : Prop :=
  map_Forall
    (λ _ session, is_Some (findUserById (users s) (userId session)))
    (sessions s).

(** The identifiers of the accounts are pairwise distinct. *)
Definition ids_unique (s : Server) : Prop := NoDup (id <$> users s).

#[global] Instance sessions_resolve_dec s : Decision (sessions_resolve s).
Proof. unfold sessions_resolve. apply _. Defined.
#[global] Instance ids_unique_dec s : Decision (ids_unique s).
Proof. unfold ids_unique. apply _. Defined.

(** ** Account reaper: [cleanupInactiveAccounts] *)

Module Reaper.

(** [2 * 24 * 60 * 60 * 1000] *)
Definition retentionWindow : Z := 2 * 24 * 60 * 60 * 1000.

Definition twoDaysAgo (now : Z) : Date := TimeValue (now - retentionWindow).

(** The callback of [users.filter]: [true] keeps the account. *)
Definition keepUser (cutoff : Date) (user : User) : bool :=
  let lastLogin :=
    match lastLogin user with
    | Some d => d
    | None => TimeValue 0
    end in
  date_gt lastLogin cutoff.

(** The body of the [forEach] over [Object.keys(sessions)]. *)
Definition pruneSession (us : list User) (m : gmap string Session)
    (sessionId : string) : gmap string Session :=
  match m !! sessionId with
  | Some session =>
      match findUserById us (userId session) with
      | Some _ => m
      | None => delete sessionId m
      end
  | None => m
  end.

(** [Object.keys(sessions).forEach(...)]: the keys are listed once, before
    the first deletion. *)
Definition pruneSessions (us : list User) (m : gmap string Session)
    : gmap string Session :=
  foldl (pruneSession us) m (elements (dom m)).

Definition cleanupInactiveAccounts (now : Z) (s : Server)
    : Server * list Event :=
  let cutoff := twoDaysAgo now in
  let initialCount := length (users s) in
  let users' := filter (λ user, keepUser cutoff user) (users s) in
  let deletedCount := (initialCount - length users')%nat in
  if bool_decide (0 < deletedCount)%nat then
    ({| users := users'; sessions := pruneSessions users' (sessions s) |},
     [ConsoleLog (LogDeleted now deletedCount); SaveUsers users'])
  else
    ({| users := users'; sessions := sessions s |}, []).

(** The accounts one tick removes. *)
Definition removed (now : Z) (s : Server) (user : User) : Prop :=
  user ∈ users s ∧ user ∉ users (cleanupInactiveAccounts now s).1.

End Reaper.

(** ** Session store: [isValidSession] and the session-creating handlers *)

Module SessionStore.

(** [24 * 60 * 60 * 1000] *)
Definition sessionLifetime : Z := 24 * 60 * 60 * 1000.

Definition dropSession (sessionId : string) (s : Server) : Server :=
  {| users := users s; sessions := delete sessionId (sessions s) |}.

(** [isValidSession(sessionId)], with [new Date()] read as [now].  The
    result is the account found, and the store after the call. *)
Definition isValidSession (now : Z) (sessionId : string) (s : Server)
    : option User * Server :=
  match sessions s !! sessionId with
  | None => (None, dropSession sessionId s)
  | Some session =>
      if bool_decide (expires session < now)
      then (None, dropSession sessionId s)
      else (findUserById (users s) (userId session), s)
  end.

(** [sessions[sessionId] = { userId, expires: new Date(Date.now() + 24h) }] *)
Definition createSession (now : Z) (sessionId uid : string) (s : Server)
    : Server :=
  {| users := users s;
     sessions := <[sessionId := {| userId := uid;
                                   expires := now + sessionLifetime |}]>
                   (sessions s) |}.

End SessionStore.

(** ** Request handlers *)

Inductive AuthError := MissingFields | UsernameTaken | BadCredentials.

(** What a handler sends back; the HTML itself is not modelled. *)
Inductive Response :=
| Redirect (setCookie : option string)
  (** [res.writeHead(302, { Location: '/' })] *)
| AuthPage (statusCode : nat) (error : option AuthError)
| DashboardPage (user : User).

#[global] Instance AuthError_eq_dec : EqDecision AuthError.
Proof. solve_decision. Defined.
#[global] Instance Response_eq_dec : EqDecision Response.
Proof. solve_decision. Defined.

(** [s.startsWith(p)] *)
Definition startsWith (s p : string) : bool := String.prefix p s.

(** Truthiness of a string that may be [null] ([params.get] of a missing
    field): [null] and the empty string are falsy. *)
Definition truthy (o : option string) : option string :=
  match o with
  | Some EmptyString => None
  | other => other
  end.

Module Handlers.

Definition setTargets (ts : list PingTarget) (u : User) : User :=
  {| id := id u; username := username u; password := password u;
     pingTargets := ts; lastLogin := lastLogin u |}.

Definition setLastLogin (d : Date) (u : User) : User :=
  {| id := id u; username := username u; password := password u;
     pingTargets := pingTargets u; lastLogin := Some d |}.

(** [{ url: newUrl, status: 'Chưa ping' }] *)
Definition newTarget (newUrl : string) : PingTarget :=
  {| url := newUrl; lastPing := None; status := Some "Chưa ping"%string |}.

(** The guard of the add handler on the submitted string. *)
Definition acceptedUrl (newUrl : string) : bool :=
  startsWith newUrl "http://" || startsWith newUrl "https://".

(** The body of the [if] of the add handler, on the target list of the
    current user: [Some] of the extended list when a target is pushed. *)
Definition addToTargets (newUrl : string) (ts : list PingTarget)
    : option (list PingTarget) :=
  match List.find (λ target, bool_decide (url target = newUrl)) ts with
  | Some _ => None
  | None => Some (ts ++ [newTarget newUrl])
  end.

(** POST /add.  [currentUser] is the position in [users] of the account
    the session resolved to; the handler mutates that account in place. *)
Definition addUrl (currentUser : nat) (newUrl : option string) (s : Server)
    : Server * list Event * Response :=
  match users s !! currentUser, truthy newUrl with
  | Some user, Some newUrl =>
      if acceptedUrl newUrl then
        match addToTargets newUrl (pingTargets user) with
        | Some ts =>
            let users' := <[currentUser := setTargets ts user]> (users s) in
            ({| users := users'; sessions := sessions s |},
             [SaveUsers users'], Redirect None)
        | None => (s, [], Redirect None)
        end
      else (s, [], Redirect None)
  | _, _ => (s, [], Redirect None)
  end.

(** [currentUser.pingTargets.filter(target => target.url !== urlToRemove)] *)
Definition removeFromTargets (urlToRemove : string) (ts : list PingTarget)
    : list PingTarget :=
  filter (λ target, url target ≠ urlToRemove) ts.

(** POST /remove. *)
Definition removeUrl (currentUser : nat) (urlToRemove : option string)
    (s : Server) : Server * list Event * Response :=
  match users s !! currentUser, truthy urlToRemove with
  | Some user, Some urlToRemove =>
      let ts := removeFromTargets urlToRemove (pingTargets user) in
      let users' := <[currentUser := setTargets ts user]> (users s) in
      ({| users := users'; sessions := sessions s |},
       [SaveUsers users'], Redirect None)
  | _, _ => (s, [], Redirect None)
  end.

(** The target list of the account at a position of [users]. *)
Definition targetsOf (s : Server) (currentUser : nat) : list PingTarget :=
  match users s !! currentUser with
  | Some user => pingTargets user
  | None => []
  end.

Section Auth.

(** [hashPassword]: SHA-256 as hex, kept abstract. *)
Variable hashPassword : string → string.

(** POST /register; [uuid] and [sessionId] are the values drawn from
    [crypto.randomUUID()] and [generateSessionId()]. *)
Definition register (now : Z) (uname pword : option string)
    (uuid sessionId : string) (s : Server)
    : Server * list Event * Response :=
  match truthy uname, truthy pword with
  | Some uname, Some pword =>
      match List.find (λ u, bool_decide (username u = uname)) (users s) with
      | Some _ => (s, [], AuthPage 400 (Some UsernameTaken))
      | None =>
          let newUser :=
            {| id := uuid; username := uname;
               password := hashPassword pword; pingTargets := [];
               lastLogin := Some (TimeValue now) |} in
          let users' := users s ++ [newUser] in
          (SessionStore.createSession now sessionId (id newUser)
             {| users := users'; sessions := sessions s |},
           [SaveUsers users'], Redirect (Some sessionId))
      end
  | _, _ => (s, [], AuthPage 400 (Some MissingFields))
  end.

(** POST /login. *)
Definition login (now : Z) (uname pword : option string)
    (sessionId : string) (s : Server) : Server * list Event * Response :=
  let matches (u : User) : Prop :=
    Some (username u) = uname ∧
    password u = hashPassword (default ""%string (truthy pword)) in
  match list_find matches (users s) with
  | None => (s, [], AuthPage 400 (Some BadCredentials))
  | Some (i, user) =>
      let users' := <[i := setLastLogin (TimeValue now) user]> (users s) in
      (SessionStore.createSession now sessionId (id user)
         {| users := users'; sessions := sessions s |},
       [SaveUsers users'], Redirect (Some sessionId))
  end.

End Auth.

(** POST /logout, with the [sessionId] cookie of the request if any. *)
Definition logout (cookie : option string) (s : Server)
    : Server * list Event * Response :=
  (match truthy cookie with
   | Some sessionId => SessionStore.dropSession sessionId s
   | None => s
   end, [], Redirect (Some ""%string)).

End Handlers.

(** ** Target prober: [pingUrl] *)

Module Prober.

(** How a promise settles. *)
Inductive Settled (A : Type) :=
| Fulfilled (value : A)
| Rejected (message : string).
Arguments Fulfilled {A} value.
Arguments Rejected {A} message.

(** The two fields of a [fetch] response that [pingUrl] reads. *)
Record HttpResponse := mkHttpResponse {
  statusCode : N;
  statusText : string
}.

(** [timeout: 10000], in milliseconds *)
Definition timeout : N := 10000.

(** [{ status: string; responseTime: number }] *)
Record PingResult := mkPingResult {
  result_status : string;
  responseTime : Z
}.

(** [pingUrl] from the moment the promise of [fetch] has settled, at
    instant [finish]: the [try] returns on a response, the [catch] on a
    rejection. *)
Definition pingOutcome (startTime finish : Z) (r : Settled HttpResponse)
    : Settled PingResult :=
  match r with
  | Fulfilled response =>
      Fulfilled
        {| result_status :=
             pretty (statusCode response) +:+ " " +:+ statusText response;
           responseTime := finish - startTime |}
  | Rejected message =>
      Fulfilled
        {| result_status := "Error: " +:+ message;
           responseTime := finish - startTime |}
  end.

(** [`${result.status} (${result.responseTime}ms)`] *)
Definition outcomeText (result : PingResult) : string :=
  result_status result +:+ " (" +:+ pretty (responseTime result) +:+ "ms)".

(** The body of the loops of [pingAllUrls] and of the ping-now handler
    after [await pingUrl(target.url)], at instant [now]: the [try] branch on
    a result, the [catch] branch on a rejection. *)
Definition recordResult (now : Z) (r : Settled PingResult)
    (target : PingTarget) : PingTarget :=
  match r with
  | Fulfilled result =>
      {| url := url target; lastPing := Some now;
         status := Some (outcomeText result) |}
  | Rejected message =>
      {| url := url target; lastPing := lastPing target;
         status := Some ("Failed: " +:+ message) |}
  end.

(** A settled result marks a failure when its text starts with the
    prefix that only the [catch] of [pingUrl] writes. *)
Definition marksFailure (result : PingResult) : bool :=
  startsWith (result_status result) "Error: ".

(** The outcome text, written out for an answer of the network and the
    milliseconds it took: the status code and status text of a response,
    or the message of an error behind [Error: ], then the milliseconds
    between brackets.  The functions above do not use it: it is what their
    result is compared with. *)
Definition answerText (r : Settled HttpResponse) (elapsed : Z) : string :=
  match r with
  | Fulfilled response =>
      pretty (statusCode response) +:+ " " +:+ statusText response
  | Rejected message => "Error: " +:+ message
  end +:+ " (" +:+ pretty elapsed +:+ "ms)".

End Prober.

(** ** Sweep: [pingAllUrls], run from its call to its return *)

Module Sweep.
Import Prober.

(** The network as the sweep meets it: the [n]-th [fetch] of the run, for
    a URL, settles in some way after some number of milliseconds. *)
Definition Network : Type := nat → string → Settled HttpResponse * N.

(** What a call reads and writes besides the store: the clock behind
    [Date.now()], which moves on while a fetch is awaited and never goes
    back, the number of fetches issued, and the effects so far. *)
Record World := mkWorld {
  clock : Z;
  fetches : nat;
  trace : list Event
}.

Definition emit (e : Event) (w : World) : World :=
  {| clock := clock w; fetches := fetches w; trace := trace w ++ [e] |}.

Section WithNetwork.

Variable net : Network.

(** [await pingUrl(url)] *)
Definition pingUrl (target_url : string) (w : World)
    : Settled PingResult * World :=
  let startTime := clock w in
  let '(r, elapsed) := net (fetches w) target_url in
  let w' := {| clock := clock w + Z.of_N elapsed;
               fetches := S (fetches w);
               trace := trace w ++ [Fetch target_url] |} in
  (pingOutcome startTime (clock w') r, w').

(** One iteration of the inner loop. *)
Definition pingTarget (user_name : string) (target : PingTarget)
    (w : World) : PingTarget * World :=
  let '(r, w1) := pingUrl (url target) w in
  let target' := recordResult (clock w1) r target in
  (target',
   emit (ConsoleLog (LogPinged (url target) user_name
                       (default ""%string (status target')))) w1).

(** [for (const target of user.pingTargets)] *)
Fixpoint pingTargetsOf (user_name : string) (ts : list PingTarget)
    (w : World) : list PingTarget * World :=
  match ts with
  | [] => ([], w)
  | target :: rest =>
      let '(target', w1) := pingTarget user_name target w in
      let '(rest', w2) := pingTargetsOf user_name rest w1 in
      (target' :: rest', w2)
  end.

(** [for (const user of users)] *)
Fixpoint pingUsers (us : list User) (w : World) : list User * World :=
  match us with
  | [] => ([], w)
  | user :: rest =>
      let '(ts, w1) := pingTargetsOf (username user) (pingTargets user) w in
      let '(rest', w2) := pingUsers rest w1 in
      (Handlers.setTargets ts user :: rest', w2)
  end.

Definition pingAllUrls (s : Server) (w : World) : Server * World :=
  let w0 := emit (ConsoleLog (LogStartCycle (clock w))) w in
  let '(users', w1) := pingUsers (users s) w0 in
  ({| users := users'; sessions := sessions s |},
   emit (SaveUsers users') w1).

End WithNetwork.

(** All targets of the store, account by account, in list order. *)
Definition allTargets (us : list User) : list PingTarget :=
  concat (pingTargets <$> us).

(** The URLs fetched along a trace, in order. *)
Definition fetchedUrls (evs : list Event) : list string :=
  omap (λ e, match e with Fetch u => Some u | _ => None end) evs.

(** [after] is [before] as the loop body leaves it when its probe is the
    [n]-th fetch, starts at [c0] and ends within the window [t0 .. t1]. *)
Definition probedBetween (net : Network) (t0 t1 : Z)
    (before after : PingTarget) : Prop :=
  ∃ (n : nat) (c0 : Z),
    let r := (net n (url before)).1 in
    let c1 := c0 + Z.of_N (net n (url before)).2 in
    t0 ≤ c0 ∧ c1 ≤ t1 ∧
    after = recordResult c1 (pingOutcome c0 c1 r) before.

(** [after] is the account [before] with every target probed within the
    window, and nothing else changed. *)
Definition sweptBetween (net : Network) (t0 t1 : Z)
    (before after : User) : Prop :=
  after = Handlers.setTargets (pingTargets after) before ∧
  Forall2 (probedBetween net t0 t1) (pingTargets before) (pingTargets after).

(** The time that the fetches of a list of URLs take, one after the
    other, the first of them being the [n]-th fetch. *)
Fixpoint delays (net : Network) (n : nat) (urls : list string) : Z :=
  match urls with
  | [] => 0
  | u :: rest => Z.of_N (net n u).2 + delays net (S n) rest
  end.

(** No fetch takes longer than the timeout it was given. *)
Definition honoursTimeout (net : Network) : Prop :=
  ∀ n u, ((net n u).2 ≤ timeout)%N.

(** What is expected of the target [before], the [k]-th of the targets
    with URLs [urls], after a sweep that starts at instant [start] with
    its first fetch being the [n]-th: the URL it had, the instant at which
    its own fetch settled, and the text of the answer to that fetch. *)
Definition written (net : Network) (start : Z) (n : nat)
    (urls : list string) (k : nat) (before : PingTarget) : PingTarget :=
  {| url := url before;
     lastPing := Some (start + delays net n (take (S k) urls));
     status :=
       Some (answerText (net (n + k)%nat (url before)).1
                        (Z.of_N (net (n + k)%nat (url before)).2)) |}.

(** An outcome text has the shape [<status-or-error> (<elapsed>ms)]. *)
Definition formatted (text : string) : Prop :=
  ∃ (what : string) (elapsed : Z),
    text = what +:+ " (" +:+ pretty elapsed +:+ "ms)".

End Sweep.

(** ** Timer loop: [setInterval(pingAllUrls, 3 * 1000)]

    [pingAllUrls] is an [async] function: a call runs up to its first
    [await] and returns a promise, which [setInterval] drops.  A call in
    progress is therefore a suspended computation, waiting for the [fetch]
    of one target; the timer, and the settling of a [fetch], are the events
    that the loop dispatches one at a time. *)

Module EventLoop.
Import Prober.

(** [3 * 1000] *)
Definition period : Z := 3 * 1000.

(** A call of [pingAllUrls] suspended in [pingUrl]: the position of its two
    loops and the [startTime] that [pingUrl] read. *)
Record Pending := mkPending {
  atUser : nat;
  atTarget : nat;
  startTime : Z
}.

Record Loop := mkLoop {
  clock : Z;
  (** the instant from which the interval timer is due *)
  nextTick : Z;
  store : list User;
  running : list Pending;
  trace : list Event;
  (** every assignment [target.lastPing = new Date()] so far, oldest
      first: position of the account, position of the target, instant *)
  stamps : list (nat * nat * Z)
}.

Definition boot (t0 : Z) (us : list User) : Loop :=
  {| clock := t0; nextTick := t0 + period; store := us;
     running := []; trace := []; stamps := [] |}.

(** The next target of the two nested [for ... of] loops, for the loops
    standing at target [j] of the first account of [rest], which is
    account [i] of the store. *)
Fixpoint nextTarget (rest : list User) (i j : nat)
    : option (nat * nat * PingTarget) :=
  match rest with
  | [] => None
  | user :: rest' =>
      match pingTargets user !! j with
      | Some target => Some (i, j, target)
      | None => nextTarget rest' (S i) 0%nat
      end
  end.

Definition seek (us : list User) (i j : nat)
    : option (nat * nat * PingTarget) :=
  nextTarget (drop i us) i j.

(** A call of [pingAllUrls] runs on from position [(i, j)] of its loops:
    up to the [await] of the next [fetch], or through [saveUsers()] to
    its end. *)
Definition resume (i j : nat) (L : Loop) : Loop :=
  match seek (store L) i j with
  | Some (i', j', target) =>
      {| clock := clock L; nextTick := nextTick L; store := store L;
         running := running L ++
           [{| atUser := i'; atTarget := j'; startTime := clock L |}];
         trace := trace L ++ [Fetch (url target)];
         stamps := stamps L |}
  | None =>
      {| clock := clock L; nextTick := nextTick L; store := store L;
         running := running L;
         trace := trace L ++ [SaveUsers (store L)];
         stamps := stamps L |}
  end.

(** The timer calls [pingAllUrls()], whatever is running. *)
Definition fire (L : Loop) : Loop :=
  resume 0 0
    {| clock := clock L; nextTick := clock L + period; store := store L;
       running := running L;
       trace := trace L ++ [ConsoleLog (LogStartCycle (clock L))];
       stamps := stamps L |}.

(** The [fetch] awaited by the [k]-th running call settles with [r]. *)
Definition settle (k : nat) (r : Settled HttpResponse) (L : Loop)
    : option Loop :=
  p ← running L !! k;
  user ← store L !! atUser p;
  target ← pingTargets user !! atTarget p;
  let result := pingOutcome (startTime p) (clock L) r in
  let target' := recordResult (clock L) result target in
  let user' :=
    Handlers.setTargets (<[atTarget p := target']> (pingTargets user)) user in
  Some (resume (atUser p) (S (atTarget p))
    {| clock := clock L; nextTick := nextTick L;
       store := <[atUser p := user']> (store L);
       running := delete k (running L);
       trace := trace L ++
         [ConsoleLog (LogPinged (url target) (username user)
                        (default ""%string (status target')))];
       stamps := stamps L ++
         match result with
         | Fulfilled _ => [(atUser p, atTarget p, clock L)]
         | Rejected _ => []
         end |}).

(** Time passes. *)
Definition advance (d : N) (L : Loop) : Loop :=
  {| clock := clock L + Z.of_N d; nextTick := nextTick L; store := store L;
     running := running L; trace := trace L; stamps := stamps L |}.

Inductive step : Loop → Loop → Prop :=
| step_advance L d : step L (advance d L)
| step_fire L : nextTick L ≤ clock L → step L (fire L)
| step_settle L k r L' : settle k r L = Some L' → step L L'.

(** The states the loop can be in, from a start at [t0] with the loaded
    accounts [us]. *)
Inductive reachable (t0 : Z) (us : list User) : Loop → Prop :=
| reach_boot : reachable t0 us (boot t0 us)
| reach_step L L' : reachable t0 us L → step L L' → reachable t0 us L'.

(** The running call, the only one, gets the answer of the network to
    its fetch, the [n]-th since the call began, after the time it takes. *)
Definition answer (net : Sweep.Network) (n : nat) (L : Loop) : option Loop :=
  p ← running L !! 0%nat;
  user ← store L !! atUser p;
  target ← pingTargets user !! atTarget p;
  settle 0 (net n (url target)).1 (advance (net n (url target)).2 L).

(** The loop with nothing but the answers to the one call that runs, until
    that call has returned; [fuel] bounds the number of answers. *)
Fixpoint alone (net : Sweep.Network) (fuel n : nat) (L : Loop)
    : option Loop :=
  match running L with
  | [] => Some L
  | _ =>
      match fuel with
      | O => None
      | S fuel' => L' ← answer net n L; alone net fuel' (S n) L'
      end
  end.

(** A call that runs alone from position [(length pre, length tsdone)] of
    its loops, [u] being the account at that position and [tstodo] its
    targets still to probe, returns within [fuel] answers, and ends where
    the sweep run in one go from there ends. *)
Definition endsLikeSweep (net : Sweep.Network) (post pre : list User)
    (tstodo : list PingTarget) (u : User) (tsdone : list PingTarget)
    (n : nat) (L : Loop) (fuel : nat) : Prop :=
  let w := {| Sweep.clock := clock L; Sweep.fetches := n;
              Sweep.trace := trace L |} in
  let r1 := Sweep.pingTargetsOf net (username u) tstodo w in
  let r2 := Sweep.pingUsers net post r1.2 in
  let final := pre ++ Handlers.setTargets (tsdone ++ r1.1) u :: r2.1 in
  ∃ Lend,
    alone net fuel n (resume (length pre) (length tsdone) L) = Some Lend ∧
    running Lend = [] ∧ store Lend = final ∧
    clock Lend = Sweep.clock r2.2 ∧
    trace Lend = Sweep.trace r2.2 ++ [SaveUsers final] ∧
    nextTick Lend = nextTick L.

(** The effects that open and close a call of [pingAllUrls]: its first
    line on the console, and its save. *)
Definition opens (e : Event) : bool :=
  match e with ConsoleLog (LogStartCycle _) => true | _ => false end.

Definition count (f : Event → bool) (evs : list Event) : nat :=
  length (List.filter f evs).

(** What the sweep leaves alone: the accounts in their order, each with its
    identifier, name, digest and last login, and the URLs of its targets in
    their order. *)
Definition shape (us : list User)
    : list (string * string * string * option Date * list string) :=
  (λ u, (id u, username u, password u, lastLogin u, url <$> pingTargets u))
    <$> us.

(** The instants written to one target, oldest first. *)
Definition stampsOf (i j : nat) (L : Loop) : list Z :=
  omap (λ '(i', j', t),
          if bool_decide (i' = i ∧ j' = j) then Some t else None)
       (stamps L).

(** Non-decreasing. *)
Fixpoint ascending (ts : list Z) : bool :=
  match ts with
  | [] => true
  | t :: rest =>
      match rest with
      | [] => true
      | t' :: _ => bool_decide (t ≤ t') && ascending rest
      end
  end.

(** What holds of the instants written to a target in every state of the
    loop: they never decrease, and none is later than the clock. *)
Definition stamps_in_order (L : Loop) : Prop :=
  ∀ i j, ascending (stampsOf i j L) = true ∧
         Forall (λ t, t ≤ clock L) (stampsOf i j L).

(** The target at position [j] of the account at position [i]. *)
Definition targetAt (us : list User) (i j : nat) : option PingTarget :=
  user ← us !! i; pingTargets user !! j.

(** Position [(i, j)] of the two loops comes before position [(i', j')]. *)
Definition before (i j i' j' : nat) : Prop :=
  (i < i')%nat ∨ (i = i' ∧ (j < j')%nat).

(** The last-check instant that target [(i, j)] holds in the store [now]
    is the last of the instants [written] to it, or the one it was
    [loaded] with when nothing was written to it. *)
Definition holdsLastStamp (loaded now : list User) (i j : nat)
    (written : list Z) : Prop :=
  (targetAt now i j ≫= lastPing) =
  match last written with
  | Some t => Some t
  | None => targetAt loaded i j ≫= lastPing
  end.

(** The loop with a timer that is served first: from the instant the
    timer is due, its call of [pingAllUrls] comes before any answer of the
    network is handled, and before more time passes.  The timer can still
    be late, by the time that passed in the step that made it due. *)
Inductive tick : Loop → Loop → Prop :=
| tick_advance L d : clock L < nextTick L → tick L (advance d L)
| tick_fire L : nextTick L ≤ clock L → tick L (fire L)
| tick_settle L k r L' :
    clock L < nextTick L → settle k r L = Some L' → tick L L'.

Inductive timely (t0 : Z) (us : list User) : Loop → Prop :=
| timely_boot : timely t0 us (boot t0 us)
| timely_tick L L' : timely t0 us L → tick L L' → timely t0 us L'.

(** The states of the loop, each with the instants at which the timer
    started the calls that run, in the order of [running]: the timer puts
    its call last; a call that goes on after an answer is put last by
    [resume], and its instant with it; a call that returns is dropped. *)
Inductive tracked (t0 : Z) (us : list User) : Loop → list Z → Prop :=
| tracked_boot : tracked t0 us (boot t0 us) []
| tracked_advance L began d :
    tracked t0 us L began → tracked t0 us (advance d L) began
| tracked_fire L began :
    tracked t0 us L began → nextTick L ≤ clock L →
    tracked t0 us (fire L)
      (began ++ match seek (store L) 0 0 with
                | Some _ => [clock L]
                | None => []
                end)
| tracked_settle L began k r L' p T :
    tracked t0 us L began →
    running L !! k = Some p → began !! k = Some T →
    settle k r L = Some L' →
    tracked t0 us L'
      (delete k began ++
       match seek (store L') (atUser p) (S (atTarget p)) with
       | Some _ => [T]
       | None => []
       end).

(** A target last written between [T] and [now], with the text of an
    answer of the network. *)
Definition checkedSince (T now : Z) (t : PingTarget) : Prop :=
  ∃ (at_ : Z) (r : Settled HttpResponse) (elapsed : Z),
    lastPing t = Some at_ ∧ T ≤ at_ ≤ now ∧ 0 ≤ elapsed ∧
    status t = Some (answerText r elapsed).

(** What holds of a call started at [T] that waits at [p]: its start line
    is on the console, its fetch started after the call did, and every
    target before its position has been written since it started. *)
Definition onItsWay (L : Loop) (T : Z) (p : Pending) : Prop :=
  T ≤ startTime p ≤ clock L ∧
  ConsoleLog (LogStartCycle T) ∈ trace L ∧
  ∀ i j t, before i j (atUser p) (atTarget p) →
           targetAt (store L) i j = Some t → checkedSince T (clock L) t.

End EventLoop.

(** ** The server over time

    Every handler and the reaper run to completion once started; the loop
    bodies of the sweep and of the ping-now handler write one target at a
    time.  The life of the server is a sequence of such turns. *)

Module Lifecycle.
Import Prober.

Inductive Action :=
| Register (now : Z) (uname pword : option string) (uuid sessionId : string)
| Login (now : Z) (uname pword : option string) (sessionId : string)
| Logout (cookie : option string)
  (** [isValidSession] on the cookie of an incoming request *)
| Request (now : Z) (sessionId : string)
| AddUrl (currentUser : nat) (newUrl : option string)
| RemoveUrl (currentUser : nat) (urlToRemove : option string)
  (** the body of a ping loop writes target [j] of account [i] *)
| Probed (i j : nat) (now : Z) (r : Settled PingResult)
| Reap (now : Z).

Definition writeTarget (i j : nat) (now : Z) (r : Settled PingResult)
    (s : Server) : Server :=
  match users s !! i with
  | Some user =>
      match pingTargets user !! j with
      | Some target =>
          {| users :=
               <[i := Handlers.setTargets
                        (<[j := recordResult now r target]> (pingTargets user))
                        user]> (users s);
             sessions := sessions s |}
      | None => s
      end
  | None => s
  end.

Section WithHash.

Variable hashPassword : string → string.

Definition perform (s : Server) (a : Action) : Server :=
  match a with
  | Register now uname pword uuid sessionId =>
      (Handlers.register hashPassword now uname pword uuid sessionId s).1.1
  | Login now uname pword sessionId =>
      (Handlers.login hashPassword now uname pword sessionId s).1.1
  | Logout cookie => (Handlers.logout cookie s).1.1
  | Request now sessionId => (SessionStore.isValidSession now sessionId s).2
  | AddUrl currentUser newUrl => (Handlers.addUrl currentUser newUrl s).1.1
  | RemoveUrl currentUser urlToRemove =>
      (Handlers.removeUrl currentUser urlToRemove s).1.1
  | Probed i j now r => writeTarget i j now r s
  | Reap now => (Reaper.cleanupInactiveAccounts now s).1
  end.

Definition run (s : Server) (acts : list Action) : Server :=
  foldl perform s acts.

End WithHash.

(** The server right after [loadUsers()]: no session yet. *)
Definition started (loaded : list User) : Server :=
  {| users := loaded; sessions := ∅ |}.

(** Within each account the URLs of the targets are distinct. *)
Definition urls_unique (s : Server) : Prop :=
  Forall (λ user, NoDup (url <$> pingTargets user)) (users s).

(** The names of the accounts are pairwise distinct. *)
Definition names_unique (s : Server) : Prop :=
  NoDup (username <$> users s).

(** Every URL of every account passed the test of the add handler. *)
Definition urls_accepted (s : Server) : Prop :=
  Forall (λ user,
            Forall (λ t, Handlers.acceptedUrl (url t) = true)
                   (pingTargets user))
         (users s).

#[global] Instance names_unique_dec s : Decision (names_unique s).
Proof. unfold names_unique. apply _. Defined.
#[global] Instance urls_unique_dec s : Decision (urls_unique s).
Proof. unfold urls_unique. apply _. Defined.
#[global] Instance urls_accepted_dec s : Decision (urls_accepted s).
Proof. unfold urls_accepted. apply _. Defined.

End Lifecycle.

(** ** Cookies: [parseCookies]

    A header value reaches the handler as a string of one-byte characters,
    which is what a [string] is here. *)

Module Cookies.

(** [s.split(sep)] for a separator of one character: at least one piece,
    one more than there are separators. *)
Fixpoint split (sep : ascii) (s : string) : list string :=
  match s with
  | EmptyString => [EmptyString]
  | String c rest =>
      if Ascii.eqb c sep then EmptyString :: split sep rest
      else
        match split sep rest with
        | piece :: pieces => String c piece :: pieces
        | [] => [String c EmptyString]
        end
  end.

(** The white space and line terminators that [trim] strips, among the
    one-byte characters: tab, line feed, vertical tab, form feed, carriage
    return, space and no-break space. *)
Definition isSpace (c : ascii) : bool :=
  let n := N_of_ascii c in
  bool_decide (9 ≤ n ≤ 13)%N || bool_decide (n = 32)%N
  || bool_decide (n = 160)%N.

Fixpoint trimStart (s : string) : string :=
  match s with
  | EmptyString => EmptyString
  | String c rest => if isSpace c then trimStart rest else s
  end.

Fixpoint trimEnd (s : string) : string :=
  match s with
  | EmptyString => EmptyString
  | String c rest =>
      match trimEnd rest with
      | EmptyString => if isSpace c then EmptyString else String c EmptyString
      | kept => String c kept
      end
  end.

(** [s.trim()] *)
Definition trim (s : string) : string := trimEnd (trimStart s).

(** The callback of the [forEach]: [const [name, value] =
    cookie.trim().split('=')] takes the first two pieces, and
    [cookies[name] = value] is done when both are non-empty.  On the plain
    object [cookies] the name [__proto__] is the accessor of the prototype,
    which ignores a string: no entry is made for it. *)
Definition setCookie (cookies : gmap string string) (cookie : string)
    : gmap string string :=
  match split "=" (trim cookie) with
  | name :: value :: _ =>
      if bool_decide (name = EmptyString) || bool_decide (value = EmptyString)
         || bool_decide (name = "__proto__"%string)
      then cookies
      else <[name := value]> cookies
  | _ => cookies
  end.

Definition parseCookies (cookieHeader : string) : gmap string string :=
  foldl setCookie ∅ (split ";" cookieHeader).

(** A string without separator, [=] or white space in it, and not empty:
    what [generateSessionId] makes, 64 hexadecimal digits, is one. *)
Fixpoint plainChars (s : string) : bool :=
  match s with
  | EmptyString => true
  | String c rest =>
      negb (Ascii.eqb c ";") && negb (Ascii.eqb c "=") && negb (isSpace c)
      && plainChars rest
  end.

Definition plainToken (s : string) : bool :=
  negb (bool_decide (s = EmptyString)) && plainChars s.

(** Nothing but white space. *)
Fixpoint blank (s : string) : bool :=
  match s with
  | EmptyString => true
  | String c rest => isSpace c && blank rest
  end.

(** The character does not occur in the string. *)
Fixpoint lacks (sep : ascii) (s : string) : bool :=
  match s with
  | EmptyString => true
  | String c rest => negb (Ascii.eqb c sep) && lacks sep rest
  end.

End Cookies.

(** ** Manual sweep of one account: the ping-now handler

    As for [Sweep.pingAllUrls], the handler is run from its start to its
    answer. *)

Module PingNow.
Import Prober Sweep.

Section WithNetwork.

Variable net : Network.

(** One iteration of the loop: the body of the sweep without its
    [console.log]. *)
Definition pingOne (target : PingTarget) (w : World) : PingTarget * World :=
  let '(r, w1) := pingUrl net (url target) w in
  (recordResult (clock w1) r target, w1).

(** [for (const target of currentUser.pingTargets)] *)
Fixpoint pingEach (ts : list PingTarget) (w : World)
    : list PingTarget * World :=
  match ts with
  | [] => ([], w)
  | target :: rest =>
      let '(target', w1) := pingOne target w in
      let '(rest', w2) := pingEach rest w1 in
      (target' :: rest', w2)
  end.

(** POST /ping-now for the account at position [currentUser]; a position
    that holds no account does not come out of the router. *)
Definition pingNow (currentUser : nat) (s : Server) (w : World)
    : Server * World * Response :=
  match users s !! currentUser with
  | Some user =>
      let '(ts, w1) := pingEach (pingTargets user) w in
      let users' := <[currentUser := Handlers.setTargets ts user]> (users s) in
      ({| users := users'; sessions := sessions s |},
       emit (SaveUsers users') w1, Redirect None)
  | None => (s, w, Redirect None)
  end.

End WithNetwork.

End PingNow.

(** ** The request listener of [http.createServer] *)

Module Router.

(** What the listener reads of a request: [req.method], the [pathname] of
    the URL once [new URL] has parsed it, [req.headers.cookie || ''], and
    the fields of the body as [URLSearchParams.get] gives them.  A handler
    that waits for the body is run when the body is there. *)
Record Request := mkRequest {
  method : string;
  pathname : string;
  cookieHeader : string;
  field : string → option string
}.

(** [isValidSession], giving with the account its position in [users]:
    the handlers work on the object that [users.find] returned. *)
Definition whoIs (now : Z) (sessionId : string) (s : Server)
    : option (nat * User) * Server :=
  match sessions s !! sessionId with
  | None => (None, SessionStore.dropSession sessionId s)
  | Some session =>
      if bool_decide (expires session < now)
      then (None, SessionStore.dropSession sessionId s)
      else (list_find (λ u, id u = userId session) (users s), s)
  end.

(** [cookies.sessionId ? isValidSession(cookies.sessionId) : null] *)
Definition currentUserOf (now : Z) (cookies : gmap string string)
    (s : Server) : option (nat * User) * Server :=
  match cookies !! "sessionId"%string with
  | Some sessionId => whoIs now sessionId s
  | None => (None, s)
  end.

Definition isPost (req : Request) (path : string) : bool :=
  bool_decide (method req = "POST"%string)
  && bool_decide (pathname req = path).

(** A request as it reaches the listener.  [parsedPath] stands for the
    first statement of the listener, [new URL(req.url || '/',
    `http://${req.headers.host}`)]: the [pathname] of the URL, or nothing
    when [new URL] throws. *)
Record Incoming := mkIncoming {
  incMethod : string;
  parsedPath : option string;
  incCookie : string;
  incField : string → option string
}.

(** What the listener makes of a request: the server it leaves, its
    effects and its answer; or an exception thrown out of the listener
    before it has read, changed or answered anything.  Nothing in the
    file catches such an exception, so the process ends there, with the
    accounts as they were last saved and the sessions gone. *)
Inductive Outcome :=
| Answered (s : Server) (evs : list Event) (response : Response)
| Thrown.

Section WithEnvironment.

Variable hashPassword : string → string.
Variable net : Sweep.Network.

(** One request whose URL has parsed, from the reading of its cookies to
    its answer; [uuid] and [newSessionId] are the random values a
    registration or a login would draw. *)
Definition handle (now : Z) (uuid newSessionId : string) (req : Request)
    (s : Server) : Server * list Event * Response :=
  let cookies := Cookies.parseCookies (cookieHeader req) in
  let '(currentUser, s1) := currentUserOf now cookies s in
  if isPost req "/register" then
    Handlers.register hashPassword now
      (field req "username"%string) (field req "password"%string)
      uuid newSessionId s1
  else if isPost req "/login" then
    Handlers.login hashPassword now
      (field req "username"%string) (field req "password"%string)
      newSessionId s1
  else if isPost req "/logout" then
    Handlers.logout (cookies !! "sessionId"%string) s1
  else
    match currentUser with
    | None => (s1, [], AuthPage 200 None)
    | Some (i, user) =>
        if isPost req "/add" then
          Handlers.addUrl i (field req "url"%string) s1
        else if isPost req "/remove" then
          Handlers.removeUrl i (field req "url"%string) s1
        else if isPost req "/ping-now" then
          let '(s2, w, response) :=
            PingNow.pingNow net i s1
              {| Sweep.clock := now; Sweep.fetches := 0;
                 Sweep.trace := [] |} in
          (s2, Sweep.trace w, response)
        else (s1, [], DashboardPage user)
    end.

(** The listener, from its first statement.  [new URL] throws on a
    request target or a [Host] header it cannot parse, such as the target
    [//]; the listener has no [try] around it, so nothing of the listener
    runs after it and no answer is written. *)
Definition listen (now : Z) (uuid newSessionId : string) (inc : Incoming)
    (s : Server) : Outcome :=
  match parsedPath inc with
  | None => Thrown
  | Some path =>
      let '(s', evs, response) :=
        handle now uuid newSessionId
          {| method := incMethod inc; pathname := path;
             cookieHeader := incCookie inc; field := incField inc |} s in
      Answered s' evs response
  end.

End WithEnvironment.

(** Every save of a list of effects writes the given accounts, and the
    last effect is such a save if the accounts are not those of before. *)
Definition savedInStep (before after : list User) (evs : list Event)
    : Prop :=
  (∀ snapshot, SaveUsers snapshot ∈ evs → snapshot = after) ∧
  (after ≠ before → last evs = Some (SaveUsers after)).

End Router.

(** ** Sample stores, for the examples below *)

Module Sample.

Definition alice : User :=
  {| id := "u1"; username := "alice"; password := "h"; pingTargets := [];
     lastLogin := Some (TimeValue 5000) |}.

(** One account and two sessions: [tokA] of alice, expiring at 10000, and
    [tokB] of an account that is not in the store. *)
Definition store : Server :=
  {| users := [alice];
     sessions := {[ "tokA" := {| userId := "u1"; expires := 10000 |};
                    "tokB" := {| userId := "gone"; expires := 99999 |} ]} |}.

(** An account with two targets, never checked. *)
Definition bob : User :=
  {| id := "u2"; username := "bob"; password := "h";
     pingTargets := [ Handlers.newTarget "https://a.example";
                      Handlers.newTarget "http://b.example" ];
     lastLogin := Some (TimeValue 5000) |}.

Definition watching : Server := {| users := [alice; bob]; sessions := ∅ |}.

(** A network that answers every request with [200 OK] after 42 ms, and
    one on which every request fails after 10 s. *)
Definition healthy : Sweep.Network :=
  λ _ _, (Prober.Fulfilled {| Prober.statusCode := 200;
                              Prober.statusText := "OK" |}, 42%N).

Definition down : Sweep.Network :=
  λ _ _, (Prober.Rejected "network timeout", 10000%N).

Definition midnight : Sweep.World :=
  {| Sweep.clock := 1000000; Sweep.fetches := 0; Sweep.trace := [] |}.

(** The loop started at instant 0 on [watching], with the timer fired at
    3000 and again at 6000 while the first fetch is still pending. *)
Definition twoTicks : EventLoop.Loop :=
  EventLoop.fire (EventLoop.advance 3000
    (EventLoop.fire (EventLoop.advance 3000
      (EventLoop.boot 0 (users watching))))).

(** A login form with the name and password of alice, a request for the
    home page, and a form posted to a path. *)
Definition loginForm : Router.Request :=
  {| Router.method := "POST"; Router.pathname := "/login";
     Router.cookieHeader := "";
     Router.field := λ name,
       if bool_decide (name = "username"%string) then Some "alice"%string
       else if bool_decide (name = "password"%string) then Some "h"%string
       else None |}.

Definition home (cookie : string) : Router.Request :=
  {| Router.method := "GET"; Router.pathname := "/";
     Router.cookieHeader := cookie; Router.field := λ _, None |}.

Definition post (path cookie : string) (target_url : option string)
    : Router.Request :=
  {| Router.method := "POST"; Router.pathname := path;
     Router.cookieHeader := cookie;
     Router.field := λ name,
       if bool_decide (name = "url"%string) then target_url else None |}.

(** A request as it reaches the listener when [new URL] parses it, and a
    GET that [new URL] refuses, as it does the request target [//]. *)
Definition arriving (req : Router.Request) : Router.Incoming :=
  {| Router.incMethod := Router.method req;
     Router.parsedPath := Some (Router.pathname req);
     Router.incCookie := Router.cookieHeader req;
     Router.incField := Router.field req |}.

Definition unparsable (cookie : string) : Router.Incoming :=
  {| Router.incMethod := "GET"; Router.parsedPath := None;
     Router.incCookie := cookie; Router.incField := λ _, None |}.

(** An account that logged in at 200000000, and a store with alice, who
    logged in at 5000, that account, and a session of each. *)
Definition carol : User :=
  {| id := "u3"; username := "carol"; password := "h"; pingTargets := [];
     lastLogin := Some (TimeValue 200000000) |}.

Definition mixed : Server :=
  {| users := [alice; carol];
     sessions := {[ "tokA" := {| userId := "u1"; expires := 286400000 |};
                    "tokC" := {| userId := "u3"; expires := 286400000 |} ]} |}.

Definition ok : Prober.Settled Prober.HttpResponse :=
  Prober.Fulfilled {| Prober.statusCode := 200; Prober.statusText := "OK" |}.

(** One account with three targets, never checked. *)
Definition dave : User :=
  {| id := "u4"; username := "dave"; password := "h";
     pingTargets := [ Handlers.newTarget "https://a.example";
                      Handlers.newTarget "https://b.example";
                      Handlers.newTarget "https://c.example" ];
     lastLogin := Some (TimeValue 5000) |}.

(** [twoTicks] once both fetches are answered: that of the second sweep at
    6500, then that of the first sweep at 7000.  Both sweeps then wait for
    the second target of bob. *)
Definition secondAnswered : EventLoop.Loop :=
  default twoTicks (EventLoop.settle 1 ok (EventLoop.advance 500 twoTicks)).

Definition lateAnswers : EventLoop.Loop :=
  default secondAnswered
    (EventLoop.settle 0 ok (EventLoop.advance 500 secondAnswered)).

End Sample.

(** * Properties *)

(** ** Shared facts *)

Lemma findUserById_Some us uid u :
  findUserById us uid = Some u → u ∈ us ∧ id u = uid.
Proof.
  unfold findUserById. intros H. apply find_some in H as [Hin Hid].
  split; [by apply list_elem_of_In | by apply bool_decide_eq_true in Hid].
Qed.

Lemma findUserById_None us uid :
  findUserById us uid = None ↔ ∀ u, u ∈ us → id u ≠ uid.
Proof.
  unfold findUserById. split.
  - intros H u Hu Heq. apply list_elem_of_In in Hu.
    pose proof (find_none _ _ H u Hu) as Hb. simpl in Hb.
    by apply bool_decide_eq_false in Hb.
  - intros H. destruct (List.find _ us) as [u|] eqn:E; [|done].
    apply find_some in E as [Hin Hid]. apply bool_decide_eq_true in Hid.
    apply list_elem_of_In in Hin. by destruct (H u Hin).
Qed.

Lemma findUserById_is_Some us uid :
  is_Some (findUserById us uid) ↔ ∃ u, u ∈ us ∧ id u = uid.
Proof.
  split.
  - intros [u Hu]. exists u. by apply findUserById_Some.
  - intros (u & Hu & Hid). destruct (findUserById us uid) eqn:E; [eauto|].
    by destruct (proj1 (findUserById_None us uid) E u Hu).
Qed.

Lemma filter_all {A} (P : A → Prop) `{!∀ x, Decision (P x)} (l : list A) :
  (∀ x, x ∈ l → P x) → filter P l = l.
Proof.
  induction l as [|x l IH]; intros Hall; [done|].
  rewrite filter_cons_True by (apply Hall; left).
  f_equal. apply IH. intros y Hy. apply Hall. by right.
Qed.

Lemma filter_same_length {A} (P : A → Prop) `{!∀ x, Decision (P x)}
    (l : list A) :
  length (filter P l) = length l → ∀ x, x ∈ l → P x.
Proof.
  intros Hlen x Hx. destruct (decide (P x)) as [|Hn]; [done|].
  pose proof (length_filter_lt P l x Hx Hn). lia.
Qed.

(** ** Account reaper *)

Section ReaperFacts.
Import Reaper.

(** An account is kept exactly when it has a valid last login strictly
    later than the cutoff; a missing last login counts as the epoch. *)
Lemma keepUser_iff now user :
  keepUser (twoDaysAgo now) user = true ↔
  ∃ ms, default (TimeValue 0) (lastLogin user) = TimeValue ms ∧
        now - retentionWindow < ms.
Proof.
  unfold keepUser, twoDaysAgo, date_gt.
  destruct (lastLogin user) as [[ms|]|]; simpl.
  - rewrite bool_decide_eq_true. split; [eauto|]. by intros (? & [= <-] & ?).
  - split; [done|]. by intros (? & ? & ?).
  - rewrite bool_decide_eq_true. split; [eauto|]. by intros (? & [= <-] & ?).
Qed.

Lemma cleanup_users now s :
  users (cleanupInactiveAccounts now s).1 =
  filter (λ user, keepUser (twoDaysAgo now) user) (users s).
Proof. unfold cleanupInactiveAccounts. by case_bool_decide. Qed.

Lemma removed_iff now s user :
  removed now s user ↔
  user ∈ users s ∧ keepUser (twoDaysAgo now) user = false.
Proof.
  unfold removed. rewrite cleanup_users, list_elem_of_filter.
  destruct (keepUser (twoDaysAgo now) user) eqn:E; simpl.
  - split; [intros [Hin Hn]; destruct Hn; by split | by intros [_ ?]].
  - split; [by intros [? _] | intros [Hin _]; split; [done | by intros [? _]]].
Qed.

Lemma pruneSession_lookup us m sessionId k :
  pruneSession us m sessionId !! k =
  if decide (sessionId = k) then
    session ← m !! k;
    _ ← findUserById us (userId session); Some session
  else m !! k.
Proof.
  unfold pruneSession. destruct (decide (sessionId = k)) as [Hk|Hk].
  - subst k. destruct (m !! sessionId) as [session|] eqn:E; simpl; [|by rewrite E].
    destruct (findUserById us (userId session)); simpl; [done|].
    by rewrite lookup_delete_eq.
  - destruct (m !! sessionId) as [session|]; [|done].
    destruct (findUserById us (userId session)); [done|].
    by rewrite lookup_delete_ne.
Qed.

Lemma foldl_pruneSession_lookup us ks m k :
  foldl (pruneSession us) m ks !! k =
  if decide (k ∈ ks) then
    session ← m !! k;
    _ ← findUserById us (userId session); Some session
  else m !! k.
Proof.
  revert m. induction ks as [|a ks IH]; intros m; simpl.
  - destruct (decide (k ∈ [])) as [Hn|_]; [by apply elem_of_nil in Hn | done].
  - rewrite IH, !pruneSession_lookup.
    destruct (decide (a = k)) as [->|Hne].
    + destruct (decide (k ∈ k :: ks)) as [_|Hn]; [|destruct Hn; constructor].
      case_decide; [|done].
      destruct (m !! k) as [session|]; simpl; [|done].
      destruct (findUserById us (userId session)) eqn:E; simpl; [|done].
      by rewrite E.
    + destruct (decide (k ∈ ks)) as [Hin|Hnin].
      * destruct (decide (k ∈ a :: ks)) as [_|Hn]; [done|].
        destruct Hn. by constructor.
      * destruct (decide (k ∈ a :: ks)) as [Hn|_]; [|done].
        apply elem_of_cons in Hn as [?|?]; by simplify_eq.
Qed.

(** The scan keeps exactly the sessions whose account is found. *)
Lemma pruneSessions_lookup us m k :
  pruneSessions us m !! k =
  session ← m !! k; _ ← findUserById us (userId session); Some session.
Proof.
  unfold pruneSessions. rewrite foldl_pruneSession_lookup.
  destruct (decide (k ∈ elements (dom m))) as [_|Hn]; [done|].
  rewrite elem_of_elements, elem_of_dom in Hn.
  destruct (m !! k) eqn:E; [|done]. destruct Hn. eauto.
Qed.

Lemma cleanup_idle now s :
  (∀ user, ¬ removed now s user) → cleanupInactiveAccounts now s = (s, []).
Proof.
  intros Hnone.
  assert (filter (λ user, keepUser (twoDaysAgo now) user) (users s) = users s)
    as Hf.
  { apply filter_all. intros u Hu.
    destruct (keepUser (twoDaysAgo now) u) eqn:E; [done|].
    destruct (Hnone u). apply removed_iff. done. }
  unfold cleanupInactiveAccounts. rewrite Hf.
  rewrite bool_decide_eq_false_2 by lia. by destruct s.
Qed.

Lemma cleanup_busy now s user :
  removed now s user →
  cleanupInactiveAccounts now s =
  (let users' := filter (λ user, keepUser (twoDaysAgo now) user) (users s) in
   ({| users := users'; sessions := pruneSessions users' (sessions s) |},
    [ConsoleLog (LogDeleted now (length (users s) - length users'));
     SaveUsers users'])).
Proof.
  intros [Hin Hk]%removed_iff. unfold cleanupInactiveAccounts.
  rewrite bool_decide_eq_true_2; [done|].
  assert (length (filter (λ user, keepUser (twoDaysAgo now) user) (users s))
          < length (users s))%nat; [|lia].
  apply (length_filter_lt _ _ user); [done|]. simpl. rewrite Hk. by intros [].
Qed.

End ReaperFacts.

Section ReaperClaims.
Import Reaper.

(** The tick keeps an account whose last login is later than the cutoff,
    by however little. *)
Lemma reaper_keeps_newer now s user ms :
  user ∈ users s →
  lastLogin user = Some (TimeValue ms) →
  now - retentionWindow < ms →
  user ∈ users (cleanupInactiveAccounts now s).1.
Proof.
  intros Hin Hl Hlt. rewrite cleanup_users, list_elem_of_filter.
  split; [|done]. apply Is_true_true, keepUser_iff.
  exists ms. by rewrite Hl.
Qed.

(** The tick removes an account whose last login is the cutoff or older. *)
Lemma reaper_removes_at_or_before now s user ms :
  user ∈ users s →
  lastLogin user = Some (TimeValue ms) →
  ms ≤ now - retentionWindow →
  removed now s user.
Proof.
  intros Hin Hl Hle. apply removed_iff. split; [done|].
  apply not_true_is_false. intros (ms' & Heq & Hlt)%keepUser_iff.
  rewrite Hl in Heq. simpl in Heq. simplify_eq. lia.
Qed.

(** An account without a last login is removed once the clock is two days
    past the epoch. *)
Lemma reaper_removes_never_authenticated now s user :
  user ∈ users s →
  lastLogin user = None →
  retentionWindow ≤ now →
  removed now s user.
Proof.
  intros Hin Hl Hle. apply removed_iff. split; [done|].
  apply not_true_is_false. intros (ms' & Heq & Hlt)%keepUser_iff.
  rewrite Hl in Heq. simpl in Heq. simplify_eq. lia.
Qed.

(** C1 (the code departs from the claim at the boundary): an account whose
    last login is exactly [now - retentionWindow] is removed by the tick,
    whatever else the store holds; the claim keeps such an account. *)
Theorem reaper_removes_account_at_cutoff
    now uid uname pw ts (others : list User) (m : gmap string Session) :
  let user :=
    {| id := uid; username := uname; password := pw; pingTargets := ts;
       lastLogin := Some (TimeValue (now - retentionWindow)) |} in
  removed now {| users := user :: others; sessions := m |} user.
Proof.
  intros user. apply (reaper_removes_at_or_before _ _ _ (now - retentionWindow)).
  - simpl. constructor.
  - done.
  - lia.
Qed.

(** C8: a tick that removes no account (the count of accounts is the same
    after it) leaves the whole state as it was and has no effect: no line
    is logged, nothing is saved, the sessions are the same map. *)
Theorem reaper_idle_tick_is_silent now s :
  length (users (cleanupInactiveAccounts now s).1) = length (users s) →
  cleanupInactiveAccounts now s = (s, []).
Proof.
  intros Hlen. apply cleanup_idle. intros user [Hin Hout].
  apply Hout. rewrite cleanup_users in Hlen |- *.
  apply list_elem_of_filter. split; [|done].
  by apply (filter_same_length _ _ Hlen).
Qed.

End ReaperClaims.

Lemma ids_unique_inj (us : list User) u v :
  NoDup (id <$> us) → u ∈ us → v ∈ us → id u = id v → u = v.
Proof.
  intros Hnd [i Hi]%list_elem_of_lookup [j Hj]%list_elem_of_lookup Heq.
  assert (i = j) as ->.
  { apply (NoDup_lookup (id <$> us) i j (id u)); [done|..].
    - by rewrite list_lookup_fmap, Hi.
    - by rewrite list_lookup_fmap, Hj, Heq. }
  congruence.
Qed.

Lemma sessions_resolve_pruned us m :
  sessions_resolve {| users := us; sessions := Reaper.pruneSessions us m |}.
Proof.
  intros k session Hk. simpl in *.
  rewrite pruneSessions_lookup in Hk.
  destruct (m !! k) as [session'|]; simpl in Hk; [|done].
  destruct (findUserById us (userId session')) eqn:E; simpl in Hk; [|done].
  simplify_eq. by rewrite E.
Qed.

Section ReaperSessions.
Import Reaper.

(** A tick that removes something leaves only sessions that resolve,
    whatever the store held before. *)
Lemma reaper_busy_tick_resolves now s user :
  removed now s user → sessions_resolve (cleanupInactiveAccounts now s).1.
Proof.
  intros Hrem. rewrite (cleanup_busy _ _ _ Hrem). simpl.
  apply sessions_resolve_pruned.
Qed.

(** A tick keeps the sessions resolving. *)
Lemma reaper_keeps_sessions_resolve now s :
  sessions_resolve s → sessions_resolve (cleanupInactiveAccounts now s).1.
Proof.
  intros Hres.
  destruct (decide (length (users (cleanupInactiveAccounts now s).1)
                    = length (users s))) as [Hlen|Hlen].
  - rewrite cleanup_idle; [done|].
    intros user [Hin Hout]. apply Hout.
    rewrite cleanup_users in Hlen |- *.
    apply list_elem_of_filter. split; [|done].
    by apply (filter_same_length _ _ Hlen).
  - unfold cleanupInactiveAccounts in *.
    destruct (bool_decide _) eqn:E; simpl in *.
    + apply sessions_resolve_pruned.
    + apply bool_decide_eq_false in E.
      pose proof (length_filter (λ user, keepUser (twoDaysAgo now) user)
                    (users s)).
      lia.
Qed.

(** A session of an account that the tick removes is deleted by the tick,
    when no other account carries the identifier. *)
Lemma reaper_drops_sessions_of_removed now s X sessionId session :
  ids_unique s →
  removed now s X →
  sessions s !! sessionId = Some session →
  userId session = id X →
  sessions (cleanupInactiveAccounts now s).1 !! sessionId = None.
Proof.
  intros Hids Hrem Hk HX.
  rewrite (cleanup_busy _ _ _ Hrem). simpl.
  rewrite pruneSessions_lookup, Hk. simpl.
  destruct (findUserById _ (userId session)) as [u|] eqn:E; [|done].
  apply findUserById_Some in E as [Hu Hid].
  destruct Hrem as [HXin HXout]. rewrite cleanup_users in HXout.
  assert (u = X) as ->; [|done].
  apply (ids_unique_inj (users s)); [done| |done|congruence].
  apply list_elem_of_filter in Hu. tauto.
Qed.

End ReaperSessions.

Section ReaperWitnesses.
Import Reaper.

Lemma reaper_idle_tick_is_silent_witness :
  let s := {| users := [ {| id := "u1"; username := "alice"; password := "h";
                            pingTargets := [];
                            lastLogin := Some (TimeValue 200000000) |} ];
              sessions := {[ "tok" := {| userId := "u1"; expires := 250000000 |} ]} |} in
  cleanupInactiveAccounts 200000001 s = (s, []).
Proof.
  intros s. apply (reaper_idle_tick_is_silent 200000001 s). reflexivity.
Defined.

End ReaperWitnesses.

(** ** Session store *)

Section SessionFacts.
Import SessionStore.

Lemma dropSession_absent sessionId s :
  sessions s !! sessionId = None → dropSession sessionId s = s.
Proof.
  intros H. unfold dropSession. rewrite delete_id by done. by destruct s.
Qed.

Lemma isValidSession_absent now sessionId s :
  sessions s !! sessionId = None →
  isValidSession now sessionId s = (None, s).
Proof.
  intros H. unfold isValidSession. rewrite H.
  by rewrite dropSession_absent.
Qed.

Lemma isValidSession_expired now sessionId s session :
  sessions s !! sessionId = Some session →
  expires session < now →
  isValidSession now sessionId s = (None, dropSession sessionId s).
Proof.
  intros H Hlt. unfold isValidSession. rewrite H.
  by rewrite bool_decide_eq_true_2.
Qed.

Lemma isValidSession_live now sessionId s session :
  sessions s !! sessionId = Some session →
  now ≤ expires session →
  isValidSession now sessionId s =
  (findUserById (users s) (userId session), s).
Proof.
  intros H Hle. unfold isValidSession. rewrite H.
  rewrite bool_decide_eq_false_2; [done | lia].
Qed.

(** C2 (amended): [isValidSession] answers none for an absent token and
    leaves the store as it is; for a token whose expiry is strictly before
    now it deletes the entry and answers none, and every later call on the
    same token answers none as well; for a token whose expiry is now or
    later it keeps the store and answers the account that carries the
    identifier of the session, none when no account does. *)
Theorem isValidSession_cases now sessionId s :
  (sessions s !! sessionId = None →
   isValidSession now sessionId s = (None, s)) ∧
  (∀ session,
     sessions s !! sessionId = Some session →
     expires session < now →
     ∃ s', isValidSession now sessionId s = (None, s') ∧
           users s' = users s ∧
           sessions s' = delete sessionId (sessions s) ∧
           sessions s' !! sessionId = None ∧
           ∀ now', isValidSession now' sessionId s' = (None, s')) ∧
  (∀ session,
     sessions s !! sessionId = Some session →
     now ≤ expires session →
     isValidSession now sessionId s =
     (findUserById (users s) (userId session), s)).
Proof.
  split; [apply isValidSession_absent|]. split.
  - intros session H Hlt. exists (dropSession sessionId s).
    split; [by eapply isValidSession_expired|].
    split; [done|]. split; [done|].
    assert (sessions (dropSession sessionId s) !! sessionId = None) as Hgone
      by apply lookup_delete_eq.
    split; [done|]. intros now'. by apply isValidSession_absent.
  - intros session. apply isValidSession_live.
Qed.

End SessionFacts.

Section SessionExamples.
Import SessionStore.

(** C2 (as stated, refuted): at instant 10000 the session [tokA], whose
    expiry is exactly 10000, is still honoured and stays in the store; and
    the unexpired session [tokB], whose account is not in the store, gets
    none. *)
Lemma isValidSession_honours_session_expiring_now :
  isValidSession 10000 "tokA" Sample.store = (Some Sample.alice, Sample.store) ∧
  isValidSession 10000 "tokB" Sample.store = (None, Sample.store).
Proof.
  split.
  - by rewrite (isValidSession_live _ _ _ {| userId := "u1"; expires := 10000 |}).
  - by rewrite (isValidSession_live _ _ _ {| userId := "gone"; expires := 99999 |}).
Qed.

Lemma isValidSession_cases_witness :
  isValidSession 10000 "nope" Sample.store = (None, Sample.store) ∧
  (∃ s', isValidSession 10001 "tokA" Sample.store = (None, s') ∧
         sessions s' !! "tokA" = None ∧
         ∀ now', isValidSession now' "tokA" s' = (None, s')) ∧
  isValidSession 10000 "tokA" Sample.store = (Some Sample.alice, Sample.store).
Proof.
  split; [|split].
  - apply (isValidSession_cases 10000 "nope" Sample.store). reflexivity.
  - destruct (isValidSession_cases 10001 "tokA" Sample.store) as (_ & Hexp & _).
    destruct (Hexp {| userId := "u1"; expires := 10000 |})
      as (s' & Hcall & _ & _ & Hgone & Hlater); [reflexivity | simpl; lia |].
    exists s'. split; [exact Hcall|]. split; [exact Hgone | exact Hlater].
  - destruct (isValidSession_cases 10000 "tokA" Sample.store) as (_ & _ & Hlive).
    apply (Hlive {| userId := "u1"; expires := 10000 |}); [reflexivity | simpl; lia].
Defined.

End SessionExamples.

(** ** Target list: the add and remove handlers *)

Section TargetFacts.
Import Handlers.

Lemma truthy_Some o u : truthy o = Some u ↔ o = Some u ∧ u ≠ ""%string.
Proof.
  destruct o as [[|c r]|]; simpl.
  - split; [done | by intros [[= <-] ?]].
  - split; [by intros [= <-] | by intros [[= <-] _]].
  - split; [done | by intros [? _]].
Qed.

Lemma acceptedUrl_nonempty u : acceptedUrl u = true → u ≠ ""%string.
Proof. by intros H ->. Qed.

Lemma truthy_accepted u : acceptedUrl u = true → truthy (Some u) = Some u.
Proof. intros H. apply truthy_Some. split; [done | by apply acceptedUrl_nonempty]. Qed.

Lemma find_url_None u (ts : list PingTarget) :
  List.find (λ target, bool_decide (url target = u)) ts = None ↔
  u ∉ url <$> ts.
Proof.
  induction ts as [|t ts IH]; simpl.
  - split; [intros _; apply not_elem_of_nil | done].
  - rewrite not_elem_of_cons. case_bool_decide as E.
    + split; [done | intros [Hne _]; by destruct Hne].
    + rewrite IH. split; [by intros ?; split | by intros [_ ?]].
Qed.

Lemma find_url_Some u (ts : list PingTarget) :
  is_Some (List.find (λ target, bool_decide (url target = u)) ts) ↔
  u ∈ url <$> ts.
Proof.
  destruct (List.find _ ts) as [t|] eqn:E.
  - split; [intros _ | by eauto].
    destruct (decide (u ∈ url <$> ts)) as [|Hn]; [done|].
    apply find_url_None in Hn. congruence.
  - split; [by intros [? ?] | intros Hin]. by apply find_url_None in E.
Qed.

Lemma addToTargets_new u ts :
  u ∉ url <$> ts → addToTargets u ts = Some (ts ++ [newTarget u]).
Proof. intros H. unfold addToTargets. by rewrite (proj2 (find_url_None u ts) H). Qed.

Lemma addToTargets_known u ts :
  u ∈ url <$> ts → addToTargets u ts = None.
Proof.
  intros H. unfold addToTargets.
  by destruct (proj2 (find_url_Some u ts) H) as [t ->].
Qed.

(** What the add handler does to the store, case by case. *)
Lemma addUrl_pushes i u s user :
  users s !! i = Some user →
  acceptedUrl u = true →
  u ∉ url <$> pingTargets user →
  addUrl i (Some u) s =
  (let users' :=
     <[i := setTargets (pingTargets user ++ [newTarget u]) user]> (users s) in
   ({| users := users'; sessions := sessions s |},
    [SaveUsers users'], Redirect None)).
Proof.
  intros Hi Hacc Hnew. unfold addUrl.
  by rewrite Hi, truthy_accepted, Hacc, addToTargets_new.
Qed.

Lemma addUrl_known i u s user :
  users s !! i = Some user →
  u ∈ url <$> pingTargets user →
  addUrl i (Some u) s = (s, [], Redirect None).
Proof.
  intros Hi Hin. unfold addUrl. rewrite Hi.
  destruct (truthy (Some u)) as [u'|] eqn:E; [|done].
  apply truthy_Some in E as [[= <-] _].
  destruct (acceptedUrl u); [|done]. by rewrite addToTargets_known.
Qed.

Lemma addUrl_rejected i u s :
  acceptedUrl u = false → addUrl i (Some u) s = (s, [], Redirect None).
Proof.
  intros Hrej. unfold addUrl. destruct (users s !! i); [|done].
  destruct (truthy (Some u)) as [u'|] eqn:E; [|done].
  apply truthy_Some in E as [[= <-] _]. by rewrite Hrej.
Qed.

Lemma addUrl_null i s : addUrl i None s = (s, [], Redirect None).
Proof. unfold addUrl. by destruct (users s !! i). Qed.

Lemma addUrl_no_user i o s :
  users s !! i = None → addUrl i o s = (s, [], Redirect None).
Proof. intros Hi. unfold addUrl. by rewrite Hi. Qed.

Lemma targetsOf_insert i s user ts :
  users s !! i = Some user →
  targetsOf {| users := <[i := setTargets ts user]> (users s);
               sessions := sessions s |} i = ts.
Proof.
  intros Hi. unfold targetsOf. simpl.
  rewrite list_lookup_insert_eq; [done|]. by eapply lookup_lt_Some.
Qed.

Lemma targetsOf_Some i s user :
  users s !! i = Some user → targetsOf s i = pingTargets user.
Proof. intros Hi. unfold targetsOf. by rewrite Hi. Qed.

(** The add handler keeps the URLs of an account distinct. *)
Lemma addUrl_keeps_urls_distinct i o s :
  NoDup (url <$> targetsOf s i) →
  NoDup (url <$> targetsOf (addUrl i o s).1.1 i).
Proof.
  intros Hnd. destruct (users s !! i) as [user|] eqn:Hi;
    [|by rewrite addUrl_no_user].
  destruct o as [u|]; [|by rewrite addUrl_null].
  destruct (acceptedUrl u) eqn:Hacc; [|by rewrite addUrl_rejected].
  destruct (decide (u ∈ url <$> pingTargets user)) as [Hin|Hnew].
  - by rewrite (addUrl_known _ _ _ _ Hi Hin).
  - rewrite (addUrl_pushes _ _ _ _ Hi Hacc Hnew). simpl.
    rewrite (targetsOf_insert _ _ _ _ Hi), fmap_app. simpl.
    rewrite (targetsOf_Some _ _ _ Hi) in Hnd.
    apply NoDup_app. split; [done|]. split; [|apply NoDup_singleton].
    intros x Hx ->%list_elem_of_singleton. done.
Qed.

(** A second add of the same string is a no-op. *)
Lemma addUrl_twice i o s :
  addUrl i o (addUrl i o s).1.1 = ((addUrl i o s).1.1, [], Redirect None).
Proof.
  destruct (users s !! i) as [user|] eqn:Hi;
    [|by rewrite (addUrl_no_user _ _ s), addUrl_no_user].
  destruct o as [u|]; [|by rewrite !addUrl_null].
  destruct (acceptedUrl u) eqn:Hacc; [|by rewrite !addUrl_rejected].
  destruct (decide (u ∈ url <$> pingTargets user)) as [Hin|Hnew].
  - rewrite (addUrl_known _ _ _ _ Hi Hin). simpl.
    by rewrite (addUrl_known _ _ _ _ Hi Hin).
  - rewrite (addUrl_pushes _ _ _ _ Hi Hacc Hnew). simpl.
    apply (addUrl_known _ _ _
             (setTargets (pingTargets user ++ [newTarget u]) user)).
    + simpl. apply list_lookup_insert_eq. by eapply lookup_lt_Some.
    + simpl. rewrite fmap_app. apply elem_of_app. right. simpl. constructor.
Qed.

(** The number of targets of a list that carry a given URL. *)
Lemma count_url_distinct u (ts : list PingTarget) :
  NoDup (url <$> ts) → u ∈ url <$> ts →
  length (filter (λ t, url t = u) ts) = 1%nat.
Proof.
  induction ts as [|t ts IH]; simpl; intros Hnd Hin.
  - by apply elem_of_nil in Hin.
  - apply NoDup_cons in Hnd as [Hnotin Hnd].
    destruct (decide (url t = u)) as [Heq|Hne].
    + rewrite filter_cons_True by done. simpl. f_equal.
      rewrite Heq in Hnotin. clear -Hnotin.
      induction ts as [|t' ts IH]; [done|].
      simpl in Hnotin. apply not_elem_of_cons in Hnotin as [Hne Hnotin].
      rewrite filter_cons_False by done. by apply IH.
    + rewrite filter_cons_False by done. apply IH; [done|].
      apply elem_of_cons in Hin as [?|?]; [congruence | done].
Qed.

End TargetFacts.

Section TargetClaims.
Import Handlers.

(** C6: for an accepted URL and an account whose URLs are distinct, adding
    the URL a second time changes nothing and saves nothing, the account
    then has exactly one target with that URL (compared as strings,
    character by character), and its URLs are still distinct. *)
Theorem addUrl_idempotent i u s :
  (i < length (users s))%nat →
  acceptedUrl u = true →
  NoDup (url <$> targetsOf s i) →
  let s1 := (addUrl i (Some u) s).1.1 in
  addUrl i (Some u) s1 = (s1, [], Redirect None) ∧
  length (filter (λ t, url t = u) (targetsOf s1 i)) = 1%nat ∧
  NoDup (url <$> targetsOf s1 i).
Proof.
  intros Hi Hacc Hnd s1. split; [apply addUrl_twice|].
  split; [|by apply addUrl_keeps_urls_distinct].
  apply count_url_distinct; [by apply addUrl_keeps_urls_distinct|].
  subst s1. apply lookup_lt_is_Some in Hi as [user Hi].
  destruct (decide (u ∈ url <$> pingTargets user)) as [Hin|Hnew].
  - rewrite (addUrl_known _ _ _ _ Hi Hin). simpl.
    by rewrite (targetsOf_Some _ _ _ Hi).
  - rewrite (addUrl_pushes _ _ _ _ Hi Hacc Hnew). simpl.
    rewrite (targetsOf_insert _ _ _ _ Hi), fmap_app.
    apply elem_of_app. right. simpl. constructor.
Qed.

(** C7 (amended): for a string that starts with neither [http://] nor
    [https://] the add handler creates no target: the whole store is as
    before, nothing is saved, and the answer is the same redirect as after
    an accepted URL. *)
Theorem addUrl_ignores_other_schemes i u s :
  startsWith u "http://" = false →
  startsWith u "https://" = false →
  addUrl i (Some u) s = (s, [], Redirect None).
Proof.
  intros H1 H2. apply addUrl_rejected. unfold acceptedUrl.
  by rewrite H1, H2.
Qed.

End TargetClaims.

Section TargetExamples.
Import Handlers.

Lemma addUrl_idempotent_witness :
  let s1 := (addUrl 0 (Some "https://example.com"%string) Sample.store).1.1 in
  addUrl 0 (Some "https://example.com"%string) s1 = (s1, [], Redirect None) ∧
  length (filter (λ t, url t = "https://example.com"%string) (targetsOf s1 0))
    = 1%nat ∧
  NoDup (url <$> targetsOf s1 0).
Proof.
  apply (addUrl_idempotent 0 "https://example.com" Sample.store).
  - simpl. lia.
  - reflexivity.
  - apply (bool_decide_unpack _). vm_compute. exact I.
Defined.

(** C7 (as stated, refuted): the add handler has no result for a bad URL;
    [ftp://bad] gets the very answer that an accepted URL gets. *)
Lemma addUrl_answers_bad_url_like_good_url :
  (addUrl 0 (Some "ftp://bad"%string) Sample.store).2 = Redirect None ∧
  (addUrl 0 (Some "https://example.com"%string) Sample.store).2
  = (addUrl 0 (Some "ftp://bad"%string) Sample.store).2.
Proof. split; reflexivity. Qed.

Lemma addUrl_ignores_other_schemes_witness :
  addUrl 0 (Some "ftp://bad"%string) Sample.store
  = (Sample.store, [], Redirect None).
Proof.
  apply (addUrl_ignores_other_schemes 0 "ftp://bad" Sample.store);
    reflexivity.
Defined.

End TargetExamples.

Section RemoveFacts.
Import Handlers.

Lemma removeUrl_nonempty i u s user :
  users s !! i = Some user →
  u ≠ ""%string →
  removeUrl i (Some u) s =
  (let users' :=
     <[i := setTargets (removeFromTargets u (pingTargets user)) user]>
       (users s) in
   ({| users := users'; sessions := sessions s |},
    [SaveUsers users'], Redirect None)).
Proof.
  intros Hi Hne. unfold removeUrl. rewrite Hi.
  by rewrite (proj2 (truthy_Some (Some u) u)).
Qed.

Lemma removeUrl_empty i s : removeUrl i (Some ""%string) s = (s, [], Redirect None).
Proof. unfold removeUrl. by destruct (users s !! i). Qed.

Lemma removeFromTargets_absent u (ts : list PingTarget) :
  u ∉ url <$> ts → removeFromTargets u ts = ts.
Proof.
  intros Hn. apply filter_all. intros t Ht Heq.
  apply Hn, list_elem_of_fmap. eauto.
Qed.

(** The target list of the current account after POST /remove, when no
    target of the account has the empty URL. *)
Lemma removeUrl_targets i u s user :
  users s !! i = Some user →
  Forall (λ t, url t ≠ ""%string) (pingTargets user) →
  targetsOf (removeUrl i (Some u) s).1.1 i =
  removeFromTargets u (pingTargets user).
Proof.
  intros Hi Hall. destruct (decide (u = ""%string)) as [->|Hne].
  - rewrite removeUrl_empty. simpl. rewrite (targetsOf_Some _ _ _ Hi).
    symmetry. apply filter_all. intros t Ht.
    by apply (proj1 (Forall_forall _ _) Hall).
  - rewrite (removeUrl_nonempty _ _ _ _ Hi Hne). simpl.
    by rewrite (targetsOf_insert _ _ _ _ Hi).
Qed.

(** C10: on an account none of whose targets has the empty URL (the add
    handler never stores one), POST /remove with a string [u] answers with
    the usual redirect and leaves as target list of the account the targets
    whose URL differs from [u], each as it was and in the order they had:
    every target with URL [u] is gone, and when there is none the list is
    unchanged.  The other accounts and the sessions are untouched. *)
Theorem removeUrl_removes_matching i u s user :
  users s !! i = Some user →
  Forall (λ t, url t ≠ ""%string) (pingTargets user) →
  let s' := (removeUrl i (Some u) s).1.1 in
  (removeUrl i (Some u) s).2 = Redirect None ∧
  targetsOf s' i = filter (λ t, url t ≠ u) (pingTargets user) ∧
  (∀ t, t ∈ targetsOf s' i ↔ t ∈ pingTargets user ∧ url t ≠ u) ∧
  sublist (targetsOf s' i) (pingTargets user) ∧
  (u ∉ url <$> pingTargets user → targetsOf s' i = pingTargets user) ∧
  (∀ j, j ≠ i → users s' !! j = users s !! j) ∧
  sessions s' = sessions s.
Proof.
  intros Hi Hall s'.
  assert (targetsOf s' i = removeFromTargets u (pingTargets user)) as Hts
    by by apply removeUrl_targets.
  split.
  { unfold removeUrl. rewrite Hi. by destruct (truthy (Some u)). }
  split; [done|]. rewrite Hts. unfold removeFromTargets at 1 2.
  split; [intros t; rewrite list_elem_of_filter; tauto|].
  split; [apply sublist_filter|].
  split; [apply removeFromTargets_absent|].
  subst s'. destruct (decide (u = ""%string)) as [->|Hne].
  - by rewrite removeUrl_empty.
  - rewrite (removeUrl_nonempty _ _ _ _ Hi Hne). simpl. split; [|done].
    intros j Hj. by rewrite list_lookup_insert_ne.
Qed.

Lemma removeUrl_removes_matching_witness :
  let s' := (removeUrl 1 (Some "https://a.example"%string) Sample.watching).1.1 in
  targetsOf s' 1 = [newTarget "http://b.example"] ∧
  targetsOf s' 0 = [].
Proof.
  intros s'.
  destruct (removeUrl_removes_matching 1 "https://a.example" Sample.watching
              Sample.bob) as (_ & Hts & _).
  - reflexivity.
  - apply (bool_decide_unpack _). vm_compute. exact I.
  - split; [exact Hts | reflexivity].
Defined.

End RemoveFacts.

(** ** Prober and sweep *)

Section ProberFacts.
Import Prober.

Lemma pretty_N_char_not_E d : pretty_N_char d ≠ "E"%char.
Proof.
  unfold pretty_N_char.
  repeat match goal with
         | |- context [match ?p with _ => _ end] => destruct p
         end; discriminate.
Qed.

Lemma pretty_N_go_head x s :
  (0 < x)%N → ∃ d rest, pretty_N_go x s = String (pretty_N_char d) rest.
Proof.
  revert s. induction (N.lt_wf_0 x) as [x _ IH]; intros s Hx.
  rewrite pretty_N_go_step by done.
  destruct (decide (0 < x `div` 10)%N) as [Hq|Hq].
  - apply IH; [|done]. apply N.div_lt; lia.
  - apply N.nlt_ge, N.le_0_r in Hq. rewrite Hq, pretty_N_go_0. eauto.
Qed.

(** The decimal text of a natural number does not begin with [E]. *)
Lemma pretty_N_head (x : N) :
  ∃ d rest, pretty x = String (pretty_N_char d) rest.
Proof.
  unfold pretty, pretty_N. case_decide as Hx.
  - by exists 0%N, ""%string.
  - apply pretty_N_go_head. lia.
Qed.

Lemma pingOutcome_fulfils startTime finish r :
  ∃ result, pingOutcome startTime finish r = Fulfilled result ∧
            responseTime result = finish - startTime.
Proof. destruct r; simpl; eauto. Qed.

Lemma marksFailure_response startTime finish response result :
  pingOutcome startTime finish (Fulfilled response) = Fulfilled result →
  marksFailure result = false.
Proof.
  intros [= <-]. unfold marksFailure, startsWith. simpl.
  destruct (pretty_N_head (statusCode response)) as (d & rest & ->).
  apply not_true_is_false. intros Hp%String.prefix_correct.
  simpl in Hp. injection Hp as Hd _. by destruct (pretty_N_char_not_E d).
Qed.

Lemma marksFailure_rejection startTime finish message result :
  pingOutcome startTime finish (Rejected message) = Fulfilled result →
  marksFailure result = true.
Proof.
  intros [= <-]. unfold marksFailure, startsWith. simpl.
  apply String.prefix_correct. simpl. by destruct message.
Qed.

Lemma outcomeText_nonempty result : outcomeText result ≠ ""%string.
Proof. unfold outcomeText. by destruct (result_status result). Qed.

End ProberFacts.

Section SweepFacts.
Import Prober Sweep.

Variable net : Network.

Lemma probedBetween_widen t0 t1 t0' t1' before after :
  t0' ≤ t0 → t1 ≤ t1' →
  probedBetween net t0 t1 before after →
  probedBetween net t0' t1' before after.
Proof.
  intros H0 H1 (n & c0 & Hlo & Hhi & Heq). exists n, c0. simpl in *.
  split; [lia|]. split; [lia | done].
Qed.

Lemma sweptBetween_widen t0 t1 t0' t1' before after :
  t0' ≤ t0 → t1 ≤ t1' →
  sweptBetween net t0 t1 before after →
  sweptBetween net t0' t1' before after.
Proof.
  intros H0 H1 [Heq Hall]. split; [done|].
  eapply Forall2_impl; [exact Hall|].
  intros ??. by apply probedBetween_widen.
Qed.

Lemma pingUrl_eq target_url w :
  pingUrl net target_url w =
  (let c1 := clock w + Z.of_N (net (fetches w) target_url).2 in
   (pingOutcome (clock w) c1 (net (fetches w) target_url).1,
    {| clock := c1; fetches := S (fetches w);
       trace := trace w ++ [Fetch target_url] |})).
Proof. unfold pingUrl. by destruct (net (fetches w) target_url). Qed.

(** The prober always hands back a result, never a rejection. *)
Lemma pingUrl_fulfils target_url w :
  ∃ result, (pingUrl net target_url w).1 = Fulfilled result ∧
            responseTime result = Z.of_N (net (fetches w) target_url).2.
Proof.
  rewrite pingUrl_eq. simpl.
  destruct (pingOutcome_fulfils (clock w)
              (clock w + Z.of_N (net (fetches w) target_url).2)
              (net (fetches w) target_url).1) as (result & -> & Ht).
  exists result. split; [done | lia].
Qed.

Lemma pingTarget_spec user_name target w :
  let target' := (pingTarget net user_name target w).1 in
  let w' := (pingTarget net user_name target w).2 in
  probedBetween net (clock w) (clock w') target target' ∧
  clock w ≤ clock w' ∧
  fetches w' = S (fetches w) ∧
  ∃ line, trace w' = trace w ++ [Fetch (url target); ConsoleLog line].
Proof.
  unfold pingTarget. rewrite pingUrl_eq. simpl.
  split; [|split; [lia|split; [done|]]].
  - exists (fetches w), (clock w). simpl. split; [lia|]. split; [lia | done].
  - eexists. by rewrite <- app_assoc.
Qed.

Lemma pingTargetsOf_spec user_name ts w :
  let ts' := (pingTargetsOf net user_name ts w).1 in
  let w' := (pingTargetsOf net user_name ts w).2 in
  Forall2 (probedBetween net (clock w) (clock w')) ts ts' ∧
  clock w ≤ clock w' ∧
  fetches w' = (fetches w + length ts)%nat ∧
  ∃ evs, trace w' = trace w ++ evs ∧
         fetchedUrls evs = url <$> ts ∧
         Forall (λ e, is_save e = false) evs.
Proof.
  revert w. induction ts as [|target rest IH]; intros w; simpl.
  - split; [constructor|]. split; [lia|]. split; [lia|].
    exists []. by rewrite app_nil_r.
  - pose proof (pingTarget_spec user_name target w) as Hone.
    destruct (pingTarget net user_name target w) as [target' w1].
    simpl in Hone. destruct Hone as (Hp & Hc & Hf & line & Ht).
    specialize (IH w1).
    destruct (pingTargetsOf net user_name rest w1) as [rest' w2].
    simpl in *. destruct IH as (Hall & Hc' & Hf' & evs & Ht' & Hu & Hs).
    split; [|split; [lia|split; [lia|]]].
    + constructor.
      * eapply probedBetween_widen; [| |exact Hp]; lia.
      * eapply Forall2_impl; [exact Hall|].
        intros ??. apply probedBetween_widen; lia.
    + exists ([Fetch (url target); ConsoleLog line] ++ evs).
      rewrite Ht', Ht, <- app_assoc. split; [done|].
      split; [simpl; by rewrite Hu|]. by repeat constructor.
Qed.

Lemma allTargets_cons user rest :
  allTargets (user :: rest) = pingTargets user ++ allTargets rest.
Proof. done. Qed.

Lemma pingUsers_spec us w :
  let us' := (pingUsers net us w).1 in
  let w' := (pingUsers net us w).2 in
  Forall2 (sweptBetween net (clock w) (clock w')) us us' ∧
  clock w ≤ clock w' ∧
  fetches w' = (fetches w + length (allTargets us))%nat ∧
  ∃ evs, trace w' = trace w ++ evs ∧
         fetchedUrls evs = url <$> allTargets us ∧
         Forall (λ e, is_save e = false) evs.
Proof.
  revert w. induction us as [|user rest IH]; intros w; simpl.
  - split; [constructor|]. split; [lia|]. split; [lia|].
    exists []. by rewrite app_nil_r.
  - pose proof (pingTargetsOf_spec (username user) (pingTargets user) w)
      as Hone.
    destruct (pingTargetsOf net (username user) (pingTargets user) w)
      as [ts w1].
    simpl in Hone. destruct Hone as (Hp & Hc & Hf & evs1 & Ht & Hu1 & Hs1).
    specialize (IH w1). destruct (pingUsers net rest w1) as [rest' w2].
    simpl in *. destruct IH as (Hall & Hc' & Hf' & evs & Ht' & Hu & Hs).
    rewrite allTargets_cons.
    split; [|split; [lia|split; [rewrite length_app; lia|]]].
    + constructor.
      * split; [done|]. simpl.
        eapply Forall2_impl; [exact Hp|].
        intros ??. apply probedBetween_widen; lia.
      * eapply Forall2_impl; [exact Hall|].
        intros ??. apply sweptBetween_widen; lia.
    + exists (evs1 ++ evs). rewrite Ht', Ht, <- app_assoc. split; [done|].
      split; [|by apply Forall_app].
      rewrite fmap_app, <- Hu1, <- Hu. apply omap_app.
Qed.

End SweepFacts.

Section SweepClaims.
Import Prober Sweep.

Variable net : Network.

Lemma formatted_outcomeText result : formatted (outcomeText result).
Proof. by exists (result_status result), (responseTime result). Qed.

Lemma probedBetween_written t0 t1 before after :
  probedBetween net t0 t1 before after →
  url after = url before ∧
  ∃ result at_,
    status after = Some (outcomeText result) ∧
    0 ≤ responseTime result ∧
    lastPing after = Some at_ ∧ t0 ≤ at_ ≤ t1.
Proof.
  intros (n & c0 & Hlo & Hhi & ->). simpl in *.
  destruct (pingOutcome_fulfils c0 (c0 + Z.of_N (net n (url before)).2)
              (net n (url before)).1) as (result & -> & Ht).
  simpl. split; [done|]. exists result, (c0 + Z.of_N (net n (url before)).2).
  split; [done|]. split; [lia|]. split; [done | lia].
Qed.

Lemma sweptBetween_allTargets t0 t1 us us' :
  Forall2 (sweptBetween net t0 t1) us us' →
  Forall2 (probedBetween net t0 t1) (allTargets us) (allTargets us').
Proof.
  induction 1 as [|u u' us us' [_ Hts] _ IH]; [constructor|].
  rewrite !allTargets_cons. by apply Forall2_app.
Qed.

(** A call of [pingAllUrls] run to its end: every target has its URL, a
    text of the shape [<status-or-error> (<elapsed>ms)] and an instant
    within the call; the accounts are otherwise as they were; the targets
    were fetched in the order of the two loops; the effects end with the
    one save of the store. *)
Lemma pingAllUrls_frame s w :
  let s' := (pingAllUrls net s w).1 in
  let w' := (pingAllUrls net s w).2 in
  Forall2
    (λ before after,
       url after = url before ∧
       ∃ text at_,
         status after = Some text ∧ text ≠ ""%string ∧ formatted text ∧
         lastPing after = Some at_ ∧ clock w ≤ at_ ≤ clock w')
    (allTargets (users s)) (allTargets (users s')) ∧
  Forall2
    (λ before after,
       after = Handlers.setTargets (pingTargets after) before ∧
       length (pingTargets after) = length (pingTargets before))
    (users s) (users s') ∧
  sessions s' = sessions s ∧
  ∃ evs,
    trace w' = trace w ++ [ConsoleLog (LogStartCycle (clock w))] ++ evs
                 ++ [SaveUsers (users s')] ∧
    fetchedUrls evs = url <$> allTargets (users s) ∧
    Forall (λ e, is_save e = false) evs.
Proof.
  unfold pingAllUrls.
  pose proof (pingUsers_spec net (users s)
                (emit (ConsoleLog (LogStartCycle (clock w))) w)) as Hspec.
  destruct (pingUsers net (users s) _) as [us' w1].
  simpl in *. destruct Hspec as (Hall & Hc & _ & evs & Ht & Hu & Hs).
  split; [|split; [|split; [done|]]].
  - eapply Forall2_impl; [by apply sweptBetween_allTargets|].
    intros before after (Hurl & result & at_ & Hst & _ & Hlp & Hat)
      %probedBetween_written.
    split; [done|]. exists (outcomeText result), at_.
    split; [done|]. split; [apply outcomeText_nonempty|].
    split; [apply formatted_outcomeText|]. done.
  - eapply Forall2_impl; [exact Hall|].
    intros before after [Heq Hts]. split; [done|].
    symmetry. by eapply Forall2_length.
  - exists evs. rewrite Ht, <- !app_assoc. done.
Qed.

(** C5: [pingUrl] always returns a result and never rejects: on a response
    the result carries the status line and the elapsed milliseconds and is
    not marked as a failure, on a rejected fetch it carries the message of
    the error behind [Error: ] and the elapsed milliseconds and is marked
    as a failure.  Whatever the network does, a call of [pingAllUrls]
    fetches all targets of all accounts, one fetch each, and leaves on
    each of them the text of a result of [pingUrl], never the text of a
    rejection. *)
Theorem pingUrl_contains_failures target_url w s :
  (∃ result,
     (pingUrl net target_url w).1 = Fulfilled result ∧
     responseTime result = Z.of_N (net (fetches w) target_url).2 ∧
     match (net (fetches w) target_url).1 with
     | Fulfilled response =>
         result_status result =
           pretty (statusCode response) +:+ " " +:+ statusText response ∧
         marksFailure result = false
     | Rejected message =>
         result_status result = "Error: " +:+ message ∧
         marksFailure result = true
     end) ∧
  fetches (pingAllUrls net s w).2
    = (fetches w + length (allTargets (users s)))%nat ∧
  fetchedUrls (trace (pingAllUrls net s w).2)
    = fetchedUrls (trace w) ++ (url <$> allTargets (users s)) ∧
  length (allTargets (users (pingAllUrls net s w).1))
    = length (allTargets (users s)) ∧
  Forall
    (λ after, ∃ result at_,
       status after = Some (outcomeText result) ∧ lastPing after = Some at_)
    (allTargets (users (pingAllUrls net s w).1)).
Proof.
  split.
  { destruct (pingUrl_fulfils net target_url w) as (result & Hres & Ht).
    exists result. split; [done|]. split; [done|].
    rewrite pingUrl_eq in Hres. simpl in Hres.
    destruct (net (fetches w) target_url).1 as [response|message] eqn:E.
    - split; [by injection Hres as <- | by eapply marksFailure_response].
    - split; [by injection Hres as <- | by eapply marksFailure_rejection]. }
  unfold pingAllUrls.
  pose proof (pingUsers_spec net (users s)
                (emit (ConsoleLog (LogStartCycle (clock w))) w)) as Hspec.
  destruct (pingUsers net (users s) _) as [us' w1].
  simpl in *. destruct Hspec as (Hall & Hc & Hf & evs & Ht & Hu & Hs).
  apply sweptBetween_allTargets in Hall.
  split; [done|]. split; [|split].
  - rewrite Ht. unfold fetchedUrls in *.
    rewrite !omap_app, Hu. simpl. by rewrite !app_nil_r.
  - symmetry. by eapply Forall2_length.
  - apply Forall_forall. intros after Hin.
    apply list_elem_of_lookup in Hin as [j Hj].
    destruct (Forall2_lookup_r _ _ _ _ _ Hall Hj) as (before & _ & Hp).
    apply probedBetween_written
      in Hp as (_ & result & at_ & Hst & _ & Hlp & _).
    eauto.
Qed.

End SweepClaims.

Section SweepExamples.
Import Prober Sweep.

(** The scenario of the specification: one target, a network that says
    [200 OK] after 42 ms. *)
Example sweep_records_200_OK :
  let alice := Handlers.setTargets
                 [Handlers.newTarget "https://example.com"] Sample.alice in
  let s := {| users := [alice]; sessions := ∅ |} in
  allTargets (users (pingAllUrls Sample.healthy s Sample.midnight).1)
  = [ {| url := "https://example.com"; lastPing := Some 1000042;
         status := Some "200 OK (42ms)"%string |} ].
Proof. vm_compute. reflexivity. Qed.

(** On a network that is down, both targets of bob are still fetched and
    written. *)
Example sweep_goes_on_after_failures :
  let r := pingAllUrls Sample.down Sample.watching Sample.midnight in
  allTargets (users r.1)
  = [ {| url := "https://a.example"; lastPing := Some 1010000;
         status := Some "Error: network timeout (10000ms)"%string |};
      {| url := "http://b.example"; lastPing := Some 1020000;
         status := Some "Error: network timeout (10000ms)"%string |} ] ∧
  fetchedUrls (trace r.2) = ["https://a.example"; "http://b.example"]%string.
Proof. vm_compute. split; reflexivity. Qed.

End SweepExamples.

(** ** Timer loop *)

Section LoopFacts.
Import Prober EventLoop.

Lemma resume_frame i j L :
  clock (resume i j L) = clock L ∧
  nextTick (resume i j L) = nextTick L ∧
  store (resume i j L) = store L ∧
  stamps (resume i j L) = stamps L.
Proof. unfold resume. by destruct (seek (store L) i j) as [[[??]?]|]. Qed.

Lemma resume_running i j L :
  running (resume i j L) =
  running L ++
  match seek (store L) i j with
  | Some (i', j', _) =>
      [{| atUser := i'; atTarget := j'; startTime := clock L |}]
  | None => []
  end.
Proof.
  unfold resume. destruct (seek (store L) i j) as [[[??]?]|]; simpl; [done|].
  by rewrite app_nil_r.
Qed.

Lemma fire_frame L :
  clock (fire L) = clock L ∧ store (fire L) = store L ∧
  stamps (fire L) = stamps L.
Proof.
  unfold fire. by destruct (resume_frame 0 0
    {| clock := clock L; nextTick := clock L + period; store := store L;
       running := running L;
       trace := trace L ++ [ConsoleLog (LogStartCycle (clock L))];
       stamps := stamps L |}) as (-> & _ & -> & ->).
Qed.

(** The timer adds a call to the calls that are running. *)
Lemma fire_running L :
  running (fire L) =
  running L ++
  match seek (store L) 0 0 with
  | Some (i', j', _) =>
      [{| atUser := i'; atTarget := j'; startTime := clock L |}]
  | None => []
  end.
Proof. unfold fire. by rewrite resume_running. Qed.

Lemma settle_stamps k r L L' :
  settle k r L = Some L' →
  clock L' = clock L ∧
  ∃ i j, stamps L' = stamps L ++ [(i, j, clock L)].
Proof.
  unfold settle. intros H.
  destruct (running L !! k) as [p|]; simpl in H; [|done].
  destruct (store L !! atUser p) as [user|]; simpl in H; [|done].
  destruct (pingTargets user !! atTarget p) as [target|]; simpl in H; [|done].
  injection H as <-.
  match goal with
  | |- context [resume ?i ?j ?M] =>
      destruct (resume_frame i j M) as (-> & _ & _ & ->)
  end.
  simpl. split; [done|]. exists (atUser p), (atTarget p).
  by destruct (pingOutcome_fulfils (startTime p) (clock L) r) as (? & -> & _).
Qed.

Lemma ascending_snoc (ts : list Z) (c : Z) :
  ascending ts = true → Forall (λ t, t ≤ c) ts → ascending (ts ++ [c]) = true.
Proof.
  induction ts as [|t ts IH]; [done|]. intros Hasc Hall.
  apply Forall_cons in Hall as [Ht Hall].
  destruct ts as [|t' ts]; simpl in *.
  - by rewrite bool_decide_eq_true_2.
  - apply andb_true_iff in Hasc as [-> Hasc]. simpl. by apply IH.
Qed.

Lemma stampsOf_snoc i j L L' i' j' t :
  stamps L' = stamps L ++ [(i', j', t)] →
  stampsOf i j L' =
  stampsOf i j L ++ (if bool_decide (i' = i ∧ j' = j) then [t] else []).
Proof.
  intros H. unfold stampsOf. rewrite H, omap_app. simpl.
  by destruct (bool_decide (i' = i ∧ j' = j)).
Qed.

Lemma step_keeps_order L L' :
  step L L' → stamps_in_order L → stamps_in_order L'.
Proof.
  intros Hstep Hinv i j. destruct (Hinv i j) as [Hasc Hle].
  destruct Hstep as [L d|L Hdue|L k r L' Hsettle].
  - split; [done|]. simpl. eapply Forall_impl; [exact Hle|].
    simpl. intros t Ht. lia.
  - destruct (fire_frame L) as (Hc & _ & Hs).
    unfold stampsOf. by rewrite Hs, Hc.
  - destruct (settle_stamps _ _ _ _ Hsettle) as (Hc & i' & j' & Hs).
    rewrite (stampsOf_snoc _ _ _ _ _ _ _ Hs), Hc.
    case_bool_decide.
    + split; [by apply ascending_snoc|].
      apply Forall_app. split; [done|]. by repeat constructor.
    + by rewrite app_nil_r.
Qed.

Lemma reachable_in_order t0 us L :
  reachable t0 us L → stamps_in_order L.
Proof.
  induction 1 as [|L L' _ IH Hstep].
  - intros i j. by split; [|constructor].
  - by eapply step_keeps_order.
Qed.

End LoopFacts.

Section LoopExamples.
Import Prober EventLoop.

Lemma twoTicks_reachable : reachable 0 (users Sample.watching) Sample.twoTicks.
Proof.
  unfold Sample.twoTicks.
  eapply reach_step; [|apply step_fire; vm_compute; discriminate].
  eapply reach_step; [|apply step_advance].
  eapply reach_step; [|apply step_fire; vm_compute; discriminate].
  eapply reach_step; [|apply step_advance].
  apply reach_boot.
Defined.

Lemma twoTicks_timely : timely 0 (users Sample.watching) Sample.twoTicks.
Proof.
  unfold Sample.twoTicks.
  eapply timely_tick; [|apply tick_fire; vm_compute; discriminate].
  eapply timely_tick; [|apply tick_advance; vm_compute; reflexivity].
  eapply timely_tick; [|apply tick_fire; vm_compute; discriminate].
  eapply timely_tick; [|apply tick_advance; vm_compute; reflexivity].
  apply timely_boot.
Defined.

(** C3 (as stated, refuted): two sweeps run at the same time.  The fetch
    of the sweep started at 3000 has not settled when the timer is due
    again at 6000; the second sweep starts all the same, and both wait for
    the first target of bob.  The timer fired as soon as it was due, both
    times. *)
Lemma sweeps_overlap :
  reachable 0 (users Sample.watching) Sample.twoTicks ∧
  timely 0 (users Sample.watching) Sample.twoTicks ∧
  running Sample.twoTicks =
  [ {| atUser := 1; atTarget := 0; startTime := 3000 |};
    {| atUser := 1; atTarget := 0; startTime := 6000 |} ].
Proof.
  split; [apply twoTicks_reachable|].
  split; [apply twoTicks_timely | reflexivity].
Qed.

(** With two sweeps in flight the answers are written as they come: the
    second sweep, answered first, stamps the target at 6500, and the first
    sweep then overwrites it at 7000 with the result of the older fetch. *)
Example late_answer_overwrites :
  let ok := Fulfilled {| statusCode := 200; statusText := "OK" |} in
  let L1 := settle 1 ok (advance 500 Sample.twoTicks) in
  let L2 := L1 ≫= λ L, settle 0 ok (advance 500 L) in
  (stampsOf 1 0 <$> L2) = Some [6500; 7000] ∧
  (L2 ≫= λ L, store L !! 1%nat ≫= λ u, pingTargets u !! 0%nat) =
  Some {| url := "https://a.example"; lastPing := Some 7000;
          status := Some "200 OK (4000ms)"%string |}.
Proof. vm_compute. split; reflexivity. Qed.

End LoopExamples.

(** ** Invariants over the life of the server *)

Section LifecycleFacts.
Import Prober Lifecycle.

Variable hashPassword : string → string.

Lemma sessions_resolve_iff s :
  sessions_resolve s ↔
  ∀ k session, sessions s !! k = Some session →
               userId session ∈ id <$> users s.
Proof.
  unfold sessions_resolve, map_Forall.
  split; intros H k session Hk; specialize (H k session Hk).
  - apply findUserById_is_Some in H as (u & Hu & <-).
    by apply list_elem_of_fmap_2.
  - apply findUserById_is_Some.
    apply list_elem_of_fmap in H as (u & -> & Hu). eauto.
Qed.

Lemma insert_keeps_ids (us : list User) i user user' :
  us !! i = Some user → id user' = id user →
  id <$> <[i := user']> us = id <$> us.
Proof.
  intros Hi Hid. rewrite list_fmap_insert, Hid.
  apply list_insert_id. by rewrite list_lookup_fmap, Hi.
Qed.

Lemma sessions_resolve_same_ids s s' :
  id <$> users s' = id <$> users s →
  sessions s' = sessions s →
  sessions_resolve s → sessions_resolve s'.
Proof.
  rewrite !sessions_resolve_iff. intros Hids Hs H k session.
  rewrite Hids, Hs. apply H.
Qed.

Lemma sessions_resolve_drop sessionId s :
  sessions_resolve s → sessions_resolve (SessionStore.dropSession sessionId s).
Proof. apply map_Forall_delete. Qed.

Lemma sessions_resolve_create now sessionId uid s :
  uid ∈ id <$> users s →
  sessions_resolve s →
  sessions_resolve (SessionStore.createSession now sessionId uid s).
Proof.
  rewrite !sessions_resolve_iff. intros Hin H k session. simpl.
  intros [[<- <-]|[_ Hk]]%lookup_insert_Some; [done | by eapply H].
Qed.

Lemma register_keeps_resolve now uname pword uuid sessionId s :
  sessions_resolve s →
  sessions_resolve
    (Handlers.register hashPassword now uname pword uuid sessionId s).1.1.
Proof.
  intros H. unfold Handlers.register.
  destruct (truthy uname) as [u|]; [|done].
  destruct (truthy pword) as [pw|]; [|done].
  destruct (List.find _ (users s)); [done|]. simpl.
  apply sessions_resolve_create.
  - simpl. rewrite fmap_app. apply elem_of_app. right. simpl. constructor.
  - apply sessions_resolve_iff. simpl. intros k session Hk.
    rewrite fmap_app. apply elem_of_app. left.
    by apply (proj1 (sessions_resolve_iff s) H k).
Qed.

Lemma login_keeps_resolve now uname pword sessionId s :
  sessions_resolve s →
  sessions_resolve
    (Handlers.login hashPassword now uname pword sessionId s).1.1.
Proof.
  intros H. unfold Handlers.login.
  destruct (list_find _ (users s)) as [[i user]|] eqn:E; [|done]. simpl.
  apply list_find_Some in E as (Hi & _ & _).
  assert (id <$> <[i := Handlers.setLastLogin (TimeValue now) user]> (users s)
          = id <$> users s) as Hids by by apply (insert_keeps_ids _ _ user).
  apply sessions_resolve_create.
  - simpl. rewrite Hids. apply list_elem_of_fmap_2.
    by eapply list_elem_of_lookup_2.
  - by apply (sessions_resolve_same_ids s).
Qed.

Lemma addUrl_keeps_ids i o s :
  id <$> users (Handlers.addUrl i o s).1.1 = id <$> users s ∧
  sessions (Handlers.addUrl i o s).1.1 = sessions s.
Proof.
  unfold Handlers.addUrl.
  destruct (users s !! i) as [user|] eqn:Hi; [|done].
  destruct (truthy o) as [u|]; [|done].
  destruct (Handlers.acceptedUrl u); [|done].
  destruct (Handlers.addToTargets u (pingTargets user)); [|done]. simpl.
  split; [|done]. by apply (insert_keeps_ids _ _ user).
Qed.

Lemma removeUrl_keeps_ids i o s :
  id <$> users (Handlers.removeUrl i o s).1.1 = id <$> users s ∧
  sessions (Handlers.removeUrl i o s).1.1 = sessions s.
Proof.
  unfold Handlers.removeUrl.
  destruct (users s !! i) as [user|] eqn:Hi; [|done].
  destruct (truthy o) as [u|]; [|done]. simpl.
  split; [|done]. by apply (insert_keeps_ids _ _ user).
Qed.

Lemma writeTarget_keeps_ids i j now r s :
  id <$> users (writeTarget i j now r s) = id <$> users s ∧
  sessions (writeTarget i j now r s) = sessions s.
Proof.
  unfold writeTarget.
  destruct (users s !! i) as [user|] eqn:Hi; [|done].
  destruct (pingTargets user !! j); [|done]. simpl.
  split; [|done]. by apply (insert_keeps_ids _ _ user).
Qed.

Lemma perform_keeps_resolve s a :
  sessions_resolve s → sessions_resolve (perform hashPassword s a).
Proof.
  intros H. destruct a; simpl.
  - by apply register_keeps_resolve.
  - by apply login_keeps_resolve.
  - unfold Handlers.logout. simpl.
    destruct (truthy cookie); [by apply sessions_resolve_drop | done].
  - unfold SessionStore.isValidSession.
    destruct (sessions s !! sessionId) as [session|];
      [|by apply sessions_resolve_drop].
    case_bool_decide; [by apply sessions_resolve_drop | done].
  - destruct (addUrl_keeps_ids currentUser newUrl s).
    by apply (sessions_resolve_same_ids s).
  - destruct (removeUrl_keeps_ids currentUser urlToRemove s).
    by apply (sessions_resolve_same_ids s).
  - destruct (writeTarget_keeps_ids i j now r s).
    by apply (sessions_resolve_same_ids s).
  - by apply reaper_keeps_sessions_resolve.
Qed.

(** From the start of the server on, whatever is done, every session
    resolves to an account of the store. *)
Lemma run_sessions_resolve loaded acts :
  sessions_resolve (run hashPassword (started loaded) acts).
Proof.
  unfold run. induction acts as [|a acts IH] using rev_ind.
  - apply map_Forall_empty.
  - rewrite foldl_app. simpl. by apply perform_keeps_resolve.
Qed.

End LifecycleFacts.

Section LifecycleClaims.
Import Prober Lifecycle Reaper.

Variable hashPassword : string → string.

Lemma writeTarget_keeps_urls i j now r s :
  urls_unique s → urls_unique (writeTarget i j now r s).
Proof.
  intros H. unfold writeTarget.
  destruct (users s !! i) as [user|] eqn:Hi; [|done].
  destruct (pingTargets user !! j) as [target|] eqn:Hj; [|done].
  apply Forall_insert; [done|]. simpl.
  rewrite list_fmap_insert, list_insert_id.
  - by apply (proj1 (Forall_lookup _ _) H i).
  - rewrite list_lookup_fmap, Hj. by destruct r.
Qed.

Lemma perform_keeps_urls s a :
  urls_unique s → urls_unique (perform hashPassword s a).
Proof.
  intros H. destruct a; simpl.
  - unfold Handlers.register.
    destruct (truthy uname) as [u|]; [|done].
    destruct (truthy pword) as [pw|]; [|done].
    destruct (List.find _ (users s)); [done|].
    apply Forall_app. split; [done|]. repeat constructor.
  - unfold Handlers.login.
    destruct (list_find _ (users s)) as [[i user]|] eqn:E; [|done].
    apply list_find_Some in E as (Hi & _ & _).
    apply Forall_insert; [done|]. simpl.
    by apply (proj1 (Forall_lookup _ _) H i).
  - unfold Handlers.logout. simpl. by destruct (truthy cookie).
  - unfold SessionStore.isValidSession.
    destruct (sessions s !! sessionId) as [session|]; [|done].
    by case_bool_decide.
  - pose proof (addUrl_keeps_urls_distinct currentUser newUrl s) as Hadd.
    unfold Handlers.addUrl in *.
    destruct (users s !! currentUser) as [user|] eqn:Hi; [|done].
    destruct (truthy newUrl) as [u|]; [|done].
    destruct (Handlers.acceptedUrl u); [|done].
    destruct (Handlers.addToTargets u (pingTargets user)) as [ts|]; [|done].
    apply Forall_insert; [done|]. simpl in *.
    rewrite (targetsOf_insert _ _ _ _ Hi), (targetsOf_Some _ _ _ Hi) in Hadd.
    apply Hadd. by apply (proj1 (Forall_lookup _ _) H currentUser).
  - unfold Handlers.removeUrl.
    destruct (users s !! currentUser) as [user|] eqn:Hi; [|done].
    destruct (truthy urlToRemove) as [u|]; [|done].
    apply Forall_insert; [done|]. simpl.
    eapply sublist_NoDup;
      [by apply (proj1 (Forall_lookup _ _) H currentUser)|].
    apply fmap_sublist, sublist_filter.
  - by apply writeTarget_keeps_urls.
  - unfold urls_unique. rewrite cleanup_users.
    apply Forall_forall. intros user [_ Hin]%list_elem_of_filter.
    by apply (proj1 (Forall_forall _ _) H).
Qed.

(** When the URLs of every loaded account are distinct, they are distinct
    in every account at any later time. *)
Lemma run_urls_unique loaded acts :
  urls_unique (started loaded) →
  urls_unique (run hashPassword (started loaded) acts).
Proof.
  intros H. unfold run. induction acts as [|a acts IH] using rev_ind; [done|].
  rewrite foldl_app. simpl. by apply perform_keeps_urls.
Qed.

(** C9: at any time in the life of the server, when a tick of the reaper
    has run, every session left in the session store resolves to an account
    of the store, that is to an account that survived the tick; and, the
    account identifiers being distinct, a session of an account that the
    tick removed is no longer in the session store. *)
Theorem reaper_leaves_no_orphan_session loaded acts now :
  let s := run hashPassword (started loaded) acts in
  let s' := (cleanupInactiveAccounts now s).1 in
  sessions_resolve s' ∧
  (ids_unique s →
   ∀ X sessionId session,
     removed now s X →
     sessions s !! sessionId = Some session →
     userId session = id X →
     sessions s' !! sessionId = None).
Proof.
  intros s s'. split.
  - apply reaper_keeps_sessions_resolve, run_sessions_resolve.
  - intros Hids X sessionId session.
    by apply reaper_drops_sessions_of_removed.
Qed.

End LifecycleClaims.

Section LifecycleExamples.
Import Lifecycle Reaper.

Lemma reaper_leaves_no_orphan_session_witness :
  let s := run (λ p, p) (started [Sample.alice])
             [Login 6000 (Some "alice"%string) (Some "h"%string) "tok"] in
  let s' := (cleanupInactiveAccounts 200000000 s).1 in
  sessions s !! "tok"%string
    = Some {| userId := "u1"; expires := 86406000 |} ∧
  sessions_resolve s' ∧
  sessions s' !! "tok"%string = None.
Proof.
  intros s s'. split; [reflexivity|].
  destruct (reaper_leaves_no_orphan_session (λ p, p) [Sample.alice]
              [Login 6000 (Some "alice"%string) (Some "h"%string) "tok"]
              200000000) as [Hafter Hgone].
  split; [exact Hafter|].
  apply (Hgone) with
    (X := Handlers.setLastLogin (TimeValue 6000) Sample.alice)
    (session := {| userId := "u1"; expires := 86406000 |}).
  - apply (bool_decide_unpack _). vm_compute. exact I.
  - apply removed_iff. split; [constructor | reflexivity].
  - reflexivity.
  - reflexivity.
Defined.

End LifecycleExamples.

(** ** A sweep that runs alone in the loop is the sweep run in one go *)

Section AloneFacts.
Import Prober EventLoop.

Variable net : Sweep.Network.

Lemma insert_middle {A} (l1 l2 : list A) x y :
  <[length l1 := y]> (l1 ++ x :: l2) = l1 ++ y :: l2.
Proof.
  rewrite insert_app_r_alt by lia. by rewrite Nat.sub_diag.
Qed.

Lemma setTargets_same u : Handlers.setTargets (pingTargets u) u = u.
Proof. by destruct u. Qed.

Lemma seek_middle pre u post j :
  seek (pre ++ u :: post) (length pre) j =
  match pingTargets u !! j with
  | Some target => Some (length pre, j, target)
  | None => nextTarget post (S (length pre)) 0
  end.
Proof. unfold seek. by rewrite drop_app_length. Qed.

Lemma seek_past pre u post u' post' :
  post = u' :: post' →
  nextTarget post (S (length pre)) 0 =
  seek ((pre ++ [u]) ++ u' :: post') (length (pre ++ [u])) 0.
Proof.
  intros ->. rewrite seek_middle, length_app. simpl.
  by rewrite Nat.add_1_r.
Qed.

Lemma resume_at_target L pre u post tsdone t rest :
  store L = pre ++ u :: post →
  pingTargets u = tsdone ++ t :: rest →
  resume (length pre) (length tsdone) L =
  {| clock := clock L; nextTick := nextTick L; store := store L;
     running := running L ++
       [{| atUser := length pre; atTarget := length tsdone;
           startTime := clock L |}];
     trace := trace L ++ [Fetch (url t)];
     stamps := stamps L |}.
Proof.
  intros Hstore Hts. unfold resume.
  rewrite Hstore, seek_middle, Hts, list_lookup_middle by done. done.
Qed.

(** One answer moves the call from a target to the position after it. *)
Lemma answer_step n L pre u post tsdone t rest :
  running L = [] →
  store L = pre ++ u :: post →
  pingTargets u = tsdone ++ t :: rest →
  let c1 := clock L + Z.of_N (net n (url t)).2 in
  let t' := recordResult c1 (pingOutcome (clock L) c1 (net n (url t)).1) t in
  let u' := Handlers.setTargets (tsdone ++ t' :: rest) u in
  running (resume (length pre) (length tsdone) L) ≠ [] ∧
  answer net n (resume (length pre) (length tsdone) L) =
  Some (resume (length pre) (S (length tsdone))
          {| clock := c1; nextTick := nextTick L;
             store := pre ++ u' :: post; running := [];
             trace := trace L ++
               [Fetch (url t);
                ConsoleLog (LogPinged (url t) (username u)
                              (default ""%string (status t')))];
             stamps := stamps L ++ [(length pre, length tsdone, c1)] |}).
Proof.
  intros Hrun Hstore Hts c1 t' u'.
  rewrite (resume_at_target _ _ _ _ _ _ _ Hstore Hts), Hrun.
  split; [done|].
  unfold answer, settle. cbn -[resume].
  rewrite Hstore, list_lookup_middle by done. cbn -[resume].
  rewrite Hts, list_lookup_middle by done. cbn -[resume].
  rewrite !insert_middle. fold c1. fold t'. fold u'.
  destruct (pingOutcome_fulfils (clock L) c1 (net n (url t)).1)
    as (result & Hres & _).
  rewrite Hres. by rewrite <- app_assoc.
Qed.

Lemma pingTargetsOf_cons user_name t rest w :
  let c1 := Sweep.clock w + Z.of_N (net (Sweep.fetches w) (url t)).2 in
  let t' := recordResult c1
              (pingOutcome (Sweep.clock w) c1 (net (Sweep.fetches w) (url t)).1)
              t in
  let w1 := {| Sweep.clock := c1; Sweep.fetches := S (Sweep.fetches w);
               Sweep.trace := Sweep.trace w ++
                 [Fetch (url t);
                  ConsoleLog (LogPinged (url t) user_name
                                (default ""%string (status t')))] |} in
  Sweep.pingTargetsOf net user_name (t :: rest) w =
  (t' :: (Sweep.pingTargetsOf net user_name rest w1).1,
   (Sweep.pingTargetsOf net user_name rest w1).2).
Proof.
  intros c1 t' w1. simpl. unfold Sweep.pingTarget.
  rewrite pingUrl_eq. cbn -[Sweep.pingTargetsOf].
  unfold Sweep.emit. cbn -[Sweep.pingTargetsOf].
  rewrite <- app_assoc. fold c1. fold t'. simpl. fold w1.
  by destruct (Sweep.pingTargetsOf net user_name rest w1).
Qed.

Lemma pingUsers_cons u post w :
  let r1 := Sweep.pingTargetsOf net (username u) (pingTargets u) w in
  Sweep.pingUsers net (u :: post) w =
  (Handlers.setTargets r1.1 u :: (Sweep.pingUsers net post r1.2).1,
   (Sweep.pingUsers net post r1.2).2).
Proof.
  intros r1. simpl. fold r1. destruct r1 as [ts w1]. simpl.
  by destruct (Sweep.pingUsers net post w1).
Qed.

Lemma resume_same_seek i j i' j' L :
  seek (store L) i j = seek (store L) i' j' → resume i j L = resume i' j' L.
Proof. unfold resume. by intros ->. Qed.

Lemma alone_idle fuel n L : running L = [] → alone net fuel n L = Some L.
Proof. intros H. destruct fuel; simpl; by rewrite H. Qed.

(** The targets of the account at hand, one answer each. *)
Lemma alone_targets post :
  (∀ pre u tsdone n L fuel,
     running L = [] → store L = pre ++ u :: post →
     pingTargets u = tsdone →
     (length (Sweep.allTargets post) ≤ fuel)%nat →
     endsLikeSweep net post pre [] u tsdone n L fuel) →
  ∀ tstodo pre u tsdone n L fuel,
    running L = [] → store L = pre ++ u :: post →
    pingTargets u = tsdone ++ tstodo →
    (length tstodo + length (Sweep.allTargets post) ≤ fuel)%nat →
    endsLikeSweep net post pre tstodo u tsdone n L fuel.
Proof.
  intros Hnil. induction tstodo as [|t rest IHts];
    intros pre u tsdone n L fuel Hrun Hstore Hts Hfuel.
  - rewrite app_nil_r in Hts. by apply Hnil.
  - destruct fuel as [|fuel]; [simpl in Hfuel; lia|].
    destruct (answer_step n L pre u post tsdone t rest Hrun Hstore Hts)
      as [Hbusy Hans].
    unfold endsLikeSweep. rewrite pingTargetsOf_cons.
    cbn [Sweep.clock Sweep.fetches Sweep.trace fst snd].
    set (c1 := clock L + Z.of_N (net n (url t)).2) in *.
    set (t' := recordResult c1 (pingOutcome (clock L) c1 (net n (url t)).1) t)
      in *.
    set (u' := Handlers.setTargets (tsdone ++ t' :: rest) u) in *.
    match type of Hans with
    | _ = Some (resume _ _ ?M) =>
        destruct (IHts pre u' (tsdone ++ [t']) (S n) M fuel)
          as (Lend & Hal & Hrunl & Hst & Hcl & Htr & Hnt)
    end.
    + done.
    + done.
    + simpl. by rewrite <- app_assoc.
    + simpl in Hfuel. lia.
    + exists Lend. rewrite length_app, Nat.add_1_r in Hal.
      cbn [clock trace nextTick username u' Handlers.setTargets] in *.
      split.
      { simpl. destruct (running (resume (length pre) (length tsdone) L));
          [done|]. rewrite Hans. simpl. exact Hal. }
      split; [done|]. rewrite <- !app_assoc in Hst, Htr. simpl in Hst, Htr.
      done.
Qed.

(** A call that runs alone, from any position of its loops, ends where
    the sweep run in one go ends. *)
Lemma alone_from post :
  ∀ tstodo pre u tsdone n L fuel,
    running L = [] → store L = pre ++ u :: post →
    pingTargets u = tsdone ++ tstodo →
    (length tstodo + length (Sweep.allTargets post) ≤ fuel)%nat →
    endsLikeSweep net post pre tstodo u tsdone n L fuel.
Proof.
  induction post as [|u2 post IHpost]; apply alone_targets;
    intros pre u tsdone n L fuel Hrun Hstore Hts Hfuel.
  - (* no account left: the call saves and returns *)
    unfold endsLikeSweep. simpl. rewrite app_nil_r.
    rewrite <- Hts, setTargets_same.
    unfold resume. rewrite Hstore, seek_middle.
    rewrite lookup_ge_None_2 by (rewrite Hts; lia). simpl.
    eexists. split; [apply alone_idle; by simpl|]. done.
  - (* on to the next account *)
    unfold endsLikeSweep. simpl Sweep.pingTargetsOf. cbn [fst snd].
    rewrite pingUsers_cons. cbn [fst snd]. rewrite app_nil_r.
    rewrite <- Hts, setTargets_same.
    rewrite (resume_same_seek _ _ (length (pre ++ [u])) 0).
    2:{ rewrite Hstore, seek_middle.
        rewrite lookup_ge_None_2 by (rewrite Hts; lia).
        rewrite (seek_past pre u (u2 :: post) u2 post eq_refl).
        by rewrite <- app_assoc. }
    destruct (IHpost (pingTargets u2) (pre ++ [u]) u2 [] n L fuel)
      as (Lend & Hal & Hrunl & Hst & Hcl & Htr & Hnt).
    + done.
    + by rewrite <- app_assoc.
    + done.
    + rewrite allTargets_cons, length_app in Hfuel. lia.
    + exists Lend. simpl in *. rewrite <- !app_assoc in Hst, Htr.
      simpl in *. done.
Qed.

Lemma answer_steps n L L' :
  answer net n L = Some L' → ∃ Lmid, step L Lmid ∧ step Lmid L'.
Proof.
  unfold answer. intros H.
  destruct (running L !! 0%nat) as [p|]; simpl in H; [|done].
  destruct (store L !! atUser p) as [user|]; simpl in H; [|done].
  destruct (pingTargets user !! atTarget p) as [target|]; simpl in H; [|done].
  eexists. split; [apply step_advance | by eapply step_settle].
Qed.

(** What a call that runs alone goes through are steps of the loop. *)
Lemma alone_reachable t0 us fuel n L Lend :
  reachable t0 us L → alone net fuel n L = Some Lend → reachable t0 us Lend.
Proof.
  revert n L. induction fuel as [|fuel IH]; intros n L Hreach Hal; simpl in Hal.
  - destruct (running L); by simplify_eq.
  - destruct (running L); [by simplify_eq|].
    destruct (answer net n L) as [L'|] eqn:Hans; simpl in Hal; [|done].
    apply answer_steps in Hans as (Lmid & H1 & H2).
    apply (IH (S n) L'); [|done].
    eapply reach_step; [|exact H2]. by eapply reach_step.
Qed.

Lemma pingAllUrls_eq s w :
  Sweep.pingAllUrls net s w =
  (let r := Sweep.pingUsers net (users s)
              (Sweep.emit (ConsoleLog (LogStartCycle (Sweep.clock w))) w) in
   ({| users := r.1; sessions := sessions s |},
    Sweep.emit (SaveUsers r.1) r.2)).
Proof. unfold Sweep.pingAllUrls. by destruct (Sweep.pingUsers _ _ _). Qed.

(** A call of [pingAllUrls] started by the timer while nothing else runs,
    and left alone, returns after one answer per target; the loop is then
    where [Sweep.pingAllUrls] ends: same store, same clock, same effects
    in the same order. *)
Lemma lone_sweep_is_pingAllUrls L m :
  running L = [] →
  let r := Sweep.pingAllUrls net {| users := store L; sessions := m |}
             {| Sweep.clock := clock L; Sweep.fetches := 0;
                Sweep.trace := trace L |} in
  ∃ Lend,
    alone net (length (Sweep.allTargets (store L))) 0 (fire L) = Some Lend ∧
    running Lend = [] ∧
    store Lend = users r.1 ∧
    clock Lend = Sweep.clock r.2 ∧
    trace Lend = Sweep.trace r.2.
Proof.
  intros Hrun r. subst r. rewrite pingAllUrls_eq. unfold fire, Sweep.emit.
  cbn [Sweep.clock Sweep.fetches Sweep.trace users sessions fst snd].
  destruct (store L) as [|u post] eqn:Hstore.
  - simpl. unfold resume. simpl. rewrite Hrun. by eexists.
  - rewrite pingUsers_cons. cbn [fst snd users].
    match goal with
    | |- context [resume 0 0 ?M] =>
        destruct (alone_from post (pingTargets u) [] u [] 0 M
                    (length (Sweep.allTargets (u :: post))))
          as (Lend & Hal & Hrunl & Hst & Hcl & Htr & _)
    end.
    + done.
    + done.
    + done.
    + by rewrite allTargets_cons, length_app.
    + exists Lend. simpl in *. done.
Qed.

End AloneFacts.

(** ** The functions on small inputs *)

Section Checks.
Import Reaper SessionStore Handlers.

(** At instant 200000000 the cutoff is 27200000: of four accounts, last
    seen one millisecond after the cutoff, at the cutoff, never, and at an
    unreadable date, the tick keeps the first only. *)
Example reaper_on_four_accounts :
  let account name d :=
    {| id := name; username := name; password := "h"; pingTargets := [];
       lastLogin := d |} in
  let s := {| users := [ account "after" (Some (TimeValue 27200001));
                         account "at" (Some (TimeValue 27200000));
                         account "never" None;
                         account "unreadable" (Some InvalidDate) ];
              sessions := ∅ |} in
  username <$> users (cleanupInactiveAccounts 200000000 s).1 = ["after"%string]
  ∧ (cleanupInactiveAccounts 200000000 s).2 =
    [ConsoleLog (LogDeleted 200000000 3);
     SaveUsers [account "after" (Some (TimeValue 27200001))]].
Proof. split; reflexivity. Qed.

(** The same URL twice, a URL in capitals, a URL of another scheme and an
    empty field: one target. *)
Example add_four_times :
  let add u s := (addUrl 0 (Some u) s).1.1 in
  url <$> targetsOf
    (add ""%string (add "ftp://bad"%string (add "HTTPS://example.com"%string
      (add "https://example.com"%string
        (add "https://example.com"%string Sample.store))))) 0
  = ["https://example.com"%string].
Proof. reflexivity. Qed.

(** Removing a URL that no target has saves the same list again. *)
Example remove_unknown_url :
  removeUrl 1 (Some "https://c.example"%string) Sample.watching
  = (Sample.watching, [SaveUsers (users Sample.watching)], Redirect None).
Proof. reflexivity. Qed.

(** An empty field removes nothing, not even a target whose URL is empty
    (which only a hand-written [users.json] can hold). *)
Example remove_empty_field :
  let odd := setTargets [newTarget ""] Sample.alice in
  let s := {| users := [odd]; sessions := ∅ |} in
  removeUrl 0 (Some ""%string) s = (s, [], Redirect None).
Proof. reflexivity. Qed.

End Checks.

(** ** Cookies *)

Section CookieFacts.
Import Cookies.

Lemma split_nonempty sep s : split sep s ≠ [].
Proof.
  destruct s as [|c rest]; simpl; [done|].
  destruct (Ascii.eqb c sep); [done|]. by destruct (split sep rest).
Qed.

Lemma split_app_sep sep a b :
  split sep (a +:+ String sep b) = split sep a ++ split sep b.
Proof.
  induction a as [|c a IH]; simpl.
  - by rewrite Ascii.eqb_refl.
  - destruct (Ascii.eqb c sep); [by rewrite IH|].
    rewrite IH. pose proof (split_nonempty sep a).
    by destruct (split sep a).
Qed.

Lemma split_none sep s : lacks sep s = true → split sep s = [s].
Proof.
  induction s as [|c rest IH]; simpl; intros H; [done|].
  apply andb_true_iff in H as [Hc Hrest]. apply negb_true_iff in Hc.
  by rewrite Hc, IH.
Qed.

Lemma plainChars_lacks s :
  plainChars s = true → lacks ";" s = true ∧ lacks "=" s = true.
Proof.
  induction s as [|c rest IH]; simpl; intros Hp; [done|].
  apply andb_true_iff in Hp as [Hp Hrest].
  apply andb_true_iff in Hp as [Hp _].
  apply andb_true_iff in Hp as [-> ->]. simpl. by apply IH.
Qed.

Lemma trimEnd_plain s : plainChars s = true → trimEnd s = s.
Proof.
  induction s as [|c rest IH]; simpl; intros Hp; [done|].
  apply andb_true_iff in Hp as [Hp Hrest].
  apply andb_true_iff in Hp as [_ Hsp]. apply negb_true_iff in Hsp.
  rewrite IH by done. rewrite Hsp. by destruct rest.
Qed.

(** White space after a character that is none is all that the end of a
    string loses. *)
Lemma trimEnd_app a c b :
  isSpace c = false →
  trimEnd (a +:+ String c b) = a +:+ String c (trimEnd b).
Proof.
  intros Hc. induction a as [|c' a IH]; simpl.
  - rewrite Hc. by destruct (trimEnd b).
  - rewrite IH. by destruct a.
Qed.

Lemma trimStart_blank ws s : blank ws = true → trimStart (ws +:+ s) = trimStart s.
Proof.
  induction ws as [|c ws IH]; simpl; intros H; [done|].
  apply andb_true_iff in H as [-> H]. by apply IH.
Qed.

Lemma plainToken_head s :
  plainToken s = true →
  ∃ c rest, s = String c rest ∧ isSpace c = false ∧ plainChars s = true.
Proof.
  unfold plainToken. destruct s as [|c rest]; [done|]. simpl. intros H.
  exists c, rest. split; [done|].
  apply andb_true_iff in H as [Hp Hrest].
  apply andb_true_iff in Hp as [Hp Hsp]. apply negb_true_iff in Hsp.
  by rewrite Hp, Hsp, Hrest.
Qed.

(** The trimmed text of a cookie [name=value] behind white space, and of
    one whose value goes on with a second [=]. *)
Lemma trim_pair ws name value :
  blank ws = true → plainToken name = true → plainChars value = true →
  trim (ws +:+ name +:+ String "=" value) = name +:+ String "=" value.
Proof.
  intros Hws Hname Hvalue. unfold trim. rewrite trimStart_blank by done.
  destruct (plainToken_head _ Hname) as (c & rest & -> & Hc & Hp).
  simpl trimStart. rewrite Hc.
  change (String c (rest +:+ String "=" value))
    with (String c rest +:+ String "=" value).
  rewrite trimEnd_app by done. by rewrite trimEnd_plain.
Qed.

Lemma trim_pair_more ws name value tail :
  blank ws = true → plainToken name = true →
  trim (ws +:+ name +:+ String "=" (value +:+ String "=" tail)) =
  name +:+ String "=" (value +:+ String "=" (trimEnd tail)).
Proof.
  intros Hws Hname. unfold trim. rewrite trimStart_blank by done.
  destruct (plainToken_head _ Hname) as (c & rest & -> & Hc & Hp).
  simpl trimStart. rewrite Hc.
  change (String c (rest +:+ String "=" (value +:+ String "=" tail)))
    with (String c rest +:+ String "=" (value +:+ String "=" tail)).
  rewrite trimEnd_app by done. f_equal. f_equal. by apply trimEnd_app.
Qed.

Lemma plainToken_nonempty s : plainToken s = true → s ≠ EmptyString.
Proof. by intros H ->. Qed.

Lemma plainToken_chars s : plainToken s = true → plainChars s = true.
Proof. unfold plainToken. by intros [_ ?]%andb_true_iff. Qed.

Lemma setCookie_inserts cookies name value :
  name ≠ EmptyString → value ≠ EmptyString → name ≠ "__proto__"%string →
  ∀ more cookie,
    split "=" (trim cookie) = name :: value :: more →
    setCookie cookies cookie = <[name := value]> cookies.
Proof.
  intros H1 H2 H3 more cookie Hsplit. unfold setCookie. rewrite Hsplit.
  by rewrite !bool_decide_eq_false_2.
Qed.

(** What one well-formed cookie does to the cookies read so far. *)
Lemma setCookie_pair cookies ws name value :
  blank ws = true → plainToken name = true → name ≠ "__proto__"%string →
  plainToken value = true →
  setCookie cookies (ws +:+ name +:+ String "=" value) =
  <[name := value]> cookies.
Proof.
  intros Hws Hname Hproto Hvalue.
  apply (setCookie_inserts _ _ _ (plainToken_nonempty _ Hname)
           (plainToken_nonempty _ Hvalue) Hproto []).
  rewrite trim_pair by auto using plainToken_chars.
  rewrite split_app_sep.
  destruct (plainChars_lacks _ (plainToken_chars _ Hname)) as [_ Hn].
  destruct (plainChars_lacks _ (plainToken_chars _ Hvalue)) as [_ Hv].
  by rewrite !split_none.
Qed.

Lemma setCookie_pair_more cookies ws name value tail :
  blank ws = true → plainToken name = true → name ≠ "__proto__"%string →
  plainToken value = true →
  setCookie cookies (ws +:+ name +:+ String "=" (value +:+ String "=" tail)) =
  <[name := value]> cookies.
Proof.
  intros Hws Hname Hproto Hvalue.
  apply (setCookie_inserts _ _ _ (plainToken_nonempty _ Hname)
           (plainToken_nonempty _ Hvalue) Hproto (split "=" (trimEnd tail))).
  rewrite trim_pair_more by done.
  rewrite !split_app_sep.
  destruct (plainChars_lacks _ (plainToken_chars _ Hname)) as [_ Hn].
  destruct (plainChars_lacks _ (plainToken_chars _ Hvalue)) as [_ Hv].
  by rewrite (split_none _ name), (split_none _ value).
Qed.

Lemma parseCookies_one cookie :
  lacks ";" cookie = true → parseCookies cookie = setCookie ∅ cookie.
Proof. intros H. unfold parseCookies. by rewrite split_none. Qed.

Lemma parseCookies_snoc h cookie :
  lacks ";" cookie = true →
  parseCookies (h +:+ String ";" cookie) = setCookie (parseCookies h) cookie.
Proof.
  intros H. unfold parseCookies.
  by rewrite split_app_sep, foldl_app, (split_none _ cookie).
Qed.

Lemma lacks_app sep a b :
  lacks sep (a +:+ b) = lacks sep a && lacks sep b.
Proof.
  induction a as [|c a IH]; simpl; [done|]. by rewrite IH, andb_assoc.
Qed.

Lemma blank_lacks ws : blank ws = true → lacks ";" ws = true.
Proof.
  induction ws as [|c ws IH]; simpl; [done|].
  intros [Hc Hws]%andb_true_iff. rewrite IH by done.
  destruct (Ascii.eqb_spec c ";") as [->|]; [done | done].
Qed.

Lemma parseCookies_session sessionId :
  plainToken sessionId = true →
  parseCookies ("sessionId=" +:+ sessionId) !! "sessionId"%string
  = Some sessionId.
Proof.
  intros H. destruct (plainChars_lacks _ (plainToken_chars _ H)) as [Hs _].
  rewrite parseCookies_one by (simpl; exact Hs).
  rewrite (setCookie_pair ∅ "" "sessionId" sessionId) by done.
  apply lookup_insert_eq.
Qed.

End CookieFacts.

Section CookieProperties.
Import Cookies.

(** X1: the last cookie of a header, when it is [name=value] with a name
    and a value free of [;], [=] and white space, is read back as that
    value under that name, whatever the header holds before it and
    whatever white space follows the separator; so is a header made of
    that cookie alone. *)
Theorem parseCookies_reads_last_cookie h ws name value :
  blank ws = true →
  plainToken name = true →
  name ≠ "__proto__"%string →
  plainToken value = true →
  parseCookies (h +:+ String ";" (ws +:+ name +:+ String "=" value)) !! name
    = Some value ∧
  parseCookies (name +:+ String "=" value) !! name = Some value.
Proof.
  intros Hws Hname Hproto Hvalue.
  destruct (plainChars_lacks _ (plainToken_chars _ Hname)) as [Hn _].
  destruct (plainChars_lacks _ (plainToken_chars _ Hvalue)) as [Hv _].
  split.
  - rewrite parseCookies_snoc.
    + rewrite setCookie_pair by done. apply lookup_insert_eq.
    + rewrite !lacks_app. simpl. by rewrite blank_lacks, Hn, Hv.
  - rewrite parseCookies_one by (rewrite lacks_app; simpl; by rewrite Hn, Hv).
    rewrite (setCookie_pair ∅ "" name value) by done.
    apply lookup_insert_eq.
Qed.

(** X2: a cookie value is cut at its first [=]: of a cookie
    [name=value=tail] only [value] is kept under [name]. *)
Theorem parseCookies_cuts_value_at_equals name value tail :
  plainToken name = true →
  name ≠ "__proto__"%string →
  plainToken value = true →
  lacks ";" tail = true →
  parseCookies (name +:+ String "=" (value +:+ String "=" tail)) !! name
    = Some value.
Proof.
  intros Hname Hproto Hvalue Htail.
  destruct (plainChars_lacks _ (plainToken_chars _ Hname)) as [Hn _].
  destruct (plainChars_lacks _ (plainToken_chars _ Hvalue)) as [Hv _].
  rewrite parseCookies_one.
  - rewrite (setCookie_pair_more ∅ "" name value tail) by done.
    apply lookup_insert_eq.
  - rewrite lacks_app. simpl. rewrite lacks_app. simpl.
    by rewrite Hn, Hv, Htail.
Qed.

Lemma parseCookies_reads_last_cookie_witness :
  parseCookies "theme=dark; sessionId=0f3a9c" !! "sessionId"%string
    = Some "0f3a9c"%string ∧
  parseCookies "sessionId=0f3a9c" !! "sessionId"%string = Some "0f3a9c"%string.
Proof.
  apply (parseCookies_reads_last_cookie "theme=dark" " " "sessionId" "0f3a9c");
    reflexivity || discriminate.
Defined.

Lemma parseCookies_cuts_value_at_equals_witness :
  parseCookies "token=YWJj=="%string !! "token"%string = Some "YWJj"%string.
Proof.
  apply (parseCookies_cuts_value_at_equals "token" "YWJj" "");
    reflexivity || discriminate.
Defined.

End CookieProperties.

(** ** More on the reaper *)

Section ReaperProperties.
Import Reaper.

Lemma keepUser_later now1 now2 user :
  now1 ≤ now2 →
  keepUser (twoDaysAgo now2) user = true →
  keepUser (twoDaysAgo now1) user = true.
Proof.
  intros Hle (ms & Hms & Hlt)%keepUser_iff. apply keepUser_iff.
  exists ms. split; [done | lia].
Qed.

Lemma filter_keep_twice now1 now2 (us : list User) :
  now1 ≤ now2 →
  filter (λ user, keepUser (twoDaysAgo now2) user)
    (filter (λ user, keepUser (twoDaysAgo now1) user) us)
  = filter (λ user, keepUser (twoDaysAgo now2) user) us.
Proof.
  intros Hle. rewrite list_filter_filter. apply list_filter_iff.
  intros user. split; [by intros [? _]|]. intros Hk. split; [done|].
  apply Is_true_true. apply (keepUser_later now1 now2); [done|].
  by apply Is_true_true.
Qed.

Lemma cleanup_sessions now s :
  sessions (cleanupInactiveAccounts now s).1 =
  if bool_decide (length (users (cleanupInactiveAccounts now s).1)
                  < length (users s))%nat
  then pruneSessions (users (cleanupInactiveAccounts now s).1) (sessions s)
  else sessions s.
Proof.
  rewrite cleanup_users. unfold cleanupInactiveAccounts.
  pose proof (length_filter (λ user, keepUser (twoDaysAgo now) user)
                (users s)).
  repeat case_bool_decide; simpl; try done; lia.
Qed.

Lemma filter_shorter_or_same {A} (P : A → Prop) `{!∀ x, Decision (P x)}
    (l : list A) :
  (length (filter P l) < length l)%nat ∨ filter P l = l.
Proof.
  destruct (decide (length (filter P l) = length l)) as [Heq|Hne].
  - right. apply filter_all. intros x Hx.
    by apply (filter_same_length P l Heq).
  - left. pose proof (length_filter P l). lia.
Qed.

Lemma pruneSessions_twice us1 us2 m :
  us2 ⊆ us1 →
  pruneSessions us2 (pruneSessions us1 m) = pruneSessions us2 m.
Proof.
  intros Hsub. apply map_eq. intros k. rewrite !pruneSessions_lookup.
  destruct (m !! k) as [session|]; simpl; [|done].
  destruct (findUserById us1 (userId session)) as [u1|] eqn:E1; simpl.
  - done.
  - destruct (findUserById us2 (userId session)) as [u2|] eqn:E2; [|done].
    apply findUserById_Some in E2 as [Hin Hid].
    destruct (proj1 (findUserById_None us1 (userId session)) E1 u2);
      [by apply Hsub | done].
Qed.

(** X3: a second tick at the same instant finds nothing to do: it leaves
    the state of the first and neither logs nor saves. *)
Theorem reaper_second_tick_is_idle now s :
  cleanupInactiveAccounts now (cleanupInactiveAccounts now s).1 =
  ((cleanupInactiveAccounts now s).1, []).
Proof.
  apply cleanup_idle. intros user [Hin Hout]%removed_iff.
  rewrite cleanup_users in Hin. apply list_elem_of_filter in Hin as [Hk _].
  rewrite Hout in Hk. done.
Qed.

(** X4: two ticks in a row leave the accounts and the sessions that the
    later tick alone would have left. *)
Theorem reaper_ticks_compose now1 now2 s :
  now1 ≤ now2 →
  (cleanupInactiveAccounts now2 (cleanupInactiveAccounts now1 s).1).1 =
  (cleanupInactiveAccounts now2 s).1.
Proof.
  intros Hle.
  set (s1 := (cleanupInactiveAccounts now1 s).1).
  assert (users (cleanupInactiveAccounts now2 s1).1
          = users (cleanupInactiveAccounts now2 s).1) as Husers.
  { rewrite !cleanup_users. subst s1. rewrite cleanup_users.
    by apply filter_keep_twice. }
  assert (sessions (cleanupInactiveAccounts now2 s1).1
          = sessions (cleanupInactiveAccounts now2 s).1) as Hsessions.
  { rewrite (cleanup_sessions now2 s1), (cleanup_sessions now2 s), Husers.
    subst s1. rewrite (cleanup_sessions now1 s).
    set (U0 := users s). set (U1 := users (cleanupInactiveAccounts now1 s).1).
    set (U2 := users (cleanupInactiveAccounts now2 s).1).
    assert (U2 = filter (λ user, keepUser (twoDaysAgo now2) user) U1) as HU2.
    { subst U1 U2. rewrite !cleanup_users. symmetry.
      by apply filter_keep_twice. }
    assert (U1 = filter (λ user, keepUser (twoDaysAgo now1) user) U0) as HU1
      by apply cleanup_users.
    assert (U2 ⊆ U1) as Hsub.
    { rewrite HU2. intros u Hu. apply list_elem_of_filter in Hu. tauto. }
    destruct (filter_shorter_or_same
                (λ user, keepUser (twoDaysAgo now1) user) U0) as [H1|H1];
    destruct (filter_shorter_or_same
                (λ user, keepUser (twoDaysAgo now2) user) U1) as [H2|H2];
      rewrite <- HU1 in H1; rewrite <- HU2 in H2.
    - rewrite !bool_decide_eq_true_2 by lia. by apply pruneSessions_twice.
    - rewrite H2. rewrite (bool_decide_eq_true_2 _ H1).
      rewrite (bool_decide_eq_false_2 (length U1 < length U1)%nat) by lia.
      done.
    - rewrite H1 in *. rewrite (bool_decide_eq_false_2 _ (Nat.lt_irrefl _)).
      done.
    - rewrite H2, H1. by rewrite (bool_decide_eq_false_2 _ (Nat.lt_irrefl _)). }
  destruct (cleanupInactiveAccounts now2 s1).1,
    (cleanupInactiveAccounts now2 s).1. simpl in *. by subst.
Qed.

(** X5: a tick leaves the surviving accounts as they were and in their
    order, and ends no session of an account that survives. *)
Theorem reaper_spares_survivors now s :
  users (cleanupInactiveAccounts now s).1 `sublist_of` users s ∧
  ∀ sessionId session,
    sessions s !! sessionId = Some session →
    is_Some (findUserById (users (cleanupInactiveAccounts now s).1)
               (userId session)) →
    sessions (cleanupInactiveAccounts now s).1 !! sessionId = Some session.
Proof.
  split.
  - rewrite cleanup_users. apply sublist_filter.
  - intros sessionId session Hk [u Hu]. rewrite cleanup_sessions.
    case_bool_decide; [|done].
    by rewrite pruneSessions_lookup, Hk; simpl; rewrite Hu.
Qed.

Lemma reaper_ticks_compose_witness :
  let s := {| users := [Sample.alice; Sample.bob];
              sessions := {[ "tok"%string :=
                               {| userId := "u1"; expires := 99 |} ]} |} in
  (cleanupInactiveAccounts 200000000
     (cleanupInactiveAccounts 100000000 s).1).1
  = (cleanupInactiveAccounts 200000000 s).1.
Proof.
  intros s. apply (reaper_ticks_compose 100000000 200000000 s). lia.
Defined.

End ReaperProperties.

(** ** More on sessions, registration and login *)

Section AuthProperties.
Import SessionStore Handlers.

Variable hashPassword : string → string.

(** X6: a session made at instant [now] is honoured by [isValidSession]
    up to and including [now] plus 24 hours, with the store left as it is
    and the account of the session as answer; at any later instant it is
    refused and deleted. *)
Theorem session_lasts_a_day now sessionId uid s now' :
  let s1 := createSession now sessionId uid s in
  (now' ≤ now + sessionLifetime →
   isValidSession now' sessionId s1 = (findUserById (users s) uid, s1)) ∧
  (now + sessionLifetime < now' →
   (isValidSession now' sessionId s1).1 = None ∧
   sessions (isValidSession now' sessionId s1).2 !! sessionId = None).
Proof.
  intros s1.
  assert (sessions s1 !! sessionId
          = Some {| userId := uid; expires := now + sessionLifetime |}) as Hk
    by apply lookup_insert_eq.
  split; intros Ht.
  - by rewrite (isValidSession_live _ _ _ _ Hk Ht).
  - rewrite (isValidSession_expired _ _ _ _ Hk Ht). split; [done|].
    apply lookup_delete_eq.
Qed.

Lemma truthy_id u : u ≠ ""%string → truthy (Some u) = Some u.
Proof. intros H. by apply truthy_Some. Qed.

Lemma find_username_None uname (us : list User) :
  List.find (λ u, bool_decide (username u = uname)) us = None ↔
  uname ∉ username <$> us.
Proof.
  induction us as [|u us IH]; simpl.
  - split; [intros _; apply not_elem_of_nil | done].
  - rewrite not_elem_of_cons. case_bool_decide as E.
    + split; [done | intros [Hne _]; by destruct Hne].
    + rewrite IH. split; [by intros ?; split | by intros [_ ?]].
Qed.

(** What a registration that goes through does. *)
Lemma register_accepts now uname pword uuid sessionId s :
  uname ≠ ""%string → pword ≠ ""%string →
  uname ∉ username <$> users s →
  register hashPassword now (Some uname) (Some pword) uuid sessionId s =
  (let newUser := {| id := uuid; username := uname;
                     password := hashPassword pword; pingTargets := [];
                     lastLogin := Some (TimeValue now) |} in
   (createSession now sessionId uuid
      {| users := users s ++ [newUser]; sessions := sessions s |},
    [SaveUsers (users s ++ [newUser])], Redirect (Some sessionId))).
Proof.
  intros Hu Hp Hfree. unfold register.
  rewrite !truthy_id by done.
  by rewrite (proj2 (find_username_None uname (users s)) Hfree).
Qed.

(** What a login with the credentials of an account does: the first
    account with the name and the digest is the one logged in. *)
Lemma login_accepts now uname pword sessionId s i user :
  list_find (λ u, Some (username u) = Some uname ∧
                  password u = hashPassword (default ""%string
                                               (truthy (Some pword))))
    (users s) = Some (i, user) →
  login hashPassword now (Some uname) (Some pword) sessionId s =
  (let users' := <[i := setLastLogin (TimeValue now) user]> (users s) in
   (createSession now sessionId (id user)
      {| users := users'; sessions := sessions s |},
    [SaveUsers users'], Redirect (Some sessionId))).
Proof. intros Hfind. unfold login. by rewrite Hfind. Qed.

(** X7: after a registration that went through, a login with the same
    name and password goes through as well: it answers with the new
    session cookie, the session is one of the account just registered, and
    the last login of that account is the instant of the login. *)
Theorem register_then_login now uname pword uuid sessionId s now' sessionId' :
  uname ≠ ""%string → pword ≠ ""%string →
  uname ∉ username <$> users s →
  let s1 := (register hashPassword now (Some uname) (Some pword)
               uuid sessionId s).1.1 in
  let r := login hashPassword now' (Some uname) (Some pword) sessionId' s1 in
  r.2 = Redirect (Some sessionId') ∧
  sessions r.1.1 !! sessionId'
    = Some {| userId := uuid; expires := now' + sessionLifetime |} ∧
  users r.1.1 =
    users s ++ [ {| id := uuid; username := uname;
                    password := hashPassword pword; pingTargets := [];
                    lastLogin := Some (TimeValue now') |} ].
Proof.
  intros Hu Hp Hfree s1 r. subst r s1.
  rewrite (register_accepts _ _ _ _ _ _ Hu Hp Hfree). simpl fst.
  set (newUser := {| id := uuid; username := uname;
                     password := hashPassword pword; pingTargets := [];
                     lastLogin := Some (TimeValue now) |}).
  rewrite (login_accepts _ _ _ _ _ (length (users s)) newUser).
  - simpl. split; [done|]. split; [apply lookup_insert_eq|].
    rewrite insert_app_r_alt by lia. by rewrite Nat.sub_diag.
  - simpl. apply list_find_Some. split; [by apply list_lookup_middle|].
    split.
    + split; [done|]. by destruct pword.
    + intros j u Hj Hlt [Hname _].
      rewrite lookup_app_l in Hj by done.
      apply Hfree. apply list_elem_of_fmap.
      exists u. split; [congruence | by eapply list_elem_of_lookup_2].
Qed.

End AuthProperties.

Section AuthWitnesses.
Import SessionStore Handlers.

Lemma register_then_login_witness :
  let s1 := (register (λ p, p) 1000 (Some "carol"%string) (Some "pw"%string)
               "u9" "tok1" Sample.store).1.1 in
  (login (λ p, p) 2000 (Some "carol"%string) (Some "pw"%string) "tok2" s1).2
  = Redirect (Some "tok2"%string).
Proof.
  intros s1.
  apply (register_then_login (λ p, p) 1000 "carol" "pw" "u9" "tok1"
           Sample.store 2000 "tok2").
  - discriminate.
  - discriminate.
  - apply (bool_decide_unpack _). vm_compute. exact I.
Defined.

Lemma session_lasts_a_day_witness :
  isValidSession 86401000 "tok" (createSession 1000 "tok" "u1" Sample.store)
  = (Some Sample.alice, createSession 1000 "tok" "u1" Sample.store) ∧
  (isValidSession 86401001 "tok"
     (createSession 1000 "tok" "u1" Sample.store)).1 = None.
Proof.
  split.
  - apply (session_lasts_a_day 1000 "tok" "u1" Sample.store 86401000).
    vm_compute. discriminate.
  - apply (session_lasts_a_day 1000 "tok" "u1" Sample.store 86401001).
    vm_compute. reflexivity.
Defined.

End AuthWitnesses.

(** ** More on the target list *)

Section TargetProperties.
Import Handlers.

Lemma setTargets_setTargets ts ts' u :
  setTargets ts (setTargets ts' u) = setTargets ts u.
Proof. done. Qed.

Lemma removeFromTargets_pushed u (ts : list PingTarget) :
  removeFromTargets u (ts ++ [newTarget u]) = removeFromTargets u ts.
Proof.
  unfold removeFromTargets. rewrite filter_app.
  rewrite (filter_cons_False _ (newTarget u)) by (simpl; by intros []).
  by rewrite filter_nil, app_nil_r.
Qed.

Lemma removeFromTargets_twice u (ts : list PingTarget) :
  removeFromTargets u (removeFromTargets u ts) = removeFromTargets u ts.
Proof.
  unfold removeFromTargets. apply filter_all.
  intros t Ht. apply list_elem_of_filter in Ht. tauto.
Qed.

Lemma removeFromTargets_lacks u (ts : list PingTarget) :
  u ∉ url <$> removeFromTargets u ts.
Proof.
  intros (t & -> & Ht)%list_elem_of_fmap.
  apply list_elem_of_filter in Ht as [Hne _]. done.
Qed.

(** X8: adding an accepted URL that the account does not have and then
    removing it brings the whole store back to what it was. *)
Theorem add_then_remove i u s user :
  users s !! i = Some user →
  acceptedUrl u = true →
  u ∉ url <$> pingTargets user →
  (removeUrl i (Some u) (addUrl i (Some u) s).1.1).1.1 = s.
Proof.
  intros Hi Hacc Hnew. rewrite (addUrl_pushes _ _ _ _ Hi Hacc Hnew). simpl.
  set (user1 := setTargets (pingTargets user ++ [newTarget u]) user).
  rewrite (removeUrl_nonempty _ _ _ user1).
  - simpl. rewrite list_insert_insert_eq.
    subst user1. simpl. rewrite setTargets_setTargets.
    rewrite removeFromTargets_pushed, removeFromTargets_absent by done.
    rewrite setTargets_same, list_insert_id by done. by destruct s.
  - simpl. apply list_lookup_insert_eq. by eapply lookup_lt_Some.
  - by apply acceptedUrl_nonempty.
Qed.

(** X9: removing a URL and adding it again does not give the list back:
    the target of that URL, if there was one, has left its place, and the
    list ends with a new target of that URL that was never checked. *)
Theorem remove_then_add i u s user :
  users s !! i = Some user →
  acceptedUrl u = true →
  targetsOf (addUrl i (Some u) (removeUrl i (Some u) s).1.1).1.1 i =
  filter (λ t, url t ≠ u) (pingTargets user) ++ [newTarget u].
Proof.
  intros Hi Hacc.
  rewrite (removeUrl_nonempty _ _ _ _ Hi (acceptedUrl_nonempty _ Hacc)).
  simpl.
  set (user1 := setTargets (removeFromTargets u (pingTargets user)) user).
  rewrite (addUrl_pushes _ _ _ user1).
  - simpl. unfold targetsOf. simpl.
    rewrite list_insert_insert_eq, list_lookup_insert_eq; [done|].
    by eapply lookup_lt_Some.
  - simpl. apply list_lookup_insert_eq. by eapply lookup_lt_Some.
  - done.
  - subst user1. simpl. apply removeFromTargets_lacks.
Qed.

(** X10: removing the same URL a second time changes nothing more. *)
Theorem remove_twice i o s :
  (removeUrl i o (removeUrl i o s).1.1).1.1 = (removeUrl i o s).1.1.
Proof.
  unfold removeUrl at 2 3.
  destruct (users s !! i) as [user|] eqn:Hi.
  - destruct (truthy o) as [u|] eqn:Ho; simpl.
    + unfold removeUrl. simpl. rewrite Ho.
      rewrite list_lookup_insert_eq by (by eapply lookup_lt_Some). simpl.
      rewrite list_insert_insert_eq. by rewrite removeFromTargets_twice.
    + unfold removeUrl. by rewrite Hi, Ho.
  - simpl. unfold removeUrl. by rewrite Hi.
Qed.

Lemma add_then_remove_witness :
  (removeUrl 1 (Some "https://c.example"%string)
     (addUrl 1 (Some "https://c.example"%string) Sample.watching).1.1).1.1
  = Sample.watching.
Proof.
  apply (add_then_remove 1 "https://c.example" Sample.watching Sample.bob).
  - reflexivity.
  - reflexivity.
  - apply (bool_decide_unpack _). vm_compute. exact I.
Defined.

Lemma remove_then_add_witness :
  targetsOf
    (addUrl 1 (Some "https://a.example"%string)
       (removeUrl 1 (Some "https://a.example"%string) Sample.watching).1.1).1.1
    1
  = [newTarget "http://b.example"; newTarget "https://a.example"].
Proof.
  apply (remove_then_add 1 "https://a.example" Sample.watching Sample.bob);
    reflexivity.
Defined.

End TargetProperties.

(** ** The ping-now handler *)

Section PingNowProperties.
Import Prober Sweep PingNow.

Variable net : Network.

Lemma pingOne_eq target w :
  pingOne net target w =
  (let c1 := clock w + Z.of_N (net (fetches w) (url target)).2 in
   (recordResult c1
      (pingOutcome (clock w) c1 (net (fetches w) (url target)).1) target,
    {| clock := c1; fetches := S (fetches w);
       trace := trace w ++ [Fetch (url target)] |})).
Proof. unfold pingOne. by rewrite pingUrl_eq. Qed.

(** The loop of the handler writes what the loop of the sweep writes, takes
    the same time, and has the fetches as its only effects. *)
Lemma pingEach_like_sweep user_name ts :
  ∀ w w',
    clock w = clock w' → fetches w = fetches w' →
    (pingEach net ts w).1 = (pingTargetsOf net user_name ts w').1 ∧
    clock (pingEach net ts w).2 = clock (pingTargetsOf net user_name ts w').2 ∧
    fetches (pingEach net ts w).2
      = fetches (pingTargetsOf net user_name ts w').2 ∧
    trace (pingEach net ts w).2 = trace w ++ (Fetch <$> (url <$> ts)).
Proof.
  induction ts as [|t rest IH]; intros w w' Hc Hf.
  - simpl. by rewrite app_nil_r.
  - rewrite pingTargetsOf_cons. simpl pingEach. rewrite pingOne_eq.
    cbn [fst snd]. rewrite <- Hc, <- Hf.
    match goal with
    | |- context [pingTargetsOf net user_name rest ?x] => set (w1' := x)
    end.
    match goal with
    | |- context [pingEach net rest ?x] => set (w1 := x)
    end.
    destruct (IH w1 w1') as (Hts & Hc' & Hf' & Htr); [done | done |].
    destruct (pingEach net rest w1) as [rest1 w2].
    simpl in *. rewrite Hts, Hc', Hf', Htr. subst w1. simpl.
    by rewrite <- app_assoc.
Qed.

(** X11: the ping-now handler writes to the targets of the current account
    exactly what a sweep starting at the same instant writes to them,
    leaves the other accounts and the sessions as they are, fetches the
    targets of the account in list order and nothing else, and ends with
    one save of the resulting store and the usual redirect. *)
Theorem pingNow_is_a_sweep_of_one_account i s w user :
  users s !! i = Some user →
  let r := pingNow net i s w in
  r.2 = Redirect None ∧
  users r.1.1 !! i =
    Some (Handlers.setTargets
            (pingTargetsOf net (username user) (pingTargets user) w).1 user) ∧
  (∀ j, j ≠ i → users r.1.1 !! j = users s !! j) ∧
  sessions r.1.1 = sessions s ∧
  trace r.1.2 =
    trace w ++ (Fetch <$> (url <$> pingTargets user))
      ++ [SaveUsers (users r.1.1)].
Proof.
  intros Hi r. subst r. unfold pingNow. rewrite Hi.
  destruct (pingEach_like_sweep (username user) (pingTargets user) w w)
    as (Hts & _ & _ & Htr); [done | done |].
  destruct (pingEach net (pingTargets user) w) as [ts w1]. simpl in *.
  split; [done|]. split.
  { rewrite <- Hts. apply list_lookup_insert_eq. by eapply lookup_lt_Some. }
  split; [intros j Hj; by rewrite list_lookup_insert_ne|].
  split; [done|]. by rewrite Htr, <- app_assoc.
Qed.

End PingNowProperties.

Section PingNowWitnesses.
Import Prober Sweep PingNow.

Lemma pingNow_is_a_sweep_of_one_account_witness :
  let r := pingNow Sample.healthy 1 Sample.watching Sample.midnight in
  users r.1.1 !! 0%nat = Some Sample.alice ∧
  trace r.1.2 = [Fetch "https://a.example"; Fetch "http://b.example";
                 SaveUsers (users r.1.1)].
Proof.
  intros r.
  destruct (pingNow_is_a_sweep_of_one_account Sample.healthy 1 Sample.watching
              Sample.midnight Sample.bob) as (_ & _ & Hothers & _ & Htr).
  - reflexivity.
  - split; [by apply (Hothers 0%nat) | exact Htr].
Defined.

End PingNowWitnesses.

(** ** The request listener *)

Section RouterFacts.
Import SessionStore Handlers Router.

Lemma findUserById_list_find (us : list User) uid :
  findUserById us uid = snd <$> list_find (λ u, id u = uid) us.
Proof.
  unfold findUserById. induction us as [|u us IH]; simpl; [done|].
  case_bool_decide as E.
  - by rewrite decide_True.
  - rewrite decide_False by done. rewrite IH.
    by destruct (list_find _ us) as [[??]|].
Qed.

(** [whoIs] is [isValidSession] with the position of the account. *)
Lemma whoIs_isValidSession now sessionId s :
  isValidSession now sessionId s =
  (snd <$> (whoIs now sessionId s).1, (whoIs now sessionId s).2).
Proof.
  unfold isValidSession, whoIs.
  destruct (sessions s !! sessionId) as [session|]; [|done].
  case_bool_decide; [done|]. simpl. by rewrite findUserById_list_find.
Qed.

Lemma whoIs_frame now sessionId s :
  users (whoIs now sessionId s).2 = users s ∧
  (sessions (whoIs now sessionId s).2 = sessions s ∨
   sessions (whoIs now sessionId s).2 = delete sessionId (sessions s)).
Proof.
  unfold whoIs. destruct (sessions s !! sessionId) as [session|];
    [|by split; [|right]].
  case_bool_decide; simpl; split; auto.
Qed.

Lemma whoIs_Some now sessionId s i user :
  (whoIs now sessionId s).1 = Some (i, user) →
  (whoIs now sessionId s).2 = s ∧ users s !! i = Some user.
Proof.
  unfold whoIs. destruct (sessions s !! sessionId) as [session|]; [|done].
  case_bool_decide; [done|]. simpl.
  intros (Hi & _ & _)%list_find_Some. done.
Qed.

Lemma currentUserOf_frame now cookies s :
  users (currentUserOf now cookies s).2 = users s ∧
  (sessions (currentUserOf now cookies s).2 = sessions s ∨
   ∃ k, cookies !! "sessionId"%string = Some k ∧
        sessions (currentUserOf now cookies s).2 = delete k (sessions s)).
Proof.
  unfold currentUserOf.
  destruct (cookies !! "sessionId"%string) as [k|]; [|by split; [|left]].
  destruct (whoIs_frame now k s) as [Hu [Hs|Hs]]; split; eauto.
Qed.

Lemma currentUserOf_Some now cookies s i user :
  (currentUserOf now cookies s).1 = Some (i, user) →
  (currentUserOf now cookies s).2 = s ∧ users s !! i = Some user.
Proof.
  unfold currentUserOf.
  destruct (cookies !! "sessionId"%string) as [k|]; [|done].
  apply whoIs_Some.
Qed.

Lemma isPost_other_method req path :
  method req ≠ "POST"%string → isPost req path = false.
Proof. intros H. unfold isPost. by rewrite bool_decide_eq_false_2. Qed.

Lemma isPost_other_path req path :
  pathname req ≠ path → isPost req path = false.
Proof.
  intros H. unfold isPost. rewrite (bool_decide_eq_false_2 _ H).
  apply andb_false_r.
Qed.

End RouterFacts.

Section RouterProperties.
Import SessionStore Handlers Router.

Variable hashPassword : string → string.
Variable net : Sweep.Network.

Lemma listen_parsed now uuid newSessionId inc s path :
  parsedPath inc = Some path →
  listen hashPassword net now uuid newSessionId inc s =
  let r := handle hashPassword net now uuid newSessionId
             {| method := incMethod inc; pathname := path;
                cookieHeader := incCookie inc; field := incField inc |} s in
  Answered r.1.1 r.1.2 r.2.
Proof.
  intros Hp. unfold listen. rewrite Hp.
  by destruct (handle _ _ _ _ _ _ _) as [[??]?].
Qed.

(** Once its URL has parsed, a request whose method is not POST changes
    no account and has no effect. *)
Lemma handle_other_method now uuid newSessionId req s :
  method req ≠ "POST"%string →
  let r := handle hashPassword net now uuid newSessionId req s in
  users r.1.1 = users s ∧
  r.1.2 = [] ∧
  (sessions r.1.1 = sessions s ∨
   ∃ k, Cookies.parseCookies (cookieHeader req) !! "sessionId"%string = Some k ∧
        sessions r.1.1 = delete k (sessions s)) ∧
  (r.2 = AuthPage 200 None ∨
   ∃ user, r.2 = DashboardPage user ∧ user ∈ users s).
Proof.
  intros Hm r. subst r. unfold handle.
  destruct (currentUserOf_frame now
              (Cookies.parseCookies (cookieHeader req)) s) as [Hu Hs].
  pose proof (currentUserOf_Some now
                (Cookies.parseCookies (cookieHeader req)) s) as Hsome.
  destruct (currentUserOf now _ s) as [[[i user]|] s1]; simpl in *;
    rewrite !isPost_other_method by done; simpl.
  - split; [done|]. split; [done|]. split; [done|]. right.
    exists user. split; [done|].
    destruct (Hsome i user eq_refl) as [-> Hi].
    by eapply list_elem_of_lookup_2.
  - split; [done|]. split; [done|]. split; [done|]. by left.
Qed.

(** X12: a request whose method is not POST either has a URL that
    [new URL] refuses, and then the listener throws at its first
    statement, before it reads a cookie, and answers nothing; or it
    changes no account, saves and fetches nothing, deletes of the sessions
    at most the one named by its own cookie, and is answered with the
    login page or with the dashboard of an account of the store. *)
Theorem other_methods_change_nothing now uuid newSessionId inc s :
  incMethod inc ≠ "POST"%string →
  match listen hashPassword net now uuid newSessionId inc s with
  | Thrown => parsedPath inc = None
  | Answered s' evs response =>
      is_Some (parsedPath inc) ∧
      users s' = users s ∧
      evs = [] ∧
      (sessions s' = sessions s ∨
       ∃ k, Cookies.parseCookies (incCookie inc) !! "sessionId"%string
              = Some k ∧
            sessions s' = delete k (sessions s)) ∧
      (response = AuthPage 200 None ∨
       ∃ user, response = DashboardPage user ∧ user ∈ users s)
  end.
Proof.
  intros Hm. destruct (parsedPath inc) as [path|] eqn:Hp.
  - rewrite (listen_parsed _ _ _ _ _ path Hp). cbn zeta.
    split; [done|]. by apply handle_other_method.
  - unfold listen. by rewrite Hp.
Qed.

(** Once its URL has parsed, a request without a session that
    [isValidSession] accepts gets the login page. *)
Lemma handle_without_session now uuid newSessionId req s :
  (∀ k, Cookies.parseCookies (cookieHeader req) !! "sessionId"%string = Some k →
        (isValidSession now k s).1 = None) →
  pathname req ≠ "/register"%string →
  pathname req ≠ "/login"%string →
  pathname req ≠ "/logout"%string →
  let r := handle hashPassword net now uuid newSessionId req s in
  r.2 = AuthPage 200 None ∧ r.1.2 = [] ∧ users r.1.1 = users s.
Proof.
  intros Hnone H1 H2 H3 r. subst r. unfold handle.
  destruct (currentUserOf_frame now
              (Cookies.parseCookies (cookieHeader req)) s) as [Hu _].
  assert ((currentUserOf now (Cookies.parseCookies (cookieHeader req)) s).1
          = None) as Hcur.
  { unfold currentUserOf.
    destruct (Cookies.parseCookies (cookieHeader req) !! "sessionId"%string)
      as [k|] eqn:Hk; [|done].
    specialize (Hnone k eq_refl). rewrite whoIs_isValidSession in Hnone.
    simpl in Hnone. by destruct (whoIs now k s).1. }
  destruct (currentUserOf now _ s) as [cur s1]. simpl in *. subst cur.
  by rewrite !isPost_other_path.
Qed.

(** X13: a request without a session that [isValidSession] accepts, to
    any path but those of registration, login and logout, either has a URL
    that [new URL] refuses, and then the listener throws and answers
    nothing; or it changes no account, saves and fetches nothing, and gets
    the login page. *)
Theorem no_session_no_change now uuid newSessionId inc s :
  (∀ k, Cookies.parseCookies (incCookie inc) !! "sessionId"%string = Some k →
        (isValidSession now k s).1 = None) →
  parsedPath inc ≠ Some "/register"%string →
  parsedPath inc ≠ Some "/login"%string →
  parsedPath inc ≠ Some "/logout"%string →
  match listen hashPassword net now uuid newSessionId inc s with
  | Thrown => parsedPath inc = None
  | Answered s' evs response =>
      is_Some (parsedPath inc) ∧
      response = AuthPage 200 None ∧ evs = [] ∧ users s' = users s
  end.
Proof.
  intros Hnone H1 H2 H3. destruct (parsedPath inc) as [path|] eqn:Hp.
  - rewrite (listen_parsed _ _ _ _ _ path Hp). cbn zeta.
    split; [done|]. apply handle_without_session; simpl.
    + exact Hnone.
    + intros ->. by apply H1.
    + intros ->. by apply H2.
    + intros ->. by apply H3.
  - unfold listen. by rewrite Hp.
Qed.

End RouterProperties.

Section RouterSessions.
Import SessionStore Handlers Router.

Variable hashPassword : string → string.
Variable net : Sweep.Network.

Lemma list_find_by_id (us : list User) i u :
  NoDup (id <$> us) → us !! i = Some u →
  list_find (λ v, id v = id u) us = Some (i, u).
Proof.
  intros Hnd Hi. apply list_find_Some. split; [done|]. split; [done|].
  intros j v Hj Hlt Hid.
  assert (j = i); [|lia].
  apply (NoDup_lookup (id <$> us) j i (id u)); [done|..].
  - by rewrite list_lookup_fmap, Hj; simpl; rewrite Hid.
  - by rewrite list_lookup_fmap, Hi.
Qed.

Lemma list_find_by_name (us : list User) i u pw :
  NoDup (username <$> us) → us !! i = Some u →
  password u = pw →
  list_find (λ v, Some (username v) = Some (username u) ∧ password v = pw) us
  = Some (i, u).
Proof.
  intros Hnd Hi Hpw. apply list_find_Some. split; [done|]. split; [done|].
  intros j v Hj Hlt [[= Hname] _].
  assert (j = i); [|lia].
  apply (NoDup_lookup (username <$> us) j i (username u)); [done|..].
  - by rewrite list_lookup_fmap, Hj; simpl; rewrite Hname.
  - by rewrite list_lookup_fmap, Hi.
Qed.

(** Once the URLs have parsed, a login opens a session that later
    requests are served under. *)
Lemma handle_login_then_dashboard now uuid sessionId req s i user pword :
  method req = "POST"%string →
  pathname req = "/login"%string →
  field req "username"%string = Some (username user) →
  field req "password"%string = Some pword →
  pword ≠ ""%string →
  users s !! i = Some user →
  password user = hashPassword pword →
  NoDup (username <$> users s) →
  ids_unique s →
  Cookies.plainToken sessionId = true →
  let r := handle hashPassword net now uuid sessionId req s in
  r.2 = Redirect (Some sessionId) ∧
  ∀ now' uuid' sessionId' req',
    method req' ≠ "POST"%string →
    cookieHeader req' = "sessionId=" +:+ sessionId →
    now' ≤ now + sessionLifetime →
    handle hashPassword net now' uuid' sessionId' req' r.1.1 =
    (r.1.1, [], DashboardPage (setLastLogin (TimeValue now) user)).
Proof.
  intros Hm Hp Hfu Hfp Hpw Hi Hpass Hnames Hids Htok r.
  set (users' := <[i := setLastLogin (TimeValue now) user]> (users s)).
  assert (∃ m, r = (createSession now sessionId (id user)
                      {| users := users'; sessions := m |},
                    [SaveUsers users'], Redirect (Some sessionId)))
    as [m Hr].
  { subst r. unfold handle.
    destruct (currentUserOf_frame now
                (Cookies.parseCookies (cookieHeader req)) s) as [Hu _].
    destruct (currentUserOf now _ s) as [cur s1]. simpl in Hu.
    rewrite (isPost_other_path req "/register") by (rewrite Hp; discriminate).
    assert (isPost req "/login" = true) as ->.
    { unfold isPost. by rewrite !bool_decide_eq_true_2. }
    rewrite Hfu, Hfp.
    rewrite (login_accepts hashPassword now (username user) pword sessionId
               s1 i user).
    - exists (sessions s1). simpl. by rewrite Hu.
    - rewrite Hu, truthy_id by done. simpl. by apply list_find_by_name. }
  rewrite Hr. simpl. split; [done|].
  intros now' uuid' sessionId' req' Hm' Hc' Hnow'.
  set (s2 := createSession now sessionId (id user)
               {| users := users'; sessions := m |}).
  unfold handle. rewrite Hc'.
  unfold currentUserOf. rewrite parseCookies_session by done.
  unfold whoIs.
  assert (sessions s2 !! sessionId =
          Some {| userId := id user; expires := now + sessionLifetime |}) as ->
    by apply lookup_insert_eq.
  rewrite bool_decide_eq_false_2 by (simpl; lia). simpl.
  pose proof (list_find_by_id users' i (setLastLogin (TimeValue now) user))
    as Hfind.
  simpl in Hfind. rewrite Hfind.
  - by rewrite !isPost_other_method.
  - subst users'. by rewrite (insert_keeps_ids (users s) i user).
  - subst users'. apply list_lookup_insert_eq. by eapply lookup_lt_Some.
Qed.

(** X14: a login with the name and password of an account, on a request
    whose URL parses to the path of the login, answers with a session
    cookie; and up to 24 hours later any request that is not a POST and
    carries that cookie is answered with the dashboard of that account,
    its last login set to the instant of the login, and changes nothing,
    unless [new URL] refuses its URL, in which case the listener throws
    and answers nothing. *)
Theorem login_then_dashboard now uuid sessionId inc s i user pword :
  incMethod inc = "POST"%string →
  parsedPath inc = Some "/login"%string →
  incField inc "username"%string = Some (username user) →
  incField inc "password"%string = Some pword →
  pword ≠ ""%string →
  users s !! i = Some user →
  password user = hashPassword pword →
  NoDup (username <$> users s) →
  ids_unique s →
  Cookies.plainToken sessionId = true →
  ∃ s1 evs,
    listen hashPassword net now uuid sessionId inc s =
      Answered s1 evs (Redirect (Some sessionId)) ∧
    ∀ now' uuid' sessionId' inc',
      incMethod inc' ≠ "POST"%string →
      incCookie inc' = "sessionId=" +:+ sessionId →
      now' ≤ now + sessionLifetime →
      listen hashPassword net now' uuid' sessionId' inc' s1 =
      match parsedPath inc' with
      | Some _ =>
          Answered s1 [] (DashboardPage (setLastLogin (TimeValue now) user))
      | None => Thrown
      end.
Proof.
  intros Hm Hp Hfu Hfp Hpw Hi Hpass Hnames Hids Htok.
  set (req := {| method := incMethod inc; pathname := "/login";
                 cookieHeader := incCookie inc; field := incField inc |}).
  destruct (handle_login_then_dashboard now uuid sessionId req s i user pword)
    as [Hanswer Hlater]; try done.
  rewrite (listen_parsed hashPassword net _ _ _ _ _ _ Hp). cbn zeta. fold req.
  eexists _, _. split; [by rewrite Hanswer|].
  intros now' uuid' sessionId' inc' Hm' Hc' Hnow'.
  destruct (parsedPath inc') as [path|] eqn:Hp'.
  - rewrite (listen_parsed hashPassword net _ _ _ _ _ path Hp'). cbn zeta.
    by rewrite Hlater.
  - unfold listen. by rewrite Hp'.
Qed.

(** X15: a POST to /logout with a session cookie deletes that session and
    nothing else, saves nothing, and answers with the redirect that clears
    the cookie; from then on [isValidSession] refuses the token. *)
Theorem logout_ends_the_session now uuid newSessionId req s sessionId :
  method req = "POST"%string →
  pathname req = "/logout"%string →
  cookieHeader req = "sessionId=" +:+ sessionId →
  Cookies.plainToken sessionId = true →
  let r := handle hashPassword net now uuid newSessionId req s in
  r.2 = Redirect (Some ""%string) ∧
  r.1.2 = [] ∧
  users r.1.1 = users s ∧
  sessions r.1.1 = delete sessionId (sessions s) ∧
  ∀ now', isValidSession now' sessionId r.1.1 = (None, r.1.1).
Proof.
  intros Hm Hp Hc Htok r. subst r. unfold handle.
  rewrite Hc.
  pose proof (parseCookies_session _ Htok) as Hcookie.
  destruct (currentUserOf_frame now
              (Cookies.parseCookies ("sessionId=" +:+ sessionId)) s)
    as [Hu Hs].
  destruct (currentUserOf now _ s) as [cur s1]. simpl in Hu, Hs.
  rewrite (isPost_other_path req "/register") by (rewrite Hp; discriminate).
  rewrite (isPost_other_path req "/login") by (rewrite Hp; discriminate).
  assert (isPost req "/logout" = true) as ->.
  { unfold isPost. by rewrite !bool_decide_eq_true_2. }
  unfold logout. rewrite Hcookie.
  rewrite truthy_id by (by apply plainToken_nonempty).
  simpl. split; [done|]. split; [done|]. split; [done|].
  assert (delete sessionId (sessions s1) = delete sessionId (sessions s)) as Hd.
  { destruct Hs as [->|(k & Hk & ->)]; [done|].
    rewrite Hcookie in Hk. injection Hk as <-. apply delete_delete_eq. }
  split; [done|]. intros now'. apply isValidSession_absent. simpl.
  apply lookup_delete_eq.
Qed.

End RouterSessions.

(** ** What is saved is what is in memory *)

Section SavedFacts.
Import SessionStore Handlers Router.

Lemma savedInStep_nil us : savedInStep us us [].
Proof. split; [by intros ? ?%elem_of_nil | done]. Qed.

Lemma savedInStep_one before after : savedInStep before after [SaveUsers after].
Proof.
  split; [|done]. intros snapshot Hin.
  apply list_elem_of_singleton in Hin. by injection Hin.
Qed.

Lemma savedInStep_fetches before after urls :
  savedInStep before after ((Fetch <$> urls) ++ [SaveUsers after]).
Proof.
  split; [|by rewrite last_snoc]. intros snapshot Hin.
  apply elem_of_app in Hin as [Hin|Hin].
  - apply list_elem_of_fmap in Hin as (? & ? & _). done.
  - apply list_elem_of_singleton in Hin. by injection Hin.
Qed.

Variable hashPassword : string → string.

Lemma register_saved now uname pword uuid sessionId s :
  let r := register hashPassword now uname pword uuid sessionId s in
  savedInStep (users s) (users r.1.1) r.1.2.
Proof.
  unfold register. destruct (truthy uname) as [name|]; [|apply savedInStep_nil].
  destruct (truthy pword) as [pw|]; [|apply savedInStep_nil].
  destruct (List.find _ (users s)); [apply savedInStep_nil|].
  apply savedInStep_one.
Qed.

Lemma login_saved now uname pword sessionId s :
  let r := login hashPassword now uname pword sessionId s in
  savedInStep (users s) (users r.1.1) r.1.2.
Proof.
  unfold login. destruct (list_find _ (users s)) as [[i user]|];
    [apply savedInStep_one | apply savedInStep_nil].
Qed.

Lemma logout_saved cookie s :
  savedInStep (users s) (users (logout cookie s).1.1) (logout cookie s).1.2.
Proof.
  unfold logout. simpl. destruct (truthy cookie); apply savedInStep_nil.
Qed.

Lemma addUrl_saved i o s :
  savedInStep (users s) (users (addUrl i o s).1.1) (addUrl i o s).1.2.
Proof.
  unfold addUrl. destruct (users s !! i) as [user|]; [|apply savedInStep_nil].
  destruct (truthy o) as [new|]; [|apply savedInStep_nil].
  destruct (acceptedUrl new); [|apply savedInStep_nil].
  destruct (addToTargets new _); [apply savedInStep_one | apply savedInStep_nil].
Qed.

Lemma removeUrl_saved i o s :
  savedInStep (users s) (users (removeUrl i o s).1.1) (removeUrl i o s).1.2.
Proof.
  unfold removeUrl. destruct (users s !! i) as [user|]; [|apply savedInStep_nil].
  destruct (truthy o) as [gone|]; [apply savedInStep_one | apply savedInStep_nil].
Qed.

End SavedFacts.

Section SavedProperties.
Import SessionStore Handlers Router.

Variable hashPassword : string → string.
Variable net : Sweep.Network.

(** X16: whatever a request, a tick of the reaper or a sweep saves is the
    list of accounts it leaves in memory; and when it leaves a list of
    accounts other than the one it found, its last effect is to save
    it. *)
Theorem saved_is_in_memory :
  (∀ now uuid newSessionId req s,
     let r := handle hashPassword net now uuid newSessionId req s in
     savedInStep (users s) (users r.1.1) r.1.2) ∧
  (∀ now s,
     let r := Reaper.cleanupInactiveAccounts now s in
     savedInStep (users s) (users r.1) r.2) ∧
  (∀ s w,
     let r := Sweep.pingAllUrls net s w in
     ∃ evs, Sweep.trace r.2 = Sweep.trace w ++ evs ∧
            savedInStep (users s) (users r.1) evs).
Proof.
  split; [|split].
  - intros now uuid newSessionId req s r. subst r. unfold handle.
    destruct (currentUserOf_frame now
                (Cookies.parseCookies (cookieHeader req)) s) as [Hu _].
    pose proof (currentUserOf_Some now
                  (Cookies.parseCookies (cookieHeader req)) s) as Hsome.
    destruct (currentUserOf now _ s) as [cur s1]. simpl in Hu, Hsome.
    rewrite <- Hu.
    destruct (isPost req "/register"); [apply register_saved|].
    destruct (isPost req "/login"); [apply login_saved|].
    destruct (isPost req "/logout"); [apply logout_saved|].
    destruct cur as [[i user]|]; [|apply savedInStep_nil].
    destruct (isPost req "/add"); [apply addUrl_saved|].
    destruct (isPost req "/remove"); [apply removeUrl_saved|].
    destruct (isPost req "/ping-now"); [|apply savedInStep_nil].
    destruct (Hsome i user eq_refl) as [-> Hi].
    destruct (pingEach_like_sweep net (username user) (pingTargets user)
                {| Sweep.clock := now; Sweep.fetches := 0; Sweep.trace := [] |}
                {| Sweep.clock := now; Sweep.fetches := 0; Sweep.trace := [] |}
                eq_refl eq_refl) as (_ & _ & _ & Htr).
    unfold PingNow.pingNow. rewrite Hi.
    destruct (PingNow.pingEach net (pingTargets user) _) as [ts w1].
    simpl in *. rewrite Htr. apply savedInStep_fetches.
  - intros now s r. subst r. unfold Reaper.cleanupInactiveAccounts.
    case_bool_decide as Hd; simpl.
    + split.
      * intros snapshot Hin. apply elem_of_cons in Hin as [?|Hin]; [done|].
        apply list_elem_of_singleton in Hin. by injection Hin.
      * done.
    + split; [by intros ? ?%elem_of_nil|]. intros Hne. destruct Hne.
      destruct (filter_shorter_or_same
                  (λ user, Reaper.keepUser (Reaper.twoDaysAgo now) user)
                  (users s)) as [Hlt|Heq]; [lia | done].
  - intros s w r. subst r. rewrite pingAllUrls_eq. simpl.
    destruct (pingUsers_spec net (users s)
                (Sweep.emit (ConsoleLog (LogStartCycle (Sweep.clock w))) w))
      as (_ & _ & _ & evs & Ht & _ & Hs).
    eexists. split.
    + rewrite Ht. simpl. rewrite <- !app_assoc. reflexivity.
    + split; [|intros _; by rewrite !app_assoc, last_snoc].
      intros snapshot Hin. simpl in Hin.
      apply elem_of_cons in Hin as [?|Hin]; [done|].
      apply elem_of_app in Hin as [Hin|Hin].
      * by pose proof (proj1 (Forall_forall _ _) Hs _ Hin).
      * apply list_elem_of_singleton in Hin. by injection Hin.
Qed.

End SavedProperties.

Section RouterWitnesses.
Import SessionStore Handlers Router.

(** A GET with the cookie of alice gets her dashboard; the same GET with
    a URL that [new URL] refuses gets no answer. *)
Lemma other_methods_change_nothing_witness :
  listen (λ p, p) Sample.healthy 5000 "u9" "tok9"
    (Sample.unparsable "sessionId=tokA") Sample.store = Thrown ∧
  match listen (λ p, p) Sample.healthy 5000 "u9" "tok9"
          (Sample.arriving (Sample.home "sessionId=tokA")) Sample.store with
  | Thrown => False
  | Answered s' evs response =>
      users s' = users Sample.store ∧ evs = [] ∧
      (response = AuthPage 200 None ∨
       ∃ user, response = DashboardPage user ∧ user ∈ users Sample.store)
  end.
Proof.
  split; [reflexivity|].
  pose proof (other_methods_change_nothing (λ p, p) Sample.healthy 5000 "u9"
                "tok9" (Sample.arriving (Sample.home "sessionId=tokA"))
                Sample.store) as H.
  destruct (listen _ _ _ _ _ _ _) as [s' evs response|].
  - destruct H as (_ & Hu & He & _ & Hr); [discriminate|].
    split; [exact Hu|]. split; [exact He | exact Hr].
  - discriminate H. discriminate.
Defined.

Lemma no_session_no_change_witness :
  match listen (λ p, p) Sample.healthy 5000 "u9" "tok9"
          (Sample.arriving
             (Sample.post "/add" "sessionId=nope"
                (Some "https://x.example"%string)))
          Sample.store with
  | Thrown => False
  | Answered s' evs response =>
      response = AuthPage 200 None ∧ evs = [] ∧
      users s' = users Sample.store
  end.
Proof.
  pose proof (no_session_no_change (λ p, p) Sample.healthy 5000 "u9" "tok9"
                (Sample.arriving
                   (Sample.post "/add" "sessionId=nope"
                      (Some "https://x.example"%string)))
                Sample.store) as H.
  destruct (listen _ _ _ _ _ _ _) as [s' evs response|].
  - destruct H as (_ & H); [|discriminate..|exact H].
    intros k Hk. vm_compute in Hk. injection Hk as <-. reflexivity.
  - discriminate H; [|discriminate..].
    intros k Hk. vm_compute in Hk. injection Hk as <-. reflexivity.
Defined.

Lemma login_then_dashboard_witness :
  ∃ s1 evs,
    listen (λ p, p) Sample.healthy 6000 "u9" "tok9"
      (Sample.arriving Sample.loginForm) Sample.store =
      Answered s1 evs (Redirect (Some "tok9"%string)) ∧
    listen (λ p, p) Sample.healthy 7000 "u8" "tok8"
      (Sample.arriving (Sample.home "sessionId=tok9")) s1 =
      Answered s1 [] (DashboardPage (setLastLogin (TimeValue 6000) Sample.alice)) ∧
    listen (λ p, p) Sample.healthy 7000 "u8" "tok8"
      (Sample.unparsable "sessionId=tok9") s1 = Thrown.
Proof.
  destruct (login_then_dashboard (λ p, p) Sample.healthy 6000 "u9" "tok9"
              (Sample.arriving Sample.loginForm) Sample.store 0 Sample.alice
              "h")
    as (s1 & evs & Hanswer & Hlater); try reflexivity.
  - discriminate.
  - apply (bool_decide_unpack _). vm_compute. exact I.
  - apply (bool_decide_unpack _). vm_compute. exact I.
  - exists s1, evs. split; [exact Hanswer|]. split.
    + apply (Hlater 7000 "u8" "tok8"
               (Sample.arriving (Sample.home "sessionId=tok9"))).
      * discriminate.
      * reflexivity.
      * vm_compute. discriminate.
    + apply (Hlater 7000 "u8" "tok8" (Sample.unparsable "sessionId=tok9")).
      * discriminate.
      * reflexivity.
      * vm_compute. discriminate.
Defined.

Lemma logout_ends_the_session_witness :
  sessions (handle (λ p, p) Sample.healthy 5000 "u9" "tok9"
              (Sample.post "/logout" "sessionId=tokA" None) Sample.store).1.1
  = delete "tokA"%string (sessions Sample.store).
Proof.
  apply (logout_ends_the_session (λ p, p) Sample.healthy 5000 "u9" "tok9"
           (Sample.post "/logout" "sessionId=tokA" None) Sample.store "tokA");
    reflexivity.
Defined.

End RouterWitnesses.

(** ** How long a sweep takes, and the order of its stamps *)

Section SweepTiming.
Import Prober Sweep.

Variable net : Network.

Lemma delays_app n a b :
  delays net n (a ++ b) = delays net n a + delays net (n + length a) b.
Proof.
  revert n. induction a as [|u a IH]; intros n; simpl.
  - by rewrite Nat.add_0_r.
  - rewrite IH. replace (S n + length a)%nat with (n + S (length a))%nat by lia.
    lia.
Qed.

Lemma delays_nonneg n urls : 0 ≤ delays net n urls.
Proof.
  revert n. induction urls as [|u rest IH]; intros n; cbn [delays]; [lia|].
  specialize (IH (S n)). lia.
Qed.

Lemma delays_bound n urls :
  honoursTimeout net →
  0 ≤ delays net n urls ≤ Z.of_N timeout * Z.of_nat (length urls).
Proof.
  intros Ht. revert n.
  induction urls as [|u rest IH]; intros n; cbn [delays length].
  - lia.
  - specialize (IH (S n)). specialize (Ht n u). unfold timeout in *. lia.
Qed.

Lemma ascending_cons c (ts : list Z) :
  EventLoop.ascending ts = true → Forall (λ t, c ≤ t) ts →
  EventLoop.ascending (c :: ts) = true.
Proof.
  intros Hasc Hall. destruct ts as [|t ts]; [done|].
  apply Forall_cons in Hall as [Hc _]. simpl in *.
  by rewrite bool_decide_eq_true_2.
Qed.

Lemma ascending_app (l1 l2 : list Z) c :
  EventLoop.ascending l1 = true → EventLoop.ascending l2 = true →
  Forall (λ t, t ≤ c) l1 → Forall (λ t, c ≤ t) l2 →
  EventLoop.ascending (l1 ++ l2) = true.
Proof.
  intros H1 H2 Hle Hge. induction l1 as [|t l1 IH]; [done|].
  apply Forall_cons in Hle as [Ht Hle].
  assert (EventLoop.ascending l1 = true) as Hl1.
  { destruct l1 as [|t' l1]; [done|]. simpl in H1.
    by apply andb_true_iff in H1 as [_ ?]. }
  simpl app. apply ascending_cons; [by apply IH|].
  apply Forall_app. split.
  - destruct l1 as [|t' l1]; [done|]. simpl in H1.
    apply andb_true_iff in H1 as [Htt' _]. apply bool_decide_eq_true in Htt'.
    clear IH Hle. revert t Htt' Ht. revert Hl1. revert t'.
    induction l1 as [|t'' l1 IH]; intros t' Hl1 t Htt' Ht.
    + by repeat constructor.
    + simpl in Hl1. apply andb_true_iff in Hl1 as [Hle' Hl1].
      apply bool_decide_eq_true in Hle'. constructor; [done|].
      apply (IH t'' Hl1 t); lia.
  - eapply Forall_impl; [exact Hge|]. intros x Hx; simpl in *; lia.
Qed.

(** The targets of one account: time taken, and stamps in order and
    within the time of the loop. *)
Lemma pingTargetsOf_timing user_name ts w :
  let r := pingTargetsOf net user_name ts w in
  clock r.2 = clock w + delays net (fetches w) (url <$> ts) ∧
  fetches r.2 = (fetches w + length ts)%nat ∧
  EventLoop.ascending (omap lastPing r.1) = true ∧
  Forall (λ t, clock w ≤ t ≤ clock r.2) (omap lastPing r.1).
Proof.
  revert w. induction ts as [|t rest IH]; intros w.
  - simpl. split; [lia|]. split; [lia|]. by split.
  - rewrite pingTargetsOf_cons. cbn [fst snd].
    match goal with
    | |- context [pingTargetsOf net user_name rest ?x] => set (w1 := x)
    end.
    destruct (IH w1) as (Hc & Hf & Hasc & Hall). clear IH.
    pose proof (N2Z.is_nonneg (net (fetches w) (url t)).2) as Hd.
    assert (clock w1 = clock w + Z.of_N (net (fetches w) (url t)).2) as Hc1
      by done.
    assert (fetches w1 = S (fetches w)) as Hf1 by done.
    rewrite Hc1, Hf1 in *.
    split; [rewrite Hc, fmap_cons; cbn [delays]; lia|].
    split; [rewrite Hf; cbn [length]; lia|].
    destruct (pingOutcome_fulfils (clock w)
                (clock w + Z.of_N (net (fetches w) (url t)).2)
                (net (fetches w) (url t)).1) as (result & Hres & _).
    rewrite Hres. cbn [recordResult omap lastPing list_omap].
    pose proof (delays_nonneg (S (fetches w)) (url <$> rest)) as Hpos.
    split.
    + apply ascending_cons; [done|].
      eapply Forall_impl; [exact Hall|]. intros x Hx; simpl in *; lia.
    + constructor; [lia|].
      eapply Forall_impl; [exact Hall|]. intros x Hx; simpl in *; lia.
Qed.

Lemma omap_lastPing_allTargets_cons user rest :
  omap lastPing (allTargets (user :: rest)) =
  omap lastPing (pingTargets user) ++ omap lastPing (allTargets rest).
Proof. rewrite allTargets_cons. apply omap_app. Qed.

Lemma pingUsers_timing us w :
  let r := pingUsers net us w in
  clock r.2 = clock w + delays net (fetches w) (url <$> allTargets us) ∧
  fetches r.2 = (fetches w + length (allTargets us))%nat ∧
  EventLoop.ascending (omap lastPing (allTargets r.1)) = true ∧
  Forall (λ t, clock w ≤ t ≤ clock r.2) (omap lastPing (allTargets r.1)).
Proof.
  revert w. induction us as [|user rest IH]; intros w.
  - simpl. split; [lia|]. split; [lia|]. by split.
  - rewrite pingUsers_cons. cbn [fst snd].
    destruct (pingTargetsOf_timing (username user) (pingTargets user) w)
      as (Hc1 & Hf1 & Hasc1 & Hall1).
    destruct (IH (pingTargetsOf net (username user) (pingTargets user) w).2)
      as (Hc2 & Hf2 & Hasc2 & Hall2). clear IH.
    set (r1 := pingTargetsOf net (username user) (pingTargets user) w) in *.
    set (r2 := pingUsers net rest r1.2) in *.
    rewrite allTargets_cons, fmap_app, delays_app, length_app, length_fmap.
    split; [rewrite Hc2, Hc1, Hf1; lia|].
    split; [rewrite Hf2, Hf1; lia|].
    rewrite omap_lastPing_allTargets_cons. simpl pingTargets.
    assert (clock w ≤ clock r1.2 ≤ clock r2.2) as Hclk.
    { destruct (pingUsers_spec net rest r1.2) as (_ & Hm2 & _).
      destruct (pingTargetsOf_spec net (username user) (pingTargets user) w)
        as (_ & Hm1 & _).
      fold r1 in Hm1. fold r2 in Hm2. lia. }
    split.
    + apply (ascending_app _ _ (clock r1.2)); [done | done | |].
      * eapply Forall_impl; [exact Hall1|]. intros x Hx; simpl in *; lia.
      * eapply Forall_impl; [exact Hall2|]. intros x Hx; simpl in *; lia.
    + apply Forall_app. split.
      * eapply Forall_impl; [exact Hall1|]. intros x Hx; simpl in *; lia.
      * eapply Forall_impl; [exact Hall2|]. intros x Hx; simpl in *; lia.
Qed.

(** X17: a sweep takes the time of its fetches, one after the other:
    the clock at its end is the clock at its start plus the sum of the
    times the fetches took; with fetches that honour their timeout of ten
    seconds, that is at most ten seconds per target. *)
Theorem sweep_takes_the_sum_of_its_fetches s w :
  let r := pingAllUrls net s w in
  clock r.2 = clock w + delays net (fetches w) (url <$> allTargets (users s)) ∧
  (honoursTimeout net →
   clock w ≤ clock r.2 ≤
   clock w + 10000 * Z.of_nat (length (allTargets (users s)))).
Proof.
  intros r. subst r. rewrite pingAllUrls_eq. simpl.
  destruct (pingUsers_timing (users s)
              (emit (ConsoleLog (LogStartCycle (clock w))) w))
    as (Hc & _). simpl in Hc.
  split; [done|]. intros Ht. rewrite Hc.
  pose proof (delays_bound (fetches w) (url <$> allTargets (users s)) Ht) as Hb.
  rewrite length_fmap in Hb. unfold timeout in Hb. lia.
Qed.

End SweepTiming.

Section SweepTimingWitnesses.
Import Prober Sweep.

Lemma sweep_takes_the_sum_of_its_fetches_witness :
  let r := pingAllUrls Sample.down Sample.watching Sample.midnight in
  clock r.2 = 1020000 ∧ clock r.2 ≤ 1000000 + 10000 * 2.
Proof.
  intros r.
  destruct (sweep_takes_the_sum_of_its_fetches Sample.down Sample.watching
              Sample.midnight) as [Hsum Hbound].
  split; [exact Hsum|]. apply Hbound.
  intros n u. vm_compute. discriminate.
Defined.

End SweepTimingWitnesses.

(** ** More on the timer loop *)

Section LoopProperties.
Import Prober EventLoop.

Lemma count_app f evs1 evs2 :
  count f (evs1 ++ evs2) = (count f evs1 + count f evs2)%nat.
Proof. unfold count. by rewrite List.filter_app, length_app. Qed.

Lemma resume_trace i j L :
  trace (resume i j L) =
  trace L ++
  [match seek (store L) i j with
   | Some (_, _, target) => Fetch (url target)
   | None => SaveUsers (store L)
   end].
Proof. unfold resume. by destruct (seek (store L) i j) as [[[??]?]|]. Qed.

(** What starting or resuming a call adds to the count of the calls that
    run and of the saves. *)
Lemma resume_counts i j L :
  (count is_save (trace (resume i j L)) + length (running (resume i j L))
   = S (count is_save (trace L) + length (running L)))%nat ∧
  count opens (trace (resume i j L)) = count opens (trace L).
Proof.
  rewrite resume_trace, resume_running, !count_app, length_app.
  destruct (seek (store L) i j) as [[[??]?]|]; simpl; split; unfold count;
    simpl; lia.
Qed.

(** X19: at any time the sweeps that the timer has started are those that
    have saved and those that still run: every sweep saves once, at its
    end, also when sweeps overlap. *)
Theorem every_sweep_saves_once t0 us L :
  reachable t0 us L →
  count opens (trace L)
  = (count is_save (trace L) + length (running L))%nat.
Proof.
  induction 1 as [|L L' _ IH Hstep]; [done|].
  destruct Hstep as [L d|L Hdue|L k r L' Hsettle].
  - done.
  - unfold fire.
    match goal with
    | |- context [resume 0 0 ?M] =>
        destruct (resume_counts 0 0 M) as [Hsum Hopen]
    end.
    rewrite Hopen, Hsum. simpl. rewrite !count_app. unfold count at 2 4.
    simpl. lia.
  - unfold settle in Hsettle.
    destruct (running L !! k) as [p|] eqn:Hk; simpl in Hsettle; [|done].
    destruct (store L !! atUser p) as [user|]; simpl in Hsettle; [|done].
    destruct (pingTargets user !! atTarget p) as [target|];
      simpl in Hsettle; [|done].
    injection Hsettle as <-.
    match goal with
    | |- context [resume ?i ?j ?M] =>
        destruct (resume_counts i j M) as [Hsum Hopen]
    end.
    rewrite Hopen, Hsum. simpl. rewrite !count_app. unfold count at 2 4.
    simpl. rewrite length_delete by eauto.
    apply lookup_lt_Some in Hk. lia.
Qed.

Lemma shape_insert (us : list User) i user user' :
  us !! i = Some user →
  id user' = id user → username user' = username user →
  password user' = password user → lastLogin user' = lastLogin user →
  url <$> pingTargets user' = url <$> pingTargets user →
  shape (<[i := user']> us) = shape us.
Proof.
  intros Hi H1 H2 H3 H4 H5. unfold shape. rewrite list_fmap_insert.
  apply list_insert_id. rewrite list_lookup_fmap, Hi. simpl.
  by rewrite H1, H2, H3, H4, H5.
Qed.

Lemma recordResult_url now r target : url (recordResult now r target) = url target.
Proof. by destruct r. Qed.

(** X20: whatever the timer and the network do, the loop changes nothing
    of the accounts but the status and the last-check instant of their
    targets: the accounts, their identifiers, names, digests and last
    logins, and for each the URLs of its targets, in their order, stay as
    they were loaded. *)
Theorem loop_keeps_the_shape t0 us L :
  reachable t0 us L → shape (store L) = shape us.
Proof.
  induction 1 as [|L L' _ IH Hstep]; [done|].
  destruct Hstep as [L d|L Hdue|L k r L' Hsettle].
  - done.
  - by destruct (fire_frame L) as (_ & -> & _).
  - unfold settle in Hsettle.
    destruct (running L !! k) as [p|]; simpl in Hsettle; [|done].
    destruct (store L !! atUser p) as [user|] eqn:Hi; simpl in Hsettle;
      [|done].
    destruct (pingTargets user !! atTarget p) as [target|] eqn:Hj;
      simpl in Hsettle; [|done].
    injection Hsettle as <-.
    match goal with
    | |- context [resume ?i ?j ?M] =>
        destruct (resume_frame i j M) as (_ & _ & -> & _)
    end.
    simpl. rewrite <- IH. apply (shape_insert _ _ user); try done.
    simpl. rewrite list_fmap_insert, recordResult_url.
    apply list_insert_id. by rewrite list_lookup_fmap, Hj.
Qed.

End LoopProperties.

Section LoopWitnesses.
Import Prober EventLoop.

Lemma every_sweep_saves_once_witness :
  count opens (trace Sample.twoTicks)
  = (count is_save (trace Sample.twoTicks)
     + length (running Sample.twoTicks))%nat.
Proof.
  apply (every_sweep_saves_once 0 (users Sample.watching) Sample.twoTicks
           twoTicks_reachable).
Defined.

End LoopWitnesses.

(** ** More invariants over the life of the server *)

Section LifecycleProperties.
Import Prober Lifecycle Handlers.

Variable hashPassword : string → string.

Lemma insert_keeps_names (us : list User) i user user' :
  us !! i = Some user → username user' = username user →
  username <$> <[i := user']> us = username <$> us.
Proof.
  intros Hi Hname. rewrite list_fmap_insert, Hname.
  apply list_insert_id. by rewrite list_lookup_fmap, Hi.
Qed.

Lemma perform_keeps_names s a :
  names_unique s → names_unique (perform hashPassword s a).
Proof.
  unfold names_unique. intros H. destruct a; simpl.
  - unfold register.
    destruct (truthy uname) as [name|]; [|done].
    destruct (truthy pword) as [pw|]; [|done].
    destruct (List.find _ (users s)) eqn:E; [done|]. simpl.
    rewrite fmap_app. apply NoDup_app. split; [done|].
    split; [|apply NoDup_singleton].
    intros x Hx ->%list_elem_of_singleton.
    by apply (proj1 (find_username_None name (users s)) E).
  - unfold login.
    destruct (list_find _ (users s)) as [[i user]|] eqn:E; [|done].
    apply list_find_Some in E as (Hi & _ & _). simpl.
    by rewrite (insert_keeps_names _ _ user).
  - unfold logout. simpl. by destruct (truthy cookie).
  - unfold SessionStore.isValidSession.
    destruct (sessions s !! sessionId) as [session|]; [|done].
    by case_bool_decide.
  - unfold addUrl.
    destruct (users s !! currentUser) as [user|] eqn:Hi; [|done].
    destruct (truthy newUrl) as [new|]; [|done].
    destruct (acceptedUrl new); [|done].
    destruct (addToTargets new (pingTargets user)); [|done]. simpl.
    by rewrite (insert_keeps_names _ _ user).
  - unfold removeUrl.
    destruct (users s !! currentUser) as [user|] eqn:Hi; [|done].
    destruct (truthy urlToRemove) as [gone|]; [|done]. simpl.
    by rewrite (insert_keeps_names _ _ user).
  - unfold writeTarget.
    destruct (users s !! i) as [user|] eqn:Hi; [|done].
    destruct (pingTargets user !! j); [|done]. simpl.
    by rewrite (insert_keeps_names _ _ user).
  - rewrite cleanup_users. eapply sublist_NoDup; [exact H|].
    apply fmap_sublist, sublist_filter.
Qed.

Lemma addToTargets_accepted new ts ts' :
  acceptedUrl new = true →
  Forall (λ t, acceptedUrl (url t) = true) ts →
  addToTargets new ts = Some ts' →
  Forall (λ t, acceptedUrl (url t) = true) ts'.
Proof.
  intros Hacc Hall. unfold addToTargets.
  destruct (List.find _ ts); [done|]. intros [= <-].
  apply Forall_app. split; [done|]. by repeat constructor.
Qed.

Lemma perform_keeps_accepted s a :
  urls_accepted s → urls_accepted (perform hashPassword s a).
Proof.
  unfold urls_accepted. intros H. destruct a; simpl.
  - unfold register.
    destruct (truthy uname) as [name|]; [|done].
    destruct (truthy pword) as [pw|]; [|done].
    destruct (List.find _ (users s)); [done|].
    apply Forall_app. split; [done|]. by repeat constructor.
  - unfold login.
    destruct (list_find _ (users s)) as [[i user]|] eqn:E; [|done].
    apply list_find_Some in E as (Hi & _ & _).
    apply Forall_insert; [done|]. simpl.
    by apply (proj1 (Forall_lookup _ _) H i).
  - unfold logout. simpl. by destruct (truthy cookie).
  - unfold SessionStore.isValidSession.
    destruct (sessions s !! sessionId) as [session|]; [|done].
    by case_bool_decide.
  - unfold addUrl.
    destruct (users s !! currentUser) as [user|] eqn:Hi; [|done].
    destruct (truthy newUrl) as [new|]; [|done].
    destruct (acceptedUrl new) eqn:Hacc; [|done].
    destruct (addToTargets new (pingTargets user)) as [ts|] eqn:Hadd; [|done].
    apply Forall_insert; [done|]. simpl.
    eapply addToTargets_accepted; [exact Hacc| |exact Hadd].
    by apply (proj1 (Forall_lookup _ _) H currentUser).
  - unfold removeUrl.
    destruct (users s !! currentUser) as [user|] eqn:Hi; [|done].
    destruct (truthy urlToRemove) as [gone|]; [|done].
    apply Forall_insert; [done|]. simpl.
    apply Forall_forall. intros t [_ Ht]%list_elem_of_filter.
    pose proof (proj1 (Forall_lookup _ _) H currentUser user Hi) as Hts.
    by apply (proj1 (Forall_forall _ _) Hts).
  - unfold writeTarget.
    destruct (users s !! i) as [user|] eqn:Hi; [|done].
    destruct (pingTargets user !! j) as [target|] eqn:Hj; [|done].
    apply Forall_insert; [done|]. simpl.
    pose proof (proj1 (Forall_lookup _ _) H i user Hi) as Hts.
    apply Forall_insert; [done|]. rewrite recordResult_url.
    by apply (proj1 (Forall_lookup _ _) Hts j).
  - rewrite cleanup_users.
    apply Forall_forall. intros user [_ Hin]%list_elem_of_filter.
    by apply (proj1 (Forall_forall _ _) H).
Qed.

(** X22: the names of the accounts, distinct when the server starts, stay
    distinct whatever is done: a registration under a name that is taken
    is refused, and nothing else gives an account a name. *)
Theorem names_stay_unique loaded acts :
  names_unique (started loaded) →
  names_unique (run hashPassword (started loaded) acts).
Proof.
  intros H. unfold run. induction acts as [|a acts IH] using rev_ind; [done|].
  rewrite foldl_app. simpl. by apply perform_keeps_names.
Qed.

(** X23: the target lists stay well formed whatever is done: if every URL
    loaded starts with [http://] or [https://], so does every URL of the
    store at any later time, none being empty; and if the URLs of each
    loaded account are distinct, they stay distinct in each account. *)
Theorem targets_stay_well_formed loaded acts :
  (urls_accepted (started loaded) →
   urls_accepted (run hashPassword (started loaded) acts) ∧
   Forall (λ user, Forall (λ t, url t ≠ ""%string) (pingTargets user))
     (users (run hashPassword (started loaded) acts))) ∧
  (urls_unique (started loaded) →
   urls_unique (run hashPassword (started loaded) acts)).
Proof.
  split; [|apply run_urls_unique].
  intros H.
  assert (urls_accepted (run hashPassword (started loaded) acts)) as Hacc.
  { unfold run. induction acts as [|a acts IH] using rev_ind; [done|].
    rewrite foldl_app. simpl. by apply perform_keeps_accepted. }
  split; [done|].
  eapply Forall_impl; [exact Hacc|]. intros user Hts.
  eapply Forall_impl; [exact Hts|]. intros t Ht.
  by apply acceptedUrl_nonempty.
Qed.

End LifecycleProperties.

Section LifecycleWitnesses.
Import Lifecycle Handlers.

Lemma names_stay_unique_witness :
  names_unique
    (run (λ p, p) (started [Sample.alice; Sample.bob])
       [Register 7000 (Some "alice"%string) (Some "x"%string) "u3" "tok3";
        Register 7000 (Some "carol"%string) (Some "x"%string) "u4" "tok4"]).
Proof.
  apply (names_stay_unique (λ p, p) [Sample.alice; Sample.bob]).
  apply (bool_decide_unpack _). vm_compute. exact I.
Defined.

Lemma targets_stay_well_formed_witness :
  let s := run (λ p, p) (started [Sample.alice; Sample.bob])
             [AddUrl 1 (Some "https://a.example"%string);
              AddUrl 0 (Some "ftp://bad"%string);
              AddUrl 0 (Some "http://c.example"%string)] in
  urls_accepted s ∧ urls_unique s.
Proof.
  intros s.
  destruct (targets_stay_well_formed (λ p, p) [Sample.alice; Sample.bob]
              [AddUrl 1 (Some "https://a.example"%string);
               AddUrl 0 (Some "ftp://bad"%string);
               AddUrl 0 (Some "http://c.example"%string)])
    as [Hacc Huniq].
  split.
  - apply Hacc. apply (bool_decide_unpack _). vm_compute. exact I.
  - apply Huniq. apply (bool_decide_unpack _). vm_compute. exact I.
Defined.

End LifecycleWitnesses.

(** ** A request works on the account of its session only *)

Section Isolation.
Import SessionStore Handlers Router.

Variable hashPassword : string → string.
Variable net : Sweep.Network.

Lemma whoIs_owner now sessionId s i user :
  (whoIs now sessionId s).1 = Some (i, user) →
  ∃ session, sessions s !! sessionId = Some session ∧
             id user = userId session ∧
             users s !! i = Some user ∧
             (whoIs now sessionId s).2 = s.
Proof.
  unfold whoIs. destruct (sessions s !! sessionId) as [session|]; [|done].
  case_bool_decide; [done|]. simpl.
  intros (Hi & Hid & _)%list_find_Some. by exists session.
Qed.

Lemma addUrl_others i o s j :
  j ≠ i → users (addUrl i o s).1.1 !! j = users s !! j.
Proof.
  intros Hj. unfold addUrl.
  destruct (users s !! i) as [user|]; [|done].
  destruct (truthy o) as [new|]; [|done].
  destruct (acceptedUrl new); [|done].
  destruct (addToTargets new (pingTargets user)); [|done]. simpl.
  by rewrite list_lookup_insert_ne.
Qed.

Lemma removeUrl_others i o s j :
  j ≠ i → users (removeUrl i o s).1.1 !! j = users s !! j.
Proof.
  intros Hj. unfold removeUrl.
  destruct (users s !! i) as [user|]; [|done].
  destruct (truthy o) as [gone|]; [|done]. simpl.
  by rewrite list_lookup_insert_ne.
Qed.

Lemma pingNow_others i s w j :
  j ≠ i → users (PingNow.pingNow net i s w).1.1 !! j = users s !! j.
Proof.
  intros Hj. unfold PingNow.pingNow.
  destruct (users s !! i) as [user|]; [|done].
  destruct (PingNow.pingEach net (pingTargets user) w) as [ts w1]. simpl.
  by rewrite list_lookup_insert_ne.
Qed.

Lemma logout_users cookie s : users (logout cookie s).1.1 = users s.
Proof. unfold logout. simpl. by destruct (truthy cookie). Qed.

(** X24: a request to any path but those of registration and login leaves
    every account as it is, except the account whose identifier is the one
    of the session named by the cookie of the request: nobody can add,
    remove or ping the targets of another account. *)
Theorem requests_touch_their_own_account now uuid newSessionId req s j u :
  pathname req ≠ "/register"%string →
  pathname req ≠ "/login"%string →
  users s !! j = Some u →
  (∀ sessionId session,
     Cookies.parseCookies (cookieHeader req) !! "sessionId"%string
       = Some sessionId →
     sessions s !! sessionId = Some session →
     userId session ≠ id u) →
  users (handle hashPassword net now uuid newSessionId req s).1.1 !! j
  = Some u.
Proof.
  intros H1 H2 Hj Hother. unfold handle.
  rewrite !isPost_other_path by done.
  destruct (currentUserOf_frame now
              (Cookies.parseCookies (cookieHeader req)) s) as [Hu _].
  unfold currentUserOf in *.
  destruct (Cookies.parseCookies (cookieHeader req) !! "sessionId"%string)
    as [sessionId|] eqn:Hc.
  - pose proof (whoIs_owner now sessionId s) as Hown.
    destruct (whoIs now sessionId s) as [[[i user]|] s1]; simpl in *.
    + destruct (Hown i user eq_refl) as (session & Hs & Hid & Hi & ->).
      assert (j ≠ i) as Hji.
      { intros ->. rewrite Hi in Hj. injection Hj as <-.
        by apply (Hother sessionId session). }
      destruct (isPost req "/logout"); [by rewrite logout_users|].
      destruct (isPost req "/add"); [by rewrite addUrl_others|].
      destruct (isPost req "/remove"); [by rewrite removeUrl_others|].
      destruct (isPost req "/ping-now"); [|done].
      pose proof (pingNow_others i s
                    {| Sweep.clock := now; Sweep.fetches := 0;
                       Sweep.trace := [] |} j Hji) as Hp.
      destruct (PingNow.pingNow net i s _) as [[s2 w] resp]. simpl in *.
      by rewrite Hp.
    + destruct (isPost req "/logout");
        [by rewrite logout_users, Hu | simpl; by rewrite Hu].
  - destruct (isPost req "/logout"); [by rewrite logout_users | done].
Qed.

End Isolation.

Section IsolationWitnesses.
Import SessionStore Handlers Router.

Lemma requests_touch_their_own_account_witness :
  let s := {| users := users Sample.watching; sessions := sessions Sample.store |} in
  users (handle (λ p, p) Sample.healthy 5000 "u9" "tok9"
           (Sample.post "/remove" "sessionId=tokA"
              (Some "https://a.example"%string)) s).1.1 !! 1%nat
  = Some Sample.bob.
Proof.
  intros s.
  apply (requests_touch_their_own_account (λ p, p) Sample.healthy 5000 "u9"
           "tok9" (Sample.post "/remove" "sessionId=tokA"
                     (Some "https://a.example"%string)) s 1 Sample.bob).
  - discriminate.
  - discriminate.
  - reflexivity.
  - intros sessionId session Hc Hs. vm_compute in Hc. injection Hc as <-.
    vm_compute in Hs. injection Hs as <-. discriminate.
Defined.

End IsolationWitnesses.

(** ** Positions of the two loops *)

Section Positions.
Import Prober EventLoop.

Lemma targetAt_drop us i a b : targetAt (drop i us) a b = targetAt us (i + a) b.
Proof. unfold targetAt. by rewrite lookup_drop. Qed.

Lemma targetAt_cons_0 user rest b :
  targetAt (user :: rest) 0 b = pingTargets user !! b.
Proof. done. Qed.

Lemma targetAt_cons_S user rest a b :
  targetAt (user :: rest) (S a) b = targetAt rest a b.
Proof. done. Qed.

(** [nextTarget] finds a target, at or after the position it starts
    from, and no target lies between the two. *)
Lemma nextTarget_Some rest i j i' j' t :
  nextTarget rest i j = Some (i', j', t) →
  (i ≤ i')%nat ∧ (i' = i → (j ≤ j')%nat) ∧
  targetAt rest (i' - i) j' = Some t ∧
  ∀ a b t', targetAt rest a b = Some t' → (a = 0%nat → (j ≤ b)%nat) →
            ¬ before (i + a) b i' j'.
Proof.
  revert i j. induction rest as [|user rest IH]; intros i j H; [done|].
  simpl in H. destruct (pingTargets user !! j) as [t0|] eqn:Hj.
  - injection H as <- <- <-. rewrite Nat.sub_diag.
    split; [done|]. split; [done|]. split; [done|].
    intros a b t' _ Hab [Hlt|[Heq Hlt]]; [lia|].
    assert (a = 0%nat) as Ha by lia. specialize (Hab Ha). lia.
  - destruct (IH _ _ H) as (Hle & _ & Hat & Hmin).
    split; [lia|]. split; [lia|]. split.
    + replace (i' - i)%nat with (S (i' - S i)) by lia. done.
    + intros a b t' Hab Hpos. destruct a as [|a].
      * rewrite targetAt_cons_0 in Hab. specialize (Hpos eq_refl).
        apply lookup_ge_None_1 in Hj. apply lookup_lt_Some in Hab. lia.
      * rewrite targetAt_cons_S in Hab.
        replace (i + S a)%nat with (S i + a)%nat by lia.
        apply (Hmin a b t' Hab). lia.
Qed.

(** [nextTarget] finds nothing when no target is left. *)
Lemma nextTarget_None rest i j :
  nextTarget rest i j = None →
  ∀ a b t', targetAt rest a b = Some t' → a = 0%nat ∧ (b < j)%nat.
Proof.
  revert i j. induction rest as [|user rest IH]; intros i j H a b t' Hab.
  - done.
  - simpl in H. destruct (pingTargets user !! j) as [t0|] eqn:Hj; [done|].
    destruct a as [|a].
    + rewrite targetAt_cons_0 in Hab. split; [done|].
      apply lookup_ge_None_1 in Hj. apply lookup_lt_Some in Hab. lia.
    + rewrite targetAt_cons_S in Hab.
      destruct (IH _ _ H a b t' Hab) as [_ ?]. lia.
Qed.

Lemma seek_Some us i j i' j' t :
  seek us i j = Some (i', j', t) →
  targetAt us i' j' = Some t ∧ ¬ before i' j' i j ∧
  ∀ a b t', targetAt us a b = Some t' → ¬ before a b i j → ¬ before a b i' j'.
Proof.
  unfold seek. intros (Hle & Hj & Hat & Hmin)%nextTarget_Some.
  rewrite targetAt_drop in Hat.
  replace (i + (i' - i))%nat with i' in Hat by lia.
  split; [done|]. split.
  - intros [Hlt|[Heq Hlt]]; [lia|]. specialize (Hj Heq). lia.
  - intros a b t' Hab Hnot.
    assert ((i ≤ a)%nat ∧ (a = i → (j ≤ b)%nat)) as [Hia Hjb].
    { unfold before in Hnot. split; [lia|]. intros ->. lia. }
    replace a with (i + (a - i))%nat by lia.
    apply (Hmin (a - i)%nat b t').
    + rewrite targetAt_drop. by replace (i + (a - i))%nat with a by lia.
    + intros Ha. apply Hjb. lia.
Qed.

Lemma seek_None us i j :
  seek us i j = None → ∀ a b t', targetAt us a b = Some t' → before a b i j.
Proof.
  unfold seek. intros H a b t' Hab.
  destruct (decide (a < i)%nat) as [Hlt|Hge]; [by left|].
  destruct (nextTarget_None _ _ _ H (a - i)%nat b t') as [Ha Hb].
  - rewrite targetAt_drop. by replace (i + (a - i))%nat with a by lia.
  - right. split; lia.
Qed.

(** Writing one target leaves the others as they are. *)
Lemma targetAt_write us i0 j0 user t0 t' i j :
  us !! i0 = Some user → pingTargets user !! j0 = Some t0 →
  targetAt
    (<[i0 := Handlers.setTargets (<[j0 := t']> (pingTargets user)) user]> us)
    i j =
  if bool_decide (i = i0 ∧ j = j0) then Some t' else targetAt us i j.
Proof.
  intros Hi Hj. unfold targetAt.
  apply lookup_lt_Some in Hi as Hi'. apply lookup_lt_Some in Hj as Hj'.
  destruct (decide (i = i0)) as [->|Hne].
  - rewrite list_lookup_insert_eq by done. simpl. rewrite Hi. simpl.
    destruct (decide (j = j0)) as [->|Hnj].
    + rewrite bool_decide_eq_true_2 by done.
      by rewrite list_lookup_insert_eq.
    + rewrite bool_decide_eq_false_2 by (intros [_ ?]; done).
      by rewrite list_lookup_insert_ne.
  - rewrite bool_decide_eq_false_2 by (intros [? _]; done).
    by rewrite list_lookup_insert_ne.
Qed.

End Positions.

(** ** What an answer writes *)

Section LoopWrites.
Import Prober EventLoop.

(** The target that the body of the loop leaves is the one the
    specification words: same URL, the instant of the write, the text of
    the answer with the time since the fetch began. *)
Lemma recordResult_answer now startTime r target :
  recordResult now (pingOutcome startTime now r) target =
  {| url := url target; lastPing := Some now;
     status := Some (answerText r (now - startTime)) |}.
Proof. by destruct r. Qed.

Lemma answerText_nonempty r elapsed : answerText r elapsed ≠ ""%string.
Proof.
  unfold answerText. destruct r as [response|message]; [|done].
  destruct (pretty_N_head (statusCode response)) as (d & rest & ->). done.
Qed.

Lemma formatted_answerText r elapsed : Sweep.formatted (answerText r elapsed).
Proof. unfold answerText. by eexists _, elapsed. Qed.

Lemma settle_Some k r L L' :
  settle k r L = Some L' →
  ∃ p user target,
    running L !! k = Some p ∧ store L !! atUser p = Some user ∧
    pingTargets user !! atTarget p = Some target ∧
    let text := answerText r (clock L - startTime p) in
    let target' := {| url := url target; lastPing := Some (clock L);
                      status := Some text |} in
    L' = resume (atUser p) (S (atTarget p))
           {| clock := clock L; nextTick := nextTick L;
              store := <[atUser p :=
                          Handlers.setTargets
                            (<[atTarget p := target']> (pingTargets user))
                            user]> (store L);
              running := delete k (running L);
              trace := trace L ++
                [ConsoleLog (LogPinged (url target) (username user) text)];
              stamps := stamps L ++ [(atUser p, atTarget p, clock L)] |}.
Proof.
  unfold settle. intros H.
  destruct (running L !! k) as [p|]; simpl in H; [|done].
  destruct (store L !! atUser p) as [user|] eqn:Hi; simpl in H; [|done].
  destruct (pingTargets user !! atTarget p) as [target|] eqn:Hj;
    simpl in H; [|done].
  injection H as <-. exists p, user, target.
  split; [done|]. split; [done|]. split; [done|].
  rewrite recordResult_answer. cbn [status default].
  by destruct (pingOutcome_fulfils (startTime p) (clock L) r) as (? & -> & _).
Qed.

(** An answer writes the target that its call waits for, with the
    reading of the clock, and no other. *)
Lemma settle_writes k r L L' :
  settle k r L = Some L' →
  ∃ p target,
    running L !! k = Some p ∧
    targetAt (store L) (atUser p) (atTarget p) = Some target ∧
    clock L' = clock L ∧
    stamps L' = stamps L ++ [(atUser p, atTarget p, clock L)] ∧
    ∀ i j, targetAt (store L') i j =
           if bool_decide (i = atUser p ∧ j = atTarget p)
           then Some {| url := url target; lastPing := Some (clock L);
                        status :=
                          Some (answerText r (clock L - startTime p)) |}
           else targetAt (store L) i j.
Proof.
  intros (p & user & target & Hk & Hi & Hj & ->)%settle_Some.
  exists p, target. split; [done|].
  split; [unfold targetAt; by rewrite Hi|].
  match goal with
  | |- context [resume ?i ?j ?M] =>
      destruct (resume_frame i j M) as (-> & _ & -> & ->)
  end.
  split; [done|]. split; [done|]. intros i j. cbn [store].
  by rewrite (targetAt_write _ _ _ user target).
Qed.

Lemma step_holds_last_stamp us L L' :
  step L L' →
  (∀ i j, holdsLastStamp us (store L) i j (stampsOf i j L)) →
  ∀ i j, holdsLastStamp us (store L') i j (stampsOf i j L').
Proof.
  intros Hstep Hinv i j. specialize (Hinv i j).
  destruct Hstep as [L d|L Hdue|L k r L' Hsettle].
  - done.
  - destruct (fire_frame L) as (_ & Hst & Hs).
    unfold stampsOf. by rewrite Hs, Hst.
  - destruct (settle_writes _ _ _ _ Hsettle)
      as (p & target & _ & _ & _ & Hs & Hst).
    unfold holdsLastStamp. rewrite Hst.
    rewrite (stampsOf_snoc _ _ _ _ _ _ _ Hs).
    destruct (decide (i = atUser p ∧ j = atTarget p)) as [[-> ->]|Hne].
    + rewrite !bool_decide_eq_true_2 by done. by rewrite last_snoc.
    + rewrite !bool_decide_eq_false_2 by (intros [??]; by destruct Hne).
      by rewrite app_nil_r.
Qed.

Lemma reachable_holds_last_stamp t0 us L :
  reachable t0 us L → ∀ i j, holdsLastStamp us (store L) i j (stampsOf i j L).
Proof.
  induction 1 as [|L L' _ IH Hstep]; [done|].
  by eapply step_holds_last_stamp.
Qed.

(** No step takes the last-check instant of a target back, unless the
    target was loaded with an instant that is still to come. *)
Lemma step_lastPing_grows L L' i j a :
  step L L' →
  (targetAt (store L) i j ≫= lastPing) = Some a → a ≤ clock L →
  ∃ b, (targetAt (store L') i j ≫= lastPing) = Some b ∧ a ≤ b ≤ clock L'.
Proof.
  intros Hstep Ha Hle. destruct Hstep as [L d|L Hdue|L k r L' Hsettle].
  - exists a. split; [done|]. simpl. lia.
  - destruct (fire_frame L) as (-> & -> & _). exists a. split; [done | lia].
  - destruct (settle_writes _ _ _ _ Hsettle)
      as (p & target & _ & _ & -> & _ & Hst).
    rewrite Hst. case_bool_decide.
    + exists (clock L). split; [done | lia].
    + exists a. split; [done | lia].
Qed.

End LoopWrites.

Section LoopOrder.
Import Prober EventLoop.

(** C3 (amended): the timer starts a call of [pingAllUrls] whenever it is
    due, next to the calls that still run, so sweeps can overlap.  Every
    answer, of whichever sweep, writes to its target the reading of the
    clock at the write and the text of that answer, and that instant is
    the next of the instants written to the target.  In every state the
    loop can reach, the instants written to any one target, in the order
    of the writes, never decrease, none is later than the clock, and the
    last of them is the last-check instant that the target holds in the
    store; and no step of the loop takes the instant that a target holds
    back, unless it was loaded with an instant that is still to come. *)
Theorem overlapping_sweeps_stamp_in_order t0 us L :
  reachable t0 us L →
  (nextTick L ≤ clock L →
   reachable t0 us (fire L) ∧
   ∀ i j target, seek (store L) 0 0 = Some (i, j, target) →
     running (fire L) =
     running L ++ [{| atUser := i; atTarget := j; startTime := clock L |}]) ∧
  (∀ k r L', settle k r L = Some L' →
     ∃ p target,
       running L !! k = Some p ∧
       targetAt (store L) (atUser p) (atTarget p) = Some target ∧
       targetAt (store L') (atUser p) (atTarget p) =
         Some {| url := url target; lastPing := Some (clock L);
                 status := Some (answerText r (clock L - startTime p)) |} ∧
       stampsOf (atUser p) (atTarget p) L' =
         stampsOf (atUser p) (atTarget p) L ++ [clock L]) ∧
  (∀ i j,
     ascending (stampsOf i j L) = true ∧
     Forall (λ t, t ≤ clock L) (stampsOf i j L) ∧
     holdsLastStamp us (store L) i j (stampsOf i j L)) ∧
  ∀ L' i j a,
    step L L' →
    (targetAt (store L) i j ≫= lastPing) = Some a → a ≤ clock L →
    ∃ b, (targetAt (store L') i j ≫= lastPing) = Some b ∧ a ≤ b ≤ clock L'.
Proof.
  intros Hreach. split; [|split; [|split]]; [| | |by apply step_lastPing_grows].
  - intros Hdue. split.
    + eapply reach_step; [exact Hreach|]. by apply step_fire.
    + intros i j target Hseek. by rewrite fire_running, Hseek.
  - intros k r L' Hsettle.
    destruct (settle_writes _ _ _ _ Hsettle)
      as (p & target & Hk & Hat & _ & Hs & Hst).
    exists p, target. split; [done|]. split; [done|].
    split.
    + by rewrite Hst, bool_decide_eq_true_2.
    + rewrite (stampsOf_snoc _ _ _ _ _ _ _ Hs).
      by rewrite bool_decide_eq_true_2.
  - intros i j. destruct (reachable_in_order _ _ _ Hreach i j) as [Hasc Hle].
    split; [done|]. split; [done|].
    by apply (reachable_holds_last_stamp t0).
Qed.

End LoopOrder.

Section LoopOrderExamples.
Import Prober EventLoop.

Lemma lateAnswers_reachable :
  reachable 0 (users Sample.watching) Sample.lateAnswers.
Proof.
  apply (reach_step _ _ (advance 500 Sample.secondAnswered));
    [|by apply (step_settle _ 0 Sample.ok)].
  eapply reach_step; [|apply step_advance].
  apply (reach_step _ _ (advance 500 Sample.twoTicks));
    [|by apply (step_settle _ 1 Sample.ok)].
  eapply reach_step; [|apply step_advance].
  apply twoTicks_reachable.
Defined.

Lemma overlapping_sweeps_stamp_in_order_witness :
  stampsOf 1 0 Sample.lateAnswers = [6500; 7000] ∧
  ascending (stampsOf 1 0 Sample.lateAnswers) = true ∧
  (targetAt (store Sample.lateAnswers) 1 0 ≫= lastPing) = Some 7000.
Proof.
  split; [reflexivity|].
  destruct (overlapping_sweeps_stamp_in_order 0 (users Sample.watching)
              Sample.lateAnswers lateAnswers_reachable)
    as (_ & _ & Hstamps & _).
  destruct (Hstamps 1%nat 0%nat) as (Hasc & _ & Hlast).
  split; [exact Hasc | exact Hlast].
Defined.

End LoopOrderExamples.

(** ** Sweeps that overlap: what a sweep has done when it returns *)

Section LoopSweeps.
Import Prober EventLoop.

Lemma checkedSince_widen T now now' t :
  now ≤ now' → checkedSince T now t → checkedSince T now' t.
Proof.
  intros Hle (at_ & r & elapsed & Hlp & Hat & He & Hst).
  exists at_, r, elapsed. split; [done|]. split; [lia | done].
Qed.

(** A call that waits stays on its way while the clock moves on, the
    trace grows, and targets are either left alone or written now with
    the text of an answer. *)
Lemma onItsWay_step L L' T p :
  onItsWay L T p →
  clock L ≤ clock L' →
  (∀ e, e ∈ trace L → e ∈ trace L') →
  (∀ i j t', targetAt (store L') i j = Some t' →
     targetAt (store L) i j = Some t' ∨
     ∃ r elapsed, 0 ≤ elapsed ∧ lastPing t' = Some (clock L') ∧
                  status t' = Some (answerText r elapsed)) →
  onItsWay L' T p.
Proof.
  intros (Hstart & Hline & Hdone) Hclock Htrace Hstore.
  split; [lia|]. split; [by apply Htrace|].
  intros i j t' Hbefore Hat.
  destruct (Hstore i j t' Hat) as [Hold|(r & elapsed & He & Hlp & Hst)].
  - eapply checkedSince_widen; [exact Hclock|]. by eapply Hdone.
  - exists (clock L'), r, elapsed. split; [done|]. split; [lia | done].
Qed.

Lemma resume_grows i j L e : e ∈ trace L → e ∈ trace (resume i j L).
Proof. intros H. rewrite resume_trace. apply elem_of_app. by left. Qed.

(** What an answer to the call [p], started at [T], leaves: the calls
    that wait are still on their way, and every target up to that of [p]
    has been written since [T]. *)
Lemma settle_on_its_way k r L L' p T :
  settle k r L = Some L' → running L !! k = Some p → onItsWay L T p →
  (∀ T' q, onItsWay L T' q → onItsWay L' T' q) ∧
  T ≤ clock L' ∧ ConsoleLog (LogStartCycle T) ∈ trace L' ∧
  ∀ i j t, before i j (atUser p) (S (atTarget p)) →
           targetAt (store L') i j = Some t → checkedSince T (clock L') t.
Proof.
  intros Hsettle Hk Hp.
  destruct (settle_writes _ _ _ _ Hsettle)
    as (p' & target & Hk' & Hat & Hc & _ & Hst).
  rewrite Hk in Hk'. injection Hk' as <-.
  destruct (settle_Some _ _ _ _ Hsettle) as (p0 & user & t0 & _ & _ & _ & HL').
  assert (∀ e, e ∈ trace L → e ∈ trace L') as Htrace.
  { intros e He. rewrite HL'. apply resume_grows. cbn [trace].
    apply elem_of_app. by left. }
  pose proof Hp as (Hstart & Hline & Hdone).
  assert (∀ i j t', targetAt (store L') i j = Some t' →
            targetAt (store L) i j = Some t' ∨
            ∃ r0 elapsed, 0 ≤ elapsed ∧ lastPing t' = Some (clock L') ∧
                          status t' = Some (answerText r0 elapsed)) as Hstore.
  { intros i j t'. rewrite Hst. case_bool_decide; [|by left].
    intros [= <-]. right. exists r, (clock L - startTime p).
    split; [lia|]. by rewrite Hc. }
  split; [|split; [lia|split; [by apply Htrace|]]].
  - intros T' q Hq. apply (onItsWay_step L); [done | lia | done | done].
  - intros i j t Hbefore Ht.
    destruct (decide (i = atUser p ∧ j = atTarget p)) as [[-> ->]|Hne].
    + rewrite Hst, bool_decide_eq_true_2 in Ht by done.
      injection Ht as <-. exists (clock L), r, (clock L - startTime p).
      split; [done|]. split; [lia|]. split; [lia | done].
    + pose proof Ht as Ht'.
      rewrite Hst, bool_decide_eq_false_2 in Ht' by done.
      eapply checkedSince_widen; [|eapply (Hdone i j); [|exact Ht']].
      * lia.
      * unfold before in *. lia.
Qed.

(** After an answer the call goes on to its next target, or saves and
    returns. *)
Lemma settle_resumes k r L L' p :
  settle k r L = Some L' → running L !! k = Some p →
  clock L' = clock L ∧
  running L' =
    delete k (running L) ++
    match seek (store L') (atUser p) (S (atTarget p)) with
    | Some (i', j', _) =>
        [{| atUser := i'; atTarget := j'; startTime := clock L |}]
    | None => []
    end ∧
  ∃ line,
    trace L' =
      trace L ++
      [ConsoleLog line;
       match seek (store L') (atUser p) (S (atTarget p)) with
       | Some (_, _, target) => Fetch (url target)
       | None => SaveUsers (store L')
       end].
Proof.
  intros Hsettle Hk.
  destruct (settle_Some _ _ _ _ Hsettle) as (p' & user & tg & Hk' & _ & _ & HL').
  rewrite Hk in Hk'. injection Hk' as <-. cbn zeta in HL'.
  match type of HL' with
  | _ = resume ?i ?j ?M =>
      destruct (resume_frame i j M) as (Hc & _ & Hst & _);
      pose proof (resume_running i j M) as Hrun;
      pose proof (resume_trace i j M) as Htr
  end.
  rewrite <- HL' in Hc, Hst, Hrun, Htr. rewrite <- Hst in Hrun, Htr.
  split; [done|]. split; [done|].
  eexists. rewrite Htr. cbn [trace]. by rewrite <- app_assoc.
Qed.

(** In every state of the loop, every call that runs is on its way. *)
Lemma tracked_on_their_way t0 us L began :
  tracked t0 us L began → Forall2 (onItsWay L) began (running L).
Proof.
  induction 1 as [|L began d _ IH|L began _ IH Hdue
                  |L began k r L' p T _ IH Hk HT Hsettle].
  - constructor.
  - eapply Forall2_impl; [exact IH|]. intros T p Hp.
    apply (onItsWay_step L); [done | simpl; lia | done | by left].
  - rewrite fire_running. apply Forall2_app.
    + eapply Forall2_impl; [exact IH|]. intros T p Hp.
      destruct (fire_frame L) as (Hc & Hst & _).
      apply (onItsWay_step L); [done | lia | | rewrite Hst; by left].
      intros e He. unfold fire. apply resume_grows. cbn [trace].
      apply elem_of_app. by left.
    + destruct (seek (store L) 0 0) as [[[i' j'] target]|] eqn:Hseek;
        [|constructor].
      constructor; [|constructor].
      destruct (fire_frame L) as (Hc & Hst & _).
      split; [simpl; lia|]. split.
      * unfold fire. apply resume_grows. cbn [trace].
        apply elem_of_app. right. constructor.
      * intros i j t Hbefore Ht. rewrite Hst in Ht.
        destruct (seek_Some _ _ _ _ _ _ Hseek) as (_ & _ & Hmin).
        destruct (Hmin i j t Ht); [|done]. unfold before. lia.
  - assert (onItsWay L T p) as Hp.
    { eapply Forall2_lookup_lr; [exact IH| |]; done. }
    destruct (settle_on_its_way _ _ _ _ _ _ Hsettle Hk Hp)
      as (Hkeep & HT' & Hline & Hdone).
    destruct (settle_resumes _ _ _ _ _ Hsettle Hk) as (Hc & -> & _).
    apply Forall2_app.
    + apply Forall2_delete. eapply Forall2_impl; [exact IH|].
      intros T' q. apply Hkeep.
    + destruct (seek (store L') (atUser p) (S (atTarget p)))
        as [[[i' j'] target]|] eqn:Hseek; [|constructor].
      constructor; [|constructor].
      split; [simpl; lia|]. split; [done|].
      intros i j t Hbefore Ht. apply (Hdone i j t); [|done].
      destruct (seek_Some _ _ _ _ _ _ Hseek) as (_ & _ & Hmin).
      destruct (decide (before i j (atUser p) (S (atTarget p))))
        as [Hb|Hnb]; [done|].
      by destruct (Hmin i j t Ht Hnb).
Qed.

Lemma tracked_reachable t0 us L began :
  tracked t0 us L began → reachable t0 us L.
Proof.
  induction 1; [apply reach_boot|..];
    (eapply reach_step; [eassumption|]).
  - apply step_advance.
  - by apply step_fire.
  - by eapply step_settle.
Qed.

(** Every state of the loop comes with the instants at which its calls
    were started. *)
Lemma reachable_tracked t0 us L :
  reachable t0 us L → ∃ began, tracked t0 us L began.
Proof.
  induction 1 as [|L L' _ [began IH] Hstep].
  - eexists. apply tracked_boot.
  - destruct Hstep as [L d|L Hdue|L k r L' Hsettle].
    + eexists. by apply tracked_advance.
    + eexists. by apply tracked_fire.
    + destruct (settle_Some _ _ _ _ Hsettle) as (p & user & tg & Hk & _).
      destruct (Forall2_lookup_r _ _ _ _ _
                  (tracked_on_their_way _ _ _ _ IH) Hk) as (T & HT & _).
      eexists. by eapply tracked_settle.
Qed.

(** When the call [p], started at [T], gets its last answer and returns,
    every target of the store has been written since [T], and the call
    ends with its save of the store. *)
Lemma sweep_returns t0 us L began k r L' p T :
  tracked t0 us L began →
  running L !! k = Some p → began !! k = Some T →
  settle k r L = Some L' →
  seek (store L') (atUser p) (S (atTarget p)) = None →
  running L' = delete k (running L) ∧
  last (trace L') = Some (SaveUsers (store L')) ∧
  ConsoleLog (LogStartCycle T) ∈ trace L' ∧
  T ≤ clock L' ∧
  ∀ i j t, targetAt (store L') i j = Some t → checkedSince T (clock L') t.
Proof.
  intros Htracked Hk HT Hsettle Hseek.
  assert (onItsWay L T p) as Hp.
  { eapply Forall2_lookup_lr;
      [exact (tracked_on_their_way _ _ _ _ Htracked)| |]; done. }
  destruct (settle_on_its_way _ _ _ _ _ _ Hsettle Hk Hp)
    as (_ & HT' & Hline & Hdone).
  destruct (settle_resumes _ _ _ _ _ Hsettle Hk) as (_ & Hrun & line & Htr).
  rewrite Hseek in Hrun, Htr.
  split; [by rewrite Hrun, app_nil_r|].
  split.
  { rewrite Htr.
    change [ConsoleLog line; SaveUsers (store L')]
      with ([ConsoleLog line] ++ [SaveUsers (store L')]).
    by rewrite app_assoc, last_snoc. }
  split; [done|]. split; [done|].
  - intros i j t Ht. apply (Hdone i j t); [|done].
    by eapply seek_None.
Qed.

End LoopSweeps.

(** ** What a sweep leaves on each target *)

Section SweepWrites.
Import Prober Sweep.

Variable net : Network.

Lemma written_next start n u urls k before :
  written net (start + Z.of_N (net n u).2) (S n) urls k before =
  written net start n (u :: urls) (S k) before.
Proof.
  unfold written. cbn [take delays].
  replace (S n + k)%nat with (n + S k)%nat by lia. f_equal. f_equal. lia.
Qed.

(** The [k]-th target of an account, after the loop over its targets. *)
Lemma pingTargetsOf_lookup user_name ts w k before :
  ts !! k = Some before →
  (pingTargetsOf net user_name ts w).1 !! k =
  Some (written net (clock w) (fetches w) (url <$> ts) k before).
Proof.
  revert w k. induction ts as [|t rest IH]; intros w k Hk; [done|].
  rewrite pingTargetsOf_cons. cbn [fst].
  destruct k as [|k].
  - injection Hk as ->. cbn [lookup list_lookup].
    rewrite recordResult_answer. unfold written.
    cbn [fmap list_fmap take delays]. rewrite Nat.add_0_r, take_0.
    cbn [delays].
    replace (clock w + Z.of_N (net (fetches w) (url before)).2 - clock w)
      with (Z.of_N (net (fetches w) (url before)).2) by lia.
    by rewrite Z.add_0_r.
  - rewrite fmap_cons, <- written_next. exact (IH _ k Hk).
Qed.

Lemma written_app_l start n a b k before :
  (k < length a)%nat →
  written net start n (a ++ b) k before = written net start n a k before.
Proof.
  intros Hk. unfold written. by rewrite take_app_le by lia.
Qed.

Lemma written_app_r start n a b k before :
  (length a ≤ k)%nat →
  written net start n (a ++ b) k before =
  written net (start + delays net n a) (n + length a) b (k - length a) before.
Proof.
  intros Hk. unfold written. rewrite take_app_ge by lia.
  rewrite delays_app.
  replace (S k - length a)%nat with (S (k - length a)) by lia.
  replace (n + length a + (k - length a))%nat with (n + k)%nat by lia.
  f_equal. f_equal. lia.
Qed.

(** The [k]-th target of the store, after the two loops. *)
Lemma pingUsers_lookup us w k before :
  allTargets us !! k = Some before →
  allTargets (pingUsers net us w).1 !! k =
  Some (written net (clock w) (fetches w) (url <$> allTargets us) k before).
Proof.
  revert w k. induction us as [|user rest IH]; intros w k Hk; [done|].
  rewrite pingUsers_cons. cbn [fst]. rewrite !allTargets_cons in *.
  cbn [pingTargets Handlers.setTargets].
  destruct (pingTargetsOf_spec net (username user) (pingTargets user) w)
    as (Hall & _).
  apply Forall2_length in Hall.
  destruct (pingTargetsOf_timing net (username user) (pingTargets user) w)
    as (Hc & Hf & _).
  rewrite fmap_app.
  destruct (decide (k < length (pingTargets user))%nat) as [Hlt|Hge].
  - rewrite lookup_app_l in Hk |- * by lia.
    rewrite written_app_l by (rewrite length_fmap; lia).
    by apply pingTargetsOf_lookup.
  - rewrite lookup_app_r in Hk |- * by lia.
    rewrite written_app_r by (rewrite length_fmap; lia).
    rewrite <- Hall, length_fmap.
    rewrite (IH _ _ Hk). by rewrite Hc, Hf.
Qed.

End SweepWrites.

Section SweepCompletes.
Import Prober Sweep.

(** C4: when a call of [pingAllUrls] has run to its end, every target that
    was in the store at its start is there with its URL, with the text of
    the answer to its own fetch, which is the status line of the response
    or the message of the error behind [Error: ], then the milliseconds
    that fetch took between brackets, and with the instant at which that
    fetch settled, which is no earlier than the start of the call; the
    accounts are otherwise as they were; the targets were fetched account
    by account in store order and, within an account, in list order; and
    the effects of the call end with the one save of the whole store, in
    its final state.  When sweeps overlap in the timer loop the same holds
    of each of them as far as the other lets it: at the answer on which a
    call started at [T] returns, every target of the store holds an
    instant between [T] and that of the return, written together with the
    text of an answer, and the last effect is the save of the store by
    that call. *)
Theorem pingAllUrls_completes (net : Network) :
  (∀ s w,
     let s' := (pingAllUrls net s w).1 in
     let w' := (pingAllUrls net s w).2 in
     (∀ k before,
        allTargets (users s) !! k = Some before →
        allTargets (users s') !! k =
        Some {| url := url before;
                lastPing :=
                  Some (clock w +
                        delays net (fetches w)
                          (take (S k) (url <$> allTargets (users s))));
                status :=
                  Some (answerText
                          (net (fetches w + k)%nat (url before)).1
                          (Z.of_N (net (fetches w + k)%nat (url before)).2))
             |}) ∧
     Forall2
       (λ before after,
          url after = url before ∧
          ∃ text at_,
            status after = Some text ∧ text ≠ ""%string ∧ formatted text ∧
            lastPing after = Some at_ ∧ clock w ≤ at_ ≤ clock w')
       (allTargets (users s)) (allTargets (users s')) ∧
     Forall2
       (λ before after,
          after = Handlers.setTargets (pingTargets after) before ∧
          length (pingTargets after) = length (pingTargets before))
       (users s) (users s') ∧
     sessions s' = sessions s ∧
     ∃ evs,
       trace w' = trace w ++ [ConsoleLog (LogStartCycle (clock w))] ++ evs
                    ++ [SaveUsers (users s')] ∧
       fetchedUrls evs = url <$> allTargets (users s) ∧
       Forall (λ e, is_save e = false) evs) ∧
  (∀ t0 us L began k r L' p T,
     EventLoop.tracked t0 us L began →
     EventLoop.running L !! k = Some p → began !! k = Some T →
     EventLoop.settle k r L = Some L' →
     EventLoop.seek (EventLoop.store L') (EventLoop.atUser p)
       (S (EventLoop.atTarget p)) = None →
     EventLoop.running L' = delete k (EventLoop.running L) ∧
     last (EventLoop.trace L') = Some (SaveUsers (EventLoop.store L')) ∧
     ConsoleLog (LogStartCycle T) ∈ EventLoop.trace L' ∧
     ∀ i j t,
       EventLoop.targetAt (EventLoop.store L') i j = Some t →
       ∃ at_ r' elapsed,
         lastPing t = Some at_ ∧ T ≤ at_ ≤ EventLoop.clock L' ∧
         0 ≤ elapsed ∧ status t = Some (answerText r' elapsed)).
Proof.
  split.
  - intros s w s' w'. split; [|apply pingAllUrls_frame].
    intros k before Hk. subst s'. rewrite pingAllUrls_eq. cbn [fst users].
    by rewrite (pingUsers_lookup net _ _ _ _ Hk).
  - intros t0 us L began k r L' p T Htracked Hk HT Hsettle Hseek.
    destruct (sweep_returns _ _ _ _ _ _ _ _ _ Htracked Hk HT Hsettle Hseek)
      as (Hrun & Hlast & Hline & _ & Hall).
    split; [done|]. split; [done|]. split; [done|].
    intros i j t Ht. exact (Hall i j t Ht).
Qed.

End SweepCompletes.

Section SweepCompletesExamples.
Import Prober EventLoop.

Lemma twoTicks_tracked :
  tracked 0 (users Sample.watching) Sample.twoTicks [3000; 6000].
Proof.
  apply (tracked_fire 0 _
           (advance 3000
              (fire (advance 3000 (boot 0 (users Sample.watching)))))
           [3000]); [|vm_compute; discriminate].
  apply tracked_advance.
  apply (tracked_fire 0 _ (advance 3000 (boot 0 (users Sample.watching))) []);
    [|vm_compute; discriminate].
  apply tracked_advance. apply tracked_boot.
Defined.

(** The two sweeps of [lateAnswers]: the one started at 6000 is the first
    of the calls that wait, the one started at 3000 the second. *)
Lemma lateAnswers_tracked :
  tracked 0 (users Sample.watching) Sample.lateAnswers [6000; 3000].
Proof.
  apply (tracked_settle 0 _ (advance 500 Sample.secondAnswered) [3000; 6000]
           0 Sample.ok Sample.lateAnswers
           {| atUser := 1; atTarget := 0; startTime := 3000 |} 3000);
    [|reflexivity..].
  apply tracked_advance.
  apply (tracked_settle 0 _ (advance 500 Sample.twoTicks) [3000; 6000]
           1 Sample.ok Sample.secondAnswered
           {| atUser := 1; atTarget := 0; startTime := 6000 |} 6000);
    [|reflexivity..].
  apply tracked_advance. apply twoTicks_tracked.
Defined.

(** The sweep started at 6000 returns at 7100, while the one started at
    3000 still waits: the first target of bob then holds the instant 7000,
    written by the older sweep, the second the instant 7100. *)
Lemma pingAllUrls_completes_witness :
  ∃ L',
    settle 0 Sample.ok (advance 100 Sample.lateAnswers) = Some L' ∧
    running L' = [{| atUser := 1; atTarget := 1; startTime := 7000 |}] ∧
    last (trace L') = Some (SaveUsers (store L')) ∧
    ∀ i j t,
      targetAt (store L') i j = Some t →
      ∃ at_ r' elapsed,
        lastPing t = Some at_ ∧ 6000 ≤ at_ ≤ 7100 ∧
        0 ≤ elapsed ∧ status t = Some (answerText r' elapsed).
Proof.
  eexists. split; [vm_compute; reflexivity|].
  destruct (pingAllUrls_completes Sample.healthy) as [_ Hloop].
  match goal with
  | |- running ?L' = _ ∧ _ =>
      destruct (Hloop 0 (users Sample.watching)
                  (advance 100 Sample.lateAnswers) [6000; 3000] 0%nat
                  Sample.ok L'
                  {| atUser := 1; atTarget := 1; startTime := 6500 |} 6000)
        as (Hrun & Hlast & _ & Hall)
  end.
  - apply tracked_advance. apply lateAnswers_tracked.
  - reflexivity.
  - reflexivity.
  - vm_compute. reflexivity.
  - vm_compute. reflexivity.
  - split; [exact Hrun|]. split; [exact Hlast | exact Hall].
Defined.

End SweepCompletesExamples.

(** ** A sweep that is over before the timer is due again *)

Section TimelyFacts.
Import Prober EventLoop.

Lemma tick_step L L' : tick L L' → step L L'.
Proof.
  intros [L0 d _|L0 Hdue|L0 k r L1 _ Hsettle].
  - apply step_advance.
  - by apply step_fire.
  - by eapply step_settle.
Qed.

Lemma timely_reachable t0 us L : timely t0 us L → reachable t0 us L.
Proof.
  induction 1 as [|L L' _ IH Htick]; [apply reach_boot|].
  eapply reach_step; [exact IH | by apply tick_step].
Qed.

Variable net : Sweep.Network.

Lemma answer_frame n L L' :
  answer net n L = Some L' →
  ∃ u, settle 0 (net n u).1 (advance (net n u).2 L) = Some L' ∧
       nextTick L' = nextTick L ∧
       clock L' = clock L + Z.of_N (net n u).2.
Proof.
  unfold answer. intros H.
  destruct (running L !! 0%nat) as [p|]; simpl in H; [|done].
  destruct (store L !! atUser p) as [user|]; simpl in H; [|done].
  destruct (pingTargets user !! atTarget p) as [target|]; simpl in H; [|done].
  exists (url target). split; [done|].
  destruct (settle_Some _ _ _ _ H) as (p' & user' & tg & _ & _ & _ & ->).
  match goal with
  | |- context [resume ?i ?j ?M] =>
      by destruct (resume_frame i j M) as (-> & -> & _ & _)
  end.
Qed.

Lemma alone_frame fuel n L Lend :
  alone net fuel n L = Some Lend →
  nextTick Lend = nextTick L ∧ clock L ≤ clock Lend.
Proof.
  revert n L. induction fuel as [|fuel IH]; intros n L Hal; simpl in Hal.
  - destruct (running L); [|done]. injection Hal as <-. split; [done | lia].
  - destruct (running L); [injection Hal as <-; split; [done | lia]|].
    destruct (answer net n L) as [L'|] eqn:Hans; simpl in Hal; [|done].
    destruct (answer_frame _ _ _ Hans) as (d & _ & Hnt & Hc).
    destruct (IH _ _ Hal) as [Hnt' Hc']. split; [congruence | lia].
Qed.

(** A call that runs alone and is over before the timer is due goes
    through steps that the timer allows. *)
Lemma alone_timely t0 us fuel n L Lend :
  timely t0 us L → alone net fuel n L = Some Lend →
  clock Lend < nextTick L → timely t0 us Lend.
Proof.
  revert n L. induction fuel as [|fuel IH]; intros n L Ht Hal Hend;
    simpl in Hal.
  - destruct (running L); by simplify_eq.
  - destruct (running L); [by simplify_eq|].
    destruct (answer net n L) as [L'|] eqn:Hans; simpl in Hal; [|done].
    destruct (answer_frame _ _ _ Hans) as (u & Hsettle & Hnt & Hc).
    destruct (alone_frame _ _ _ _ Hal) as [_ Hc'].
    apply (IH (S n) L'); [|done|lia].
    eapply timely_tick; [eapply timely_tick; [exact Ht|]|].
    + apply (tick_advance L (net n u).2). lia.
    + eapply tick_settle; [|exact Hsettle]. simpl. lia.
Qed.

(** A call of [pingAllUrls] started by the timer while no other runs,
    whose fetches take less than the period of the timer all together: the
    loop goes through it with no other event, the timer is not due before
    it returns, and the loop is then where [Sweep.pingAllUrls] ends. *)
Lemma lone_sweep_timely t0 us L m :
  timely t0 us L →
  running L = [] →
  nextTick L ≤ clock L →
  Sweep.delays net 0 (url <$> Sweep.allTargets (store L)) < period →
  let r := Sweep.pingAllUrls net {| users := store L; sessions := m |}
             {| Sweep.clock := clock L; Sweep.fetches := 0;
                Sweep.trace := trace L |} in
  ∃ Lend,
    alone net (length (Sweep.allTargets (store L))) 0 (fire L) = Some Lend ∧
    timely t0 us Lend ∧
    running Lend = [] ∧
    store Lend = users r.1 ∧
    clock Lend = Sweep.clock r.2 ∧
    trace Lend = Sweep.trace r.2 ∧
    clock Lend = clock L + Sweep.delays net 0 (url <$> Sweep.allTargets (store L)) ∧
    nextTick Lend = clock L + period.
Proof.
  intros Ht Hidle Hdue Hshort r.
  destruct (lone_sweep_is_pingAllUrls net L m Hidle)
    as (Lend & Hal & Hrun & Hst & Hcl & Htr).
  fold r in Hst, Hcl, Htr.
  assert (Sweep.clock r.2 =
          clock L + Sweep.delays net 0 (url <$> Sweep.allTargets (store L)))
    as Hsum.
  { subst r. rewrite pingAllUrls_eq. simpl.
    by destruct (pingUsers_timing net (store L)
                   (Sweep.emit (ConsoleLog (LogStartCycle (clock L)))
                      {| Sweep.clock := clock L; Sweep.fetches := 0;
                         Sweep.trace := trace L |})) as (-> & _). }
  destruct (alone_frame _ _ _ _ Hal) as [Hnt _].
  assert (nextTick (fire L) = clock L + period) as Hfire.
  { unfold fire.
    match goal with
    | |- context [resume ?i ?j ?M] =>
        by destruct (resume_frame i j M) as (_ & -> & _ & _)
    end. }
  exists Lend. split; [done|]. split.
  { eapply alone_timely; [|exact Hal|].
    - eapply timely_tick; [exact Ht | by apply tick_fire].
    - rewrite Hfire, Hcl, Hsum. lia. }
  split; [done|]. split; [done|]. split; [done|]. split; [done|].
  split; [by rewrite Hcl | by rewrite Hnt].
Qed.

End TimelyFacts.

Section TimelyProperties.
Import Prober EventLoop.

(** X18: a sweep that runs from its start to its end with no other sweep
    in between leaves the last-check instants in the order of its loops:
    along the accounts in store order and the targets of each in list
    order they never decrease, and all lie between the start and the end
    of the sweep.  This holds of [Sweep.pingAllUrls], the call run in one
    go, and in the timer loop of a call that the timer starts while no
    other runs and whose fetches take less than the period of the timer
    all together. *)
Theorem sweep_stamps_in_probe_order (net : Sweep.Network) :
  (∀ s w,
     let r := Sweep.pingAllUrls net s w in
     ascending (omap lastPing (Sweep.allTargets (users r.1))) = true ∧
     Forall (λ t, Sweep.clock w ≤ t ≤ Sweep.clock r.2)
       (omap lastPing (Sweep.allTargets (users r.1)))) ∧
  (∀ t0 us L,
     timely t0 us L → running L = [] → nextTick L ≤ clock L →
     Sweep.delays net 0 (url <$> Sweep.allTargets (store L)) < period →
     ∃ Lend,
       alone net (length (Sweep.allTargets (store L))) 0 (fire L)
         = Some Lend ∧
       timely t0 us Lend ∧ running Lend = [] ∧
       ascending (omap lastPing (Sweep.allTargets (store Lend))) = true ∧
       Forall (λ t, clock L ≤ t ≤ clock Lend)
         (omap lastPing (Sweep.allTargets (store Lend)))).
Proof.
  assert (∀ s w,
     let r := Sweep.pingAllUrls net s w in
     ascending (omap lastPing (Sweep.allTargets (users r.1))) = true ∧
     Forall (λ t, Sweep.clock w ≤ t ≤ Sweep.clock r.2)
       (omap lastPing (Sweep.allTargets (users r.1)))) as Hsweep.
  { intros s w r. subst r. rewrite pingAllUrls_eq. simpl.
    destruct (pingUsers_timing net (users s)
                (Sweep.emit (ConsoleLog (LogStartCycle (Sweep.clock w))) w))
      as (_ & _ & Hasc & Hall). by split. }
  split; [exact Hsweep|].
  intros t0 us L Ht Hidle Hdue Hshort.
  destruct (lone_sweep_timely net t0 us L ∅ Ht Hidle Hdue Hshort)
    as (Lend & Hal & Ht' & Hrun & Hst & Hcl & _).
  exists Lend. split; [done|]. split; [done|]. split; [done|].
  rewrite Hst, Hcl. apply Hsweep.
Qed.

(** X21: when the timer is due and no sweep runs, and the fetches of the
    targets take less than the period of the timer all together, the loop
    goes on, with one answer per target and no other event, to a state in
    which the sweep has returned and the timer is not yet due again; that
    state has the store, the clock and the effects of [Sweep.pingAllUrls]
    run in one go. *)
Theorem lone_sweep_runs_to_its_end (net : Sweep.Network) t0 us L m :
  timely t0 us L →
  running L = [] →
  nextTick L ≤ clock L →
  Sweep.delays net 0 (url <$> Sweep.allTargets (store L)) < period →
  let r := Sweep.pingAllUrls net {| users := store L; sessions := m |}
             {| Sweep.clock := clock L; Sweep.fetches := 0;
                Sweep.trace := trace L |} in
  ∃ Lend,
    alone net (length (Sweep.allTargets (store L))) 0 (fire L) = Some Lend ∧
    timely t0 us Lend ∧
    reachable t0 us Lend ∧
    running Lend = [] ∧
    store Lend = users r.1 ∧
    clock Lend = Sweep.clock r.2 ∧
    trace Lend = Sweep.trace r.2 ∧
    clock Lend < nextTick Lend.
Proof.
  intros Ht Hidle Hdue Hshort r.
  destruct (lone_sweep_timely net t0 us L m Ht Hidle Hdue Hshort)
    as (Lend & Hal & Ht' & Hrun & Hst & Hcl & Htr & Hsum & Hnt).
  exists Lend. split; [done|]. split; [done|].
  split; [by eapply timely_reachable|].
  split; [done|]. split; [done|]. split; [done|]. split; [done|]. lia.
Qed.

End TimelyProperties.

Section TimelyWitnesses.
Import Prober EventLoop.

Lemma firstTick_timely :
  timely 0 (users Sample.watching)
    (advance 3000 (boot 0 (users Sample.watching))).
Proof.
  eapply timely_tick; [apply timely_boot|].
  apply tick_advance. vm_compute. reflexivity.
Defined.

Lemma sweep_stamps_in_probe_order_witness :
  let L := advance 3000 (boot 0 (users Sample.watching)) in
  ∃ Lend,
    alone Sample.healthy 2 0 (fire L) = Some Lend ∧
    running Lend = [] ∧
    ascending (omap lastPing (Sweep.allTargets (store Lend))) = true.
Proof.
  intros L.
  destruct (sweep_stamps_in_probe_order Sample.healthy) as [_ Hloop].
  destruct (Hloop 0 (users Sample.watching) L)
    as (Lend & Hal & _ & Hrun & Hasc & _).
  - apply firstTick_timely.
  - reflexivity.
  - vm_compute. discriminate.
  - vm_compute. reflexivity.
  - exists Lend. split; [exact Hal|]. split; [exact Hrun | exact Hasc].
Defined.

Lemma lone_sweep_runs_to_its_end_witness :
  let L := advance 3000 (boot 0 (users Sample.watching)) in
  ∃ Lend,
    alone Sample.healthy 2 0 (fire L) = Some Lend ∧
    timely 0 (users Sample.watching) Lend ∧
    running Lend = [] ∧
    clock Lend < nextTick Lend.
Proof.
  intros L.
  destruct (lone_sweep_runs_to_its_end Sample.healthy 0
              (users Sample.watching) L ∅)
    as (Lend & Hal & Ht & _ & Hrun & _ & _ & _ & Hnt).
  - apply firstTick_timely.
  - reflexivity.
  - vm_compute. discriminate.
  - vm_compute. reflexivity.
  - exists Lend. split; [exact Hal|]. split; [exact Ht|].
    split; [exact Hrun | exact Hnt].
Defined.

(** A sweep that the next tick overlaps need not leave the instants in
    that order.  The sweep started at 3000 writes the first two targets of
    dave at 3030 and 3090 and then waits for the third; the sweep started
    at 6000 writes the first target at 6100; the answer for the third
    target comes at 6200, and the first sweep saves and returns. *)
Example overlapped_sweep_stamps_out_of_order :
  let L0 := fire (advance 3000 (boot 0 [Sample.dave])) in
  let Lend :=
    settle 0 Sample.ok (advance 30 L0) ≫= λ L1,
    settle 0 Sample.ok (advance 60 L1) ≫= λ L2,
    settle 1 Sample.ok (advance 100 (fire (advance 2910 L2))) ≫= λ L3,
    settle 0 Sample.ok (advance 100 L3) in
  (omap lastPing ∘ Sweep.allTargets ∘ store <$> Lend)
    = Some [6100; 3090; 6200] ∧
  (ascending ∘ omap lastPing ∘ Sweep.allTargets ∘ store <$> Lend)
    = Some false ∧
  (length ∘ running <$> Lend) = Some 1%nat ∧
  (Lend ≫= λ L, last (trace L)) = (SaveUsers ∘ store <$> Lend).
Proof. vm_compute. repeat split; reflexivity. Qed.

End TimelyWitnesses.

Section LoopShapeWitnesses.
Import Prober EventLoop.

(** After the answers to two sweeps that overlap, the first target of bob
    holds what the later answer wrote; the accounts and the URLs of their
    targets are those that were loaded. *)
Lemma loop_keeps_the_shape_witness :
  targetAt (store Sample.lateAnswers) 1 0 =
    Some {| url := "https://a.example"; lastPing := Some 7000;
            status := Some "200 OK (4000ms)"%string |} ∧
  shape (store Sample.lateAnswers) = shape (users Sample.watching).
Proof.
  split; [reflexivity|].
  apply (loop_keeps_the_shape 0 (users Sample.watching) Sample.lateAnswers
           lateAnswers_reachable).
Defined.

End LoopShapeWitnesses.

Section ReaperSparesWitnesses.
Import Reaper.

(** A tick at 200000001 removes alice, who logged in at 5000, and her
    session; carol, who logged in at 200000000, and her session stay. *)
Lemma reaper_spares_survivors_witness :
  users (cleanupInactiveAccounts 200000001 Sample.mixed).1 = [Sample.carol] ∧
  sessions (cleanupInactiveAccounts 200000001 Sample.mixed).1 !! "tokA"%string
    = None ∧
  sessions (cleanupInactiveAccounts 200000001 Sample.mixed).1 !! "tokC"%string
    = Some {| userId := "u3"; expires := 286400000 |}.
Proof.
  split; [reflexivity|]. split; [reflexivity|].
  apply (reaper_spares_survivors 200000001 Sample.mixed); [reflexivity|].
  vm_compute. eauto.
Defined.

End ReaperSparesWitnesses.
